(** * envreq: a registry of environment-variable requirements

    A shallow embedding of the Go package [envreq] (envreq.go and its
    validators) and the properties of its merge / cache / freeze state
    machine.

    Conventions of the embedding
    - Go [string]s are byte strings: [String.string], compared bytewise
      ([String.ltb], [String.eqb]) and measured in bytes ([String.length]).
    - A Go [error] is observed by this package only through its message
      (printed with the verb v), so an error value is its message; [None]
      stands for the nil error and for a nil [Validate] function.
    - The package-level variables [reg], [cache] and [frozen] form the
      record [State]; every operation passes it explicitly through the
      monad [M], together with the chronological trace of what the
      operation did to the outside world (log lines, writes to stderr,
      environment reads, validator calls).
    - [panic] and [os.Exit] are outcomes of their own.
    - Concurrent callers of [Check] are interleavings of the steps that
      its locks delimit (type [Caller]); one caller that is not
      interrupted is the sequential [Check], whether it returns or panics
      (lemma [caller_alone_is_Check]). *)

From Stdlib Require Import ZArith Lia Strings.String Strings.Ascii.
From Stdlib Require Import Numbers.DecimalString DecimalPos DecimalZ DecimalFacts.
From Stdlib Require Import Sorting.Sorted.
From stdpp Require Import gmap strings list fin_maps sorting.

Open Scope string_scope.

(* ===================================================================== *)
(** * Strings and formatting (Go's [fmt], [strings], [unicode/utf8])     *)
(* ===================================================================== *)

Definition byte_of (n : nat) : string := String (ascii_of_nat n) EmptyString.

(** The newline of the format strings. *)
Definition nl : string := byte_of 10.

(** [strings.Repeat] *)
Fixpoint Repeat (s : string) (count : nat) : string :=
  match count with
  | 0 => EmptyString
  | S k => s ++ Repeat s k
  end.

(** [strings.Contains]: [sub] occurs in [s] as a run of consecutive bytes. *)
Fixpoint Contains (s sub : string) : bool :=
  String.prefix sub s ||
  match s with
  | EmptyString => false
  | String _ rest => Contains rest sub
  end.

(** Byte ranges of the UTF-8 decoder. *)
Definition in_range (lo hi : nat) (c : ascii) : bool :=
  (lo <=? nat_of_ascii c)%nat && (nat_of_ascii c <=? hi)%nat.

Definition is_cont (c : ascii) : bool := in_range 128 191 c.

(** Size in bytes of the encoding that starts at the head of [s], as
    [utf8.RuneCountInString] advances: a malformed or truncated sequence
    counts as one rune of one byte. *)
Definition rune_size (s : string) : nat :=
  match s with
  | EmptyString => 0
  | String c rest =>
      let n := nat_of_ascii c in
      if (n <? 128)%nat then 1
      else if (n <? 194)%nat then 1
      else if (n <? 224)%nat then
        match rest with
        | String c1 _ => if is_cont c1 then 2 else 1
        | _ => 1
        end
      else if (n <? 240)%nat then
        match rest with
        | String c1 (String c2 _) =>
            let lo := if (n =? 224)%nat then 160 else 128 in
            let hi := if (n =? 237)%nat then 159 else 191 in
            if in_range lo hi c1 then (if is_cont c2 then 3 else 1) else 1
        | _ => 1
        end
      else if (n <? 245)%nat then
        match rest with
        | String c1 (String c2 (String c3 _)) =>
            let lo := if (n =? 240)%nat then 144 else 128 in
            let hi := if (n =? 244)%nat then 143 else 191 in
            if in_range lo hi c1
            then (if is_cont c2 then (if is_cont c3 then 4 else 1) else 1)
            else 1
        | _ => 1
        end
      else 1
  end.

(** [utf8.RuneCountInString]; [skip] bytes belong to the rune counted last. *)
Fixpoint rune_count_from (skip : nat) (s : string) : nat :=
  match s with
  | EmptyString => 0
  | String _ rest =>
      match skip with
      | S k => rune_count_from k rest
      | 0 => S (rune_count_from (rune_size s - 1) rest)
      end
  end.

Definition RuneCountInString (s : string) : nat := rune_count_from 0 s.

(** The verb [%-<width>s]: the string, then blanks up to [width] runes. *)
Definition pad_right (width : nat) (s : string) : string :=
  s ++ Repeat " " (width - RuneCountInString s).

(** The verb [%d] on a non-negative count. *)
Definition decimal (z : Z) : string :=
  NilZero.string_of_int (Z.to_int z).

(** [s[:n]] and [s[len(s)-n:]] on byte strings, in range. *)
Definition slice_to (n : nat) (s : string) : string := substring 0 n s.
Definition slice_last (n : nat) (s : string) : string :=
  substring (String.length s - n) n s.

(** U+2022, the bullet of the masked preview, in UTF-8. *)
Definition bullet : string := byte_of 226 ++ byte_of 128 ++ byte_of 162.
Definition mask : string := Repeat bullet 4.

(* ===================================================================== *)
(** * Data model                                                          *)
(* ===================================================================== *)

(** A non-nil Go [error]; [Error] is its message. *)
Inductive error : Type := Errorf (msg : string).

Definition Error (e : error) : string := match e with Errorf msg => msg end.

Definition validator : Type := string → option error.

(** [type Requirement struct] *)
Record Requirement : Type := mkRequirement {
  Name : string;
  Source : string;
  Description : string;
  Optional : bool;
  Default : string;
  Validate : option validator;
  Sensitive : bool
}.

(** [type Result struct]: [Req] is the embedded [Requirement]. *)
Record Result : Type := mkResult {
  Req : Requirement;
  Present : bool;
  Value : string;
  Err : option error
}.

(** The package variables [reg], [cache], [frozen]. *)
Record State : Type := mkState {
  reg : gmap string Requirement;
  cache : gmap string Result;
  frozen : bool
}.

Definition init : State := mkState ∅ ∅ false.

(** The process environment, as [os.LookupEnv] sees it. *)
Definition Env : Type := string → option string.

(** [os.Getenv]: the empty string when unset. *)
Definition Getenv (env : Env) (name : string) : string :=
  match env name with
  | Some v => v
  | None => EmptyString
  end.

(** What an operation does besides changing [State]. A log line is kept
    without the time stamp the logger puts in front of it. The reads of
    the environment recorded are those of [Check]; [Report] takes its
    toggle from the environment it is given. *)
Inductive Event : Type :=
  | Log (msg : string)
  | Stderr (text : string)
  | LookupEnv (name : string)
  | CallValidate (name value : string).

Definition Trace : Type := list Event.

(* ===================================================================== *)
(** * The monad of registry operations                                    *)
(* ===================================================================== *)

Inductive Outcome (A : Type) : Type :=
  | Returned (a : A) (st : State) (tr : Trace)
  | Panicked (msg : string) (st : State) (tr : Trace)
  | Exited (code : Z) (st : State) (tr : Trace)
  | OutOfFuel.

Arguments Returned {A} a st tr.
Arguments Panicked {A} msg st tr.
Arguments Exited {A} code st tr.
Arguments OutOfFuel {A}.

Definition M (A : Type) : Type := State → Outcome A.

Definition ret {A} (a : A) : M A := fun st => Returned a st [].

Definition bind {A B} (m : M A) (k : A → M B) : M B := fun st =>
  match m st with
  | Returned a st1 tr1 =>
      match k a st1 with
      | Returned b st2 tr2 => Returned b st2 (tr1 ++ tr2)%list
      | Panicked msg st2 tr2 => Panicked msg st2 (tr1 ++ tr2)%list
      | Exited code st2 tr2 => Exited code st2 (tr1 ++ tr2)%list
      | OutOfFuel => OutOfFuel
      end
  | Panicked msg st1 tr1 => Panicked msg st1 tr1
  | Exited code st1 tr1 => Exited code st1 tr1
  | OutOfFuel => OutOfFuel
  end.

#[global] Instance M_ret : MRet M := @ret.
#[global] Instance M_bind : MBind M := fun A B k m => bind m k.

Definition emit (ev : Event) : M unit := fun st => Returned tt st [ev].
Definition panic {A} (msg : string) : M A := fun st => Panicked msg st [].
Definition exit {A} (code : Z) : M A := fun st => Exited code st [].

Definition load_frozen : M bool := fun st => Returned (frozen st) st [].
Definition store_frozen (b : bool) : M unit := fun st =>
  Returned tt (mkState (reg st) (cache st) b) [].
Definition reg_get (name : string) : M (option Requirement) := fun st =>
  Returned (reg st !! name) st [].
Definition reg_put (name : string) (r : Requirement) : M unit := fun st =>
  Returned tt (mkState (<[name := r]> (reg st)) (cache st) (frozen st)) [].
Definition cache_get (name : string) : M (option Result) := fun st =>
  Returned (cache st !! name) st [].
Definition cache_put (name : string) (res : Result) : M unit := fun st =>
  Returned tt (mkState (reg st) (<[name := res]> (cache st)) (frozen st)) [].

(** [os.LookupEnv], recorded in the trace. *)
Definition os_LookupEnv (env : Env) (name : string) : M (option string) :=
  emit (LookupEnv name);; mret (env name).

(** A call of a requirement's validator, recorded in the trace. *)
Definition call_validate (name : string) (f : validator) (v : string)
  : M (option error) :=
  emit (CallValidate name v);; mret (f v).

(** [for _, x := range xs { out = append(out, f(x)) }] *)
Fixpoint for_append {A B} (f : A → M B) (xs : list A) (out : list B)
  : M (list B) :=
  match xs with
  | [] => mret out
  | x :: rest => b ← f x; for_append f rest (out ++ [b])%list
  end.

(* ===================================================================== *)
(** * Report                                                              *)
(* ===================================================================== *)

(** One [Fprintf] of the row format: five padded columns and the details. *)
Definition row (c1 c2 c3 c4 c5 details : string) : string :=
  pad_right 20 c1 ++ " " ++ pad_right 12 c2 ++ " " ++ pad_right 8 c3 ++ " "
  ++ pad_right 9 c4 ++ " " ++ pad_right 8 c5 ++ " " ++ details ++ nl.

Definition report_header : string :=
  row "ENV" "SOURCE" "REQUIRED" "SENSITIVE" "STATUS" "DETAILS"
  ++ row (Repeat "-" 20) (Repeat "-" 12) (Repeat "-" 8) (Repeat "-" 9)
         (Repeat "-" 8) (Repeat "-" 20).

(** The status, the details column and the new count for one entry. *)
Definition classify (showValues : bool) (res : Result) (missing : Z)
  : string * string * Z :=
  let r := Req res in
  if negb (Present res) && negb (Optional r) then
    ("missing", Description r, (missing + 1)%Z)
  else
    match Err res with
    | Some e =>
        ("invalid", "Error: " ++ Error e,
         if negb (Optional r) then (missing + 1)%Z else missing)
    | None =>
        if showValues && Present res && negb (Sensitive r) then
          ("ok",
           if (20 <? String.length (Value res))%nat
           then Description r ++ " (value: " ++ slice_to 17 (Value res) ++ "...)"
           else Description r ++ " (value: " ++ Value res ++ ")",
           missing)
        else if showValues && Present res && Sensitive r then
          ("ok",
           if (4 <=? String.length (Value res))%nat
           then Description r ++ " (value: " ++ mask
                ++ slice_last 4 (Value res) ++ ")"
           else Description r ++ " (value: " ++ mask ++ ")",
           missing)
        else ("ok", Description r, missing)
    end.

(** The body of the loop over [results]: the row written and the count. *)
Definition report_entry (showValues : bool) (res : Result) (missing : Z)
  : string * Z :=
  let r := Req res in
  let required := if negb (Optional r) then "yes" else "no" in
  let sensitive := if Sensitive r then "yes" else "no" in
  let '(status, details, missing') := classify showValues res missing in
  (row (Name r) (Source r) required sensitive status details, missing').

Fixpoint report_loop (showValues : bool) (results : list Result)
    (out : string) (missing : Z) : string * Z :=
  match results with
  | [] => (out, missing)
  | res :: rest =>
      let '(line, missing') := report_entry showValues res missing in
      report_loop showValues rest (out ++ line) missing'
  end.

(** [Report]: everything written to [w], and the count returned. *)
Definition Report (env : Env) (results : list Result) : string * Z :=
  let showValues := String.eqb (Getenv env "ENVREQ_SHOW_VALUES") "1" in
  report_loop showValues results report_header 0%Z.

(* ===================================================================== *)
(** * Check, CheckAll, Value, MustValidate, Freeze, Reset                 *)
(* ===================================================================== *)

Definition is_empty (s : string) : bool := String.eqb s EmptyString.

Definition with_Optional (b : bool) (r : Requirement) : Requirement :=
  mkRequirement (Name r) (Source r) (Description r) b (Default r)
                (Validate r) (Sensitive r).
Definition with_Description (d : string) (r : Requirement) : Requirement :=
  mkRequirement (Name r) (Source r) d (Optional r) (Default r)
                (Validate r) (Sensitive r).
Definition with_Source (s : string) (r : Requirement) : Requirement :=
  mkRequirement (Name r) s (Description r) (Optional r) (Default r)
                (Validate r) (Sensitive r).
Definition with_Validate (f : option validator) (r : Requirement)
  : Requirement :=
  mkRequirement (Name r) (Source r) (Description r) (Optional r) (Default r)
                f (Sensitive r).
Definition with_Default (d : string) (r : Requirement) : Requirement :=
  mkRequirement (Name r) (Source r) (Description r) (Optional r) d
                (Validate r) (Sensitive r).
Definition with_Sensitive (b : bool) (r : Requirement) : Requirement :=
  mkRequirement (Name r) (Source r) (Description r) (Optional r) (Default r)
                (Validate r) b.

(** The merge of an incoming declaration [r] into the stored [existing]. *)
Definition merge (existing r : Requirement) : Requirement :=
  let merged := existing in
  let merged :=
    if negb (Optional existing) || negb (Optional r)
    then with_Optional false merged else merged in
  let merged :=
    if is_empty (Description merged) && negb (is_empty (Description r))
    then with_Description (Description r) merged else merged in
  let merged :=
    if is_empty (Source merged) && negb (is_empty (Source r))
    then with_Source (Source r) merged else merged in
  let merged :=
    match Validate merged, Validate r with
    | None, Some f => with_Validate (Some f) merged
    | _, _ => merged
    end in
  let merged :=
    if is_empty (Default merged) && negb (is_empty (Default r))
    then with_Default (Default r) merged else merged in
  let merged :=
    if Sensitive existing || Sensitive r
    then with_Sensitive true merged else merged in
  merged.

Definition late_optional_msg (r : Requirement) : string :=
  "⚠️  envreq: Optional environment variable registered after Freeze(): "
  ++ Name r ++ " (from " ++ Source r ++ ")".

Definition late_required_msg (r : Requirement) : string :=
  "🚨 envreq: REQUIRED environment variable registered after Freeze(): "
  ++ Name r ++ " (from " ++ Source r ++ ")".

Definition state_dump_msg : string :=
  "📋 envreq: Complete environment state at time of panic:".

Definition late_required_panic (r : Requirement) : string :=
  "envreq: REQUIRED environment variable '" ++ Name r
  ++ "' registered after Freeze() (from: " ++ Source r ++ ")" ++ nl
  ++ "All required environment variables must be registered before Freeze()."
  ++ nl ++ "Move this Check() call earlier in initialization.".

(** The required branch of the gate: two log lines, the report of
    [CheckAll] on stderr, then the panic. [checkAll] is the call of
    [CheckAll]; the writes of [Report] to stderr are kept as one text. *)
Definition late_required_dump {A} (checkAll : M (list Result)) (env : Env)
    (r : Requirement) : M A :=
  emit (Log (late_required_msg r));;
  emit (Log state_dump_msg);;
  results ← checkAll;
  emit (Stderr (Report env results).1);;
  panic (late_required_panic r).

(** The first block of [Check]: what a frozen registry does with a name it
    has not seen. *)
Definition freeze_gate (checkAll : M (list Result)) (env : Env)
    (r : Requirement) : M unit :=
  fr ← load_frozen;
  if fr : bool then
    existing ← reg_get (Name r);
    match existing with
    | Some _ => mret tt
    | None =>
        if Optional r then emit (Log (late_optional_msg r))
        else late_required_dump checkAll env r
    end
  else mret tt.

(** The second block, under the write lock: merge into the registry. The
    result is the value of the variable [r] afterwards. *)
Definition register (r : Requirement) : M Requirement :=
  found ← reg_get (Name r);
  match found with
  | Some existing =>
      let merged := merge existing r in
      reg_put (Name r) merged;; mret merged
  | None => reg_put (Name r) r;; mret r
  end.

(** [os.LookupEnv], then the default when the variable is unset and the
    default is not empty: the pair [(val, ok)]. *)
Definition lookup_or_default (env : Env) (r : Requirement)
  : M (string * bool) :=
  looked ← os_LookupEnv env (Name r);
  let '(val, ok) :=
    match looked with
    | Some v => (v, true)
    | None => (EmptyString, false)
    end in
  mret (if negb ok && negb (is_empty (Default r))
        then (Default r, true) else (val, ok)).

(** The validator runs only on a value that is present. *)
Definition validate_if_present (r : Requirement) (v : string * bool)
  : M (option error) :=
  match v.2, Validate r with
  | true, Some f => call_validate (Name r) f v.1
  | _, _ => mret None
  end.

(** The third block of [Check]: the cached Result, or load, validate and
    cache. *)
Definition resolve (env : Env) (r : Requirement) : M Result :=
  hit ← cache_get (Name r);
  match hit with
  | Some cached => mret cached
  | None =>
      v ← lookup_or_default env r;
      verr ← validate_if_present r v;
      let res := mkResult r v.2 v.1 verr in
      cache_put (Name r) res;;
      mret res
  end.

(** [Check] after the gate. *)
Definition proceed (env : Env) (r : Requirement) : M Result :=
  r' ← register r;
  resolve env r'.

(** The names of [reg] in the order of one iteration over the map, split
    into the Results already cached and the requirements not yet loaded.
    Go leaves the order of the iteration open; [map_to_list] is one such
    order. *)
Definition snapshot_split (st : State) : list Result * list Requirement :=
  foldl (fun acc entry =>
           match cache st !! entry.1 with
           | Some res => ((acc.1 ++ [res])%list, acc.2)
           | None => (acc.1, (acc.2 ++ [entry.2])%list)
           end)
        ([], []) (map_to_list (reg st)).

Definition name_ltb (a b : Result) : bool :=
  String.ltb (Name (Req a)) (Name (Req b)).

Fixpoint insert_by_name (x : Result) (l : list Result) : list Result :=
  match l with
  | [] => [x]
  | y :: rest =>
      if name_ltb y x then y :: insert_by_name x rest else x :: l
  end.

(** [sort.Slice] by [Name]. The names of a snapshot are the keys of a
    map, hence distinct, and the sorted slice is the same for every
    sorting algorithm. *)
Definition sort_by_name (l : list Result) : list Result :=
  foldr insert_by_name [] l.

(** [CheckAll], with the function it calls on the unloaded requirements. *)
Definition CheckAll_with (check : Requirement → M Result)
  : M (list Result) :=
  parts ← (fun st => Returned (snapshot_split st) st []);
  out ← for_append check parts.2 parts.1;
  mret (sort_by_name out).

(** [Check] calls [CheckAll] before it panics and [CheckAll] calls [Check]:
    [fuel] bounds the depth of that recursion. *)
Fixpoint Check (fuel : nat) (env : Env) (r : Requirement) {struct fuel}
  : M Result :=
  match fuel with
  | 0 => fun _ => OutOfFuel
  | S fuel' =>
      freeze_gate (CheckAll_with (Check fuel' env)) env r;;
      proceed env r
  end.

Definition CheckAll (fuel : nat) (env : Env) : M (list Result) :=
  CheckAll_with (Check fuel env).

(** [Value]: the cached value by name; the empty string and false when the
    name is not cached. (Named after the spec, as [Value] is the field.) *)
Definition ValueLookup (name : string) (st : State) : string * bool :=
  match cache st !! name with
  | Some res => (Value res, Present res)
  | None => (EmptyString, false)
  end.

Definition exit_msg (missing : Z) : string :=
  nl ++ decimal missing
  ++ " required environment variable(s) missing or invalid" ++ nl.

Definition MustValidate (fuel : nat) (env : Env) : M unit :=
  results ← CheckAll fuel env;
  let report := Report env results in
  emit (Stderr report.1);;
  if (0 <? report.2)%Z
  then emit (Stderr (exit_msg report.2));; exit 2%Z
  else mret tt.

Definition Freeze : M unit :=
  store_frozen true;;
  emit (Log "envreq: Registry frozen - new required registrations will panic").

Definition Reset : M unit := fun _ => Returned tt init [].

(* ===================================================================== *)
(** * The Port validator                                                  *)
(* ===================================================================== *)

Definition is_digit (c : ascii) : bool := in_range 48 57 c.

(** The loop over the runes of [v]: a rune outside '0'..'9' is a byte
    outside it, since every byte of a longer encoding (and of a malformed
    one, read as U+FFFD) is above '9'. *)
Fixpoint all_digits (v : string) : bool :=
  match v with
  | EmptyString => true
  | String c rest => is_digit c && all_digits rest
  end.

Definition range_error : error := Errorf "port must be between 1 and 65535".

Definition Port (v : string) : option error :=
  if is_empty v then Some (Errorf "port cannot be empty")
  else if (String.length v =? 0)%nat || (5 <? String.length v)%nat
  then Some (Errorf "invalid port number")
  else if negb (all_digits v) then Some (Errorf "port must be numeric")
  else if String.eqb v "0"
          || ((String.length v =? 5)%nat && String.ltb "65535" v)
  then Some range_error
  else None.

(* ===================================================================== *)
(** * Sequences of calls                                                  *)
(* ===================================================================== *)

(** One call of the package's API, and what it answers. *)
Inductive Op : Type :=
  | OpCheck (r : Requirement)
  | OpCheckAll
  | OpValue (name : string)
  | OpReport (results : list Result)
  | OpMustValidate
  | OpFreeze
  | OpReset.

Inductive Answer : Type :=
  | AResult (res : Result)
  | AResults (results : list Result)
  | AValue (v : string * bool)
  | AReport (out : string * Z)
  | ADone.

(** A call made while the process environment is [env]. *)
Definition run_op (fuel : nat) (env : Env) (op : Op) : M Answer :=
  match op with
  | OpCheck r => res ← Check fuel env r; mret (AResult res)
  | OpCheckAll => results ← CheckAll fuel env; mret (AResults results)
  | OpValue name => fun st => Returned (AValue (ValueLookup name st)) st []
  | OpReport results => mret (AReport (Report env results))
  | OpMustValidate => MustValidate fuel env;; mret ADone
  | OpFreeze => Freeze;; mret ADone
  | OpReset => Reset;; mret ADone
  end.

(** Calls one after the other; the first that does not return ends it. *)
Fixpoint run_ops (fuel : nat) (calls : list (Env * Op)) : M unit :=
  match calls with
  | [] => mret tt
  | (env, op) :: rest => run_op fuel env op;; run_ops fuel rest
  end.

(** Declarations by Check, one after the other, each in its environment. *)
Definition declare_each (fuel : nat) (decls : list (Env * Requirement))
  : M unit :=
  run_ops fuel (map (fun d => (d.1, OpCheck d.2)) decls).

(** The registry an outcome leaves behind: also after a panic, which a
    caller may recover from, as the package's own test of Freeze does. *)
Definition state_after {A} (o : Outcome A) : option State :=
  match o with
  | Returned _ st _ | Panicked _ st _ | Exited _ st _ => Some st
  | OutOfFuel => None
  end.

Definition trace_of {A} (o : Outcome A) : Trace :=
  match o with
  | Returned _ _ tr | Panicked _ _ tr | Exited _ _ tr => tr
  | OutOfFuel => []
  end.

(** The outcome [o] after the events [tr0]. *)
Definition prepend {A} (tr0 : Trace) (o : Outcome A) : Outcome A :=
  match o with
  | Returned a st tr => Returned a st (tr0 ++ tr)%list
  | Panicked msg st tr => Panicked msg st (tr0 ++ tr)%list
  | Exited code st tr => Exited code st (tr0 ++ tr)%list
  | OutOfFuel => OutOfFuel
  end.

(** States the package can be in: from the initial one by calls. *)
Inductive reachable : State → Prop :=
  | reachable_init : reachable init
  | reachable_call st fuel env op st' :
      reachable st →
      state_after (run_op fuel env op st) = Some st' →
      reachable st'.

(** From [st] to [st'] by calls other than Reset. *)
Inductive evolves : State → State → Prop :=
  | evolves_refl st : evolves st st
  | evolves_call st st1 fuel env op st2 :
      evolves st st1 →
      (match op with OpReset => False | _ => True end) →
      state_after (run_op fuel env op st1) = Some st2 →
      evolves st st2.

Definition is_reset (op : Op) : bool :=
  match op with OpReset => true | _ => false end.

(** The invariant of the two maps: every entry sits under its own name and
    every cached name is registered. *)
Definition wf (st : State) : Prop :=
  map_Forall (fun k r => Name r = k) (reg st) ∧
  map_Forall (fun k res => Name (Req res) = k ∧ is_Some (reg st !! k))
             (cache st).

(** [N] is resolved to [res] in a well-formed registry. *)
Definition settled (N : string) (res : Result) (st : State) : Prop :=
  wf st ∧ cache st !! N = Some res.

(** A cached Result that is not present has the empty value. *)
Definition absent_is_empty (st : State) : Prop :=
  map_Forall (fun _ res => Present res = false → Value res = EmptyString)
             (cache st).

(** An invariant of the registry kept by an operation, however it ends. *)
Definition preserves {A} (P : State → Prop) (m : M A) : Prop :=
  ∀ st, P st →
    match state_after (m st) with
    | Some st' => P st'
    | None => True
    end.

(* ===================================================================== *)
(** * What the blocks of Check compute, as functions of the state         *)
(* ===================================================================== *)

(** The definitions of this section are not taken from the code: they say
    in closed form what its blocks do, and the lemmas [proceed_eq],
    [gate_passes], [gate_blocks_dump], [merge_fields] and
    [report_loop_count] below prove that the code computes them. The
    statements about the package are written with them. *)

(** The gate stops a required declaration of a new name when frozen. *)
Definition gate_blocks (st : State) (r : Requirement) : bool :=
  frozen st && negb (bool_decide (is_Some (reg st !! Name r)))
  && negb (Optional r).

(** The log line of the gate when it lets a late optional name pass. *)
Definition gate_trace (st : State) (r : Requirement) : Trace :=
  if frozen st && negb (bool_decide (is_Some (reg st !! Name r)))
     && Optional r
  then [Log (late_optional_msg r)] else [].

(** The canonical requirement after [r] is declared in [st]. *)
Definition canonical (st : State) (r : Requirement) : Requirement :=
  match reg st !! Name r with
  | Some existing => merge existing r
  | None => r
  end.

(** First resolution of the requirement [R]: value, presence, error. *)
Definition loaded_value (env : Env) (R : Requirement) : string * bool :=
  match env (Name R) with
  | Some v => (v, true)
  | None => if is_empty (Default R) then (EmptyString, false)
            else (Default R, true)
  end.

Definition loaded (env : Env) (R : Requirement) : Result :=
  let v := loaded_value env R in
  mkResult R v.2 v.1
    (match v.2, Validate R with
     | true, Some f => f v.1
     | _, _ => None
     end).

Definition load_trace (env : Env) (R : Requirement) : Trace :=
  LookupEnv (Name R) ::
  match (loaded_value env R).2, Validate R with
  | true, Some _ => [CallValidate (Name R) (loaded_value env R).1]
  | _, _ => []
  end.

Definition set_reg (m : gmap string Requirement) (st : State) : State :=
  mkState m (cache st) (frozen st).
Definition set_cache (m : gmap string Result) (st : State) : State :=
  mkState (reg st) m (frozen st).

(** The entries counted by Report. *)
Definition failing (res : Result) : bool :=
  negb (Optional (Req res))
  && (negb (Present res) || bool_decide (is_Some (Err res))).

Definition count_failing (results : list Result) : Z :=
  Z.of_nat (length (List.filter failing results)).

(** First-writer-wins over the declarations of one name. *)
Fixpoint first_nonempty (l : list string) : string :=
  match l with
  | [] => EmptyString
  | s :: rest => if is_empty s then first_nonempty rest else s
  end.

Fixpoint first_some {A} (l : list (option A)) : option A :=
  match l with
  | [] => None
  | Some a :: _ => Some a
  | None :: rest => first_some rest
  end.

(** The value of a string of decimal digits, most significant first. *)
Definition digit_value (c : ascii) : Z := Z.of_nat (nat_of_ascii c) - 48.

Fixpoint decimal_value_from (acc : Z) (s : string) : Z :=
  match s with
  | EmptyString => acc
  | String c rest => decimal_value_from (10 * acc + digit_value c) rest
  end.

Definition decimal_value (s : string) : Z := decimal_value_from 0 s.

(* ===================================================================== *)
(** * Concurrent callers of Check                                         *)
(* ===================================================================== *)

(** A goroutine inside [Check], between two of its steps. The shared maps
    are touched only while [mu] is held and [frozen] is atomic, so a run
    of several callers is an interleaving of these steps:
    the load of [frozen]; the lookup under the read lock; the merge under
    the write lock; the cache lookup under the read lock; the environment
    read; the validator call; the store under the write lock.

    The dump before the panic is not one step: [CheckAll] takes its
    snapshot under the read lock, releases it, and then calls [Check] on
    each requirement that was not cached, and each of these calls takes
    the steps above. [AtDumpCheck r out todo inner] is the caller of
    [Check r] inside the loop of [CheckAll]: [out] is the slice so far,
    [inner] the call of [Check] that is running, [todo] the requirements
    still to check. [AtDumpReport r results] has left [CheckAll] with
    [results] and is about to write the report and panic. *)
Inductive Caller : Type :=
  | AtGate (r : Requirement)
  | AtGateLookup (r : Requirement)
  | AtDump (r : Requirement)
  | AtDumpCheck (r : Requirement) (out : list Result)
                (todo : list Requirement) (inner : Caller)
  | AtDumpReport (r : Requirement) (results : list Result)
  | AtMerge (r : Requirement)
  | AtCacheCheck (r : Requirement)
  | AtLookupEnv (r : Requirement)
  | AtValidate (r : Requirement) (v : string * bool)
  | AtStore (res : Result)
  | Done (res : Result).

(** The loop of [CheckAll] between two calls of [Check]: the next
    requirement, or the sort and the return when none is left. *)
Definition dump_next (r : Requirement) (out : list Result)
    (todo : list Requirement) : Caller :=
  match todo with
  | [] => AtDumpReport r (sort_by_name out)
  | req :: rest => AtDumpCheck r out rest (AtGate req)
  end.

Fixpoint caller_step (env : Env) (c : Caller) {struct c} : M Caller :=
  match c with
  | AtGate r =>
      fr ← load_frozen;
      mret (if fr : bool then AtGateLookup r else AtMerge r)
  | AtGateLookup r =>
      existing ← reg_get (Name r);
      match existing with
      | Some _ => mret (AtMerge r)
      | None =>
          if Optional r
          then emit (Log (late_optional_msg r));; mret (AtMerge r)
          else mret (AtDump r)
      end
  | AtDump r =>
      emit (Log (late_required_msg r));;
      emit (Log state_dump_msg);;
      parts ← ((fun st => Returned (snapshot_split st) st [])
               : M (list Result * list Requirement));
      mret (dump_next r parts.1 parts.2)
  | AtDumpCheck r out todo inner =>
      inner' ← caller_step env inner;
      mret (match inner' with
            | Done res => dump_next r (out ++ [res])%list todo
            | _ => AtDumpCheck r out todo inner'
            end)
  | AtDumpReport r results =>
      emit (Stderr (Report env results).1);;
      panic (late_required_panic r)
  | AtMerge r => r' ← register r; mret (AtCacheCheck r')
  | AtCacheCheck r =>
      hit ← cache_get (Name r);
      match hit with
      | Some cached => mret (Done cached)
      | None => mret (AtLookupEnv r)
      end
  | AtLookupEnv r => v ← lookup_or_default env r; mret (AtValidate r v)
  | AtValidate r v =>
      verr ← validate_if_present r v;
      mret (AtStore (mkResult r v.2 v.1 verr))
  | AtStore res => cache_put (Name (Req res)) res;; mret (Done res)
  | Done res => mret (Done res)
  end.

(** One step of caller number [i]; a panic of any caller ends the run. *)
Definition sched_step (env : Env) (i : nat) (cs : list Caller)
  : M (list Caller) :=
  match cs !! i with
  | Some c => c' ← caller_step env c; mret (<[i := c']> cs)
  | None => mret cs
  end.

(** A schedule names the caller that moves next. *)
Fixpoint run_schedule (env : Env) (sched : list nat) (cs : list Caller)
  : M (list Caller) :=
  match sched with
  | [] => mret cs
  | i :: rest => cs' ← sched_step env i cs; run_schedule env rest cs'
  end.

(** [n] steps of one caller with no other caller in between. *)
Fixpoint caller_run (n : nat) (env : Env) (c : Caller) : M Caller :=
  match n with
  | 0 => mret c
  | S k => c' ← caller_step env c; caller_run k env c'
  end.

(** A caller that passes the gate is done after seven steps at most. *)
Definition steps_of_Check : nat := 7.

(** The schedule without overlap: caller 0 to its end, then caller 1, ... *)
Fixpoint serial_from (i n : nat) : list nat :=
  match n with
  | 0 => []
  | S k => (replicate steps_of_Check i ++ serial_from (S i) k)%list
  end.

Definition serial (n : nat) : list nat := serial_from 0 n.

Definition is_lookup (name : string) (ev : Event) : bool :=
  match ev with
  | LookupEnv n => String.eqb n name
  | _ => false
  end.

Definition is_validate (name : string) (ev : Event) : bool :=
  match ev with
  | CallValidate n _ => String.eqb n name
  | _ => false
  end.

(** Environment reads and validator calls for [name] in a trace. *)
Definition lookups (name : string) (tr : list Event) : nat :=
  length (List.filter (is_lookup name) tr).
Definition validations (name : string) (tr : list Event) : nat :=
  length (List.filter (is_validate name) tr).

(* ===================================================================== *)
(** * Concrete registries, after the package's tests                      *)
(* ===================================================================== *)

(** The environment of the tests: three variables set, one of them to the
    empty string, the others unset. *)
Definition test_env : Env := fun name =>
  if String.eqb name "PRESENT_VAR" then Some "value"
  else if String.eqb name "INVALID_VAR" then Some "not-a-url"
  else if String.eqb name "TEST_SECRET" then Some "sk_test_1234567890"
  else if String.eqb name "EMPTY_VAR" then Some EmptyString
  else None.

Definition show_values_env : Env := fun name =>
  if String.eqb name "ENVREQ_SHOW_VALUES" then Some "1" else test_env name.

(** A required variable with no other metadata than its source. *)
Definition required (name : string) : Requirement :=
  mkRequirement name "test" EmptyString false EmptyString None false.

Definition optional (name : string) : Requirement :=
  mkRequirement name "test" EmptyString true EmptyString None false.

(** A validator that accepts nothing, with the message of [URL]. *)
Definition no_scheme : validator := fun _ =>
  Some (Errorf "URL must have a scheme (http/https)").

Definition present_var : Requirement :=
  with_Description "A present variable" (required "PRESENT_VAR").
Definition missing_var : Requirement :=
  with_Description "A missing required variable" (required "MISSING_VAR").
Definition invalid_var : Requirement :=
  with_Validate (Some no_scheme)
    (with_Description "Invalid URL" (required "INVALID_VAR")).

(** The registry an operation leaves, [init] if it leaves none. *)
Definition state_of {A} (o : Outcome A) : State :=
  match state_after o with
  | Some st => st
  | None => init
  end.

(** After the first declaration of the tests. *)
Definition one_checked : State :=
  state_of (Check 1 test_env present_var init).

(** A later, conflicting declaration of the same name: optional, with a
    default and a validator that rejects everything. *)
Definition present_var_again : Requirement :=
  mkRequirement "PRESENT_VAR" "other" "Declared again" true "fallback"
                (Some no_scheme) true.

(** [one_checked] after that declaration and a Freeze. *)
Definition one_checked_later : State :=
  state_of (Freeze (state_of (Check 1 test_env present_var_again one_checked))).

(** The declaration of the spec's example of a default: optional, with
    the default 8080 and the Port validator. *)
Definition port_default : Requirement :=
  mkRequirement "PORT" "server" EmptyString true "8080" (Some Port) false.

(** [one_checked], frozen. *)
Definition one_frozen : State := state_of (Freeze one_checked).

(** The registry of the package's test of Report: three declarations. *)
Definition three_checked : State :=
  state_of (run_ops 1 [(test_env, OpCheck present_var);
                       (test_env, OpCheck missing_var);
                       (test_env, OpCheck invalid_var)] init).

(** The Results of the three, in the order of their declarations. *)
Definition three_results : list Result :=
  [loaded test_env present_var; loaded test_env missing_var;
   loaded test_env invalid_var].

(** [three_checked] after a variable set to the empty string is declared. *)
Definition empty_checked : State :=
  state_of (Check 1 test_env (required "EMPTY_VAR") three_checked).

(** A validator whose error names the value it rejects, as the errors of
    the standard parsers behind the Duration and URL validators do. *)
Definition key_format : validator := fun v =>
  Some (Errorf ("unsupported key format: " ++ v)).

(** The secret of the tests, declared sensitive with that validator. *)
Definition secret_var : Requirement :=
  mkRequirement "TEST_SECRET" "payments" "API secret key" false EmptyString
                (Some key_format) true.

Definition secret_value : string := "sk_test_1234567890".

(** What CheckAll returns once the secret is declared. *)
Definition secret_results : list Result :=
  match (Check 1 test_env secret_var;; CheckAll 1 test_env) init with
  | Returned results _ _ => results
  | _ => []
  end.

(** Two callers that overlap: each misses the cache before the other has
    stored its Result. *)
Definition overlap : list nat := [0; 0; 0; 1; 1; 1; 0; 0; 0; 0; 1; 1; 1; 1].





(** Three callers once PRESENT_VAR is cached: two of them declare it
    again, one declares another name. *)
Definition three_callers : list Requirement :=
  [present_var_again; missing_var; present_var].

(** The three take turns, one step each. *)
Definition round_robin : list nat :=
  [0; 1; 2; 0; 1; 2; 0; 1; 2; 0; 1; 2; 0; 1; 2; 0; 1; 2].

(** On a frozen registry, a late required declaration and a late optional
    one. *)
Definition late_callers : list Requirement :=
  [required "LATE"; optional "OPT"].

(** The first caller takes the snapshot of its dump, the second merges its
    declaration, the first writes its report and panics. *)
Definition dump_overlap : list nat := [0; 0; 0; 1; 1; 1; 0].

(* ===================================================================== *)
(** * The validators OneOf and Base64                                     *)
(* ===================================================================== *)

(** [strings.Join] *)
Fixpoint Join (elems : list string) (sep : string) : string :=
  match elems with
  | [] => EmptyString
  | [e] => e
  | e :: rest => e ++ sep ++ Join rest sep
  end.

(** The loop of the validator that [OneOf] returns: whether some option
    equals [v]. *)
Fixpoint one_of_loop (v : string) (options : list string) : bool :=
  match options with
  | [] => false
  | option :: rest => if String.eqb v option then true else one_of_loop v rest
  end.

(** [OneOf(options...)] *)
Definition OneOf (options : list string) : validator := fun v =>
  if one_of_loop v options then None
  else Some (Errorf ("must be one of: " ++ Join options ", ")).

(** The characters that [Base64] lets pass. *)
Definition is_base64_char (c : ascii) : bool :=
  in_range 65 90 c || in_range 97 122 c || in_range 48 57 c
  || (nat_of_ascii c =? 43)%nat || (nat_of_ascii c =? 47)%nat
  || (nat_of_ascii c =? 61)%nat.

(** The loop over the runes of [v], on its bytes: a rune that is not one
    byte is above every character allowed. *)
Fixpoint all_base64 (v : string) : bool :=
  match v with
  | EmptyString => true
  | String c rest => is_base64_char c && all_base64 rest
  end.

(** [strings.Count(v, sep)] for a separator of one byte. *)
Fixpoint Count (v : string) (sep : ascii) : nat :=
  match v with
  | EmptyString => 0
  | String c rest => (if Ascii.eqb c sep then 1 else 0) + Count rest sep
  end.

Definition Base64 (v : string) : option error :=
  if is_empty v then Some (Errorf "base64 value cannot be empty")
  else if negb (all_base64 v) then Some (Errorf "invalid base64 character")
  else if (2 <? Count v "=")%nat then Some (Errorf "invalid base64 padding")
  else None.

(* ===================================================================== *)
(** * Notions used to state what the registry keeps                       *)
(* ===================================================================== *)

(** On a string of digits, what Port rejects. *)
Definition port_out_of_range (v : string) : bool :=
  is_empty v || (5 <? String.length v)%nat || String.eqb v "0"
  || ((String.length v =? 5)%nat && String.ltb "65535" v).

(** [R'] is [R] with further declarations merged into it: the same name,
    no flag relaxed, no metadata that was set changed. *)
Definition extends (R R' : Requirement) : Prop :=
  Name R' = Name R
  ∧ (Optional R' = true → Optional R = true)
  ∧ (Sensitive R = true → Sensitive R' = true)
  ∧ (Description R ≠ EmptyString → Description R' = Description R)
  ∧ (Source R ≠ EmptyString → Source R' = Source R)
  ∧ (Default R ≠ EmptyString → Default R' = Default R)
  ∧ (∀ f, Validate R = Some f → Validate R' = Some f).

(** From [st0] to [st] nothing was taken back: a frozen registry is still
    frozen, every requirement is there and extended, every cached Result
    is unchanged. *)
Definition grows (st0 st : State) : Prop :=
  (frozen st0 = true → frozen st = true)
  ∧ (∀ N R, reg st0 !! N = Some R →
            ∃ R', reg st !! N = Some R' ∧ extends R R')
  ∧ (∀ N res, cache st0 !! N = Some res → cache st !! N = Some res).

(** The error of a Result is the verdict of its own validator on its own
    value, and a Result that is not present has no value. *)
Definition coherent (res : Result) : Prop :=
  Err res = match Present res, Validate (Req res) with
            | true, Some f => f (Value res)
            | _, _ => None
            end
  ∧ (Present res = false → Value res = EmptyString).

(** The toggle of Report. *)
Definition show_values (env : Env) : bool :=
  String.eqb (Getenv env "ENVREQ_SHOW_VALUES") "1".

Definition with_Value (v : string) (res : Result) : Result :=
  mkResult (Req res) (Present res) v (Err res).

(** A Result with what Report may show of its value: nothing when the
    toggle is off; with the toggle on, of a sensitive value its last four
    bytes, or nothing when it is shorter. *)
Definition redact (show : bool) (res : Result) : Result :=
  if show then
    if Sensitive (Req res)
    then with_Value (if (4 <=? String.length (Value res))%nat
                     then slice_last 4 (Value res) else EmptyString) res
    else res
  else with_Value EmptyString res.

(** A caller past the merge holds a requirement whose name is in the
    registry; inside the dump, that is said of the call of [Check] that is
    running. *)
Fixpoint caller_ok (st : State) (c : Caller) : Prop :=
  match c with
  | AtCacheCheck r | AtLookupEnv r | AtValidate r _ =>
      is_Some (reg st !! Name r)
  | AtStore res => is_Some (reg st !! Name (Req res))
  | AtDumpCheck _ _ _ inner => caller_ok st inner
  | _ => True
  end.

(** A caller that is not between a cache miss for [N] and its store. *)
Fixpoint not_loading (N : string) (c : Caller) : Prop :=
  match c with
  | AtLookupEnv r | AtValidate r _ => Name r ≠ N
  | AtStore res => Name (Req res) ≠ N
  | AtDumpCheck _ _ _ inner => not_loading N inner
  | _ => True
  end.

(** A caller of the declaration [r]: when [r] names [N], the caller still
    holds a requirement of that name, or has returned [res]. *)
Definition returns_cached (N : string) (res : Result) (r : Requirement)
    (c : Caller) : Prop :=
  Name r = N →
  match c with
  | AtGate r' | AtGateLookup r' | AtMerge r' | AtCacheCheck r' => Name r' = N
  | AtDump _ | AtDumpCheck _ _ _ _ | AtDumpReport _ _ => True
  | AtLookupEnv _ | AtValidate _ _ | AtStore _ => False
  | Done res' => res' = res
  end.

(** Whether a caller is in the dump of a late required declaration, which
    ends in a panic. *)
Definition dumping (c : Caller) : bool :=
  match c with
  | AtDump _ | AtDumpCheck _ _ _ _ | AtDumpReport _ _ => true
  | _ => false
  end.

(** Whether a caller has merged its declaration into the registry. *)
Definition merged (c : Caller) : bool :=
  match c with
  | AtCacheCheck _ | AtLookupEnv _ | AtValidate _ _ | AtStore _ | Done _ =>
      true
  | _ => false
  end.

(** A caller that has not merged yet still holds the declaration [r] it
    was called with. *)
Definition holds (r : Requirement) (c : Caller) : Prop :=
  match c with
  | AtGate r' | AtGateLookup r' | AtDump r' | AtMerge r' => r' = r
  | _ => True
  end.

(** The flags of the entry of [N] are those of the declarations merged so
    far by the callers [cs] of the declarations [rs]. *)
Definition flags_follow (N : string) (rs : list Requirement)
    (cs : list Caller) (st : State) : Prop :=
  match reg st !! N with
  | None => ∀ i c, cs !! i = Some c → merged c = false
  | Some R =>
      (Optional R = true ↔
       ∀ i r c, rs !! i = Some r → cs !! i = Some c → merged c = true →
                Optional r = true)
      ∧ (Sensitive R = true ↔
         ∃ i r c, rs !! i = Some r ∧ cs !! i = Some c ∧ merged c = true
                  ∧ Sensitive r = true)
  end.

(* ===================================================================== *)
(** * Equations of the blocks of Check                                    *)
(* ===================================================================== *)

Ltac unfold_M :=
  unfold mbind, M_bind, bind, mret, M_ret, ret, emit, panic, exit,
    load_frozen, store_frozen, reg_get, reg_put, cache_get, cache_put,
    os_LookupEnv, call_validate in *.

Lemma bind_Returned {A B} (m : M A) (k : A → M B) st a st1 tr1 :
  m st = Returned a st1 tr1 →
  (m ≫= k) st =
    prepend tr1 (k a st1).
Proof. intros H. unfold mbind, M_bind, bind, prepend. rewrite H. reflexivity. Qed.

Lemma lookup_or_default_eq env r st :
  lookup_or_default env r st
  = Returned (loaded_value env r) st [LookupEnv (Name r)].
Proof.
  unfold lookup_or_default, loaded_value. unfold_M. simpl.
  destruct (env (Name r)); simpl; [reflexivity|].
  destruct (is_empty (Default r)); reflexivity.
Qed.

Lemma validate_if_present_eq r v st :
  validate_if_present r v st
  = Returned (match v.2, Validate r with
              | true, Some f => f v.1
              | _, _ => None
              end) st
             (match v.2, Validate r with
              | true, Some _ => [CallValidate (Name r) v.1]
              | _, _ => []
              end).
Proof.
  unfold validate_if_present. unfold_M.
  destruct v.2, (Validate r); reflexivity.
Qed.

Lemma register_eq r st :
  register r st
  = Returned (canonical st r)
             (set_reg (<[Name r := canonical st r]> (reg st)) st) [].
Proof.
  unfold register, canonical. unfold_M. simpl.
  destruct (reg st !! Name r); reflexivity.
Qed.

Lemma resolve_eq env R st :
  resolve env R st =
    match cache st !! Name R with
    | Some cached => Returned cached st []
    | None =>
        Returned (loaded env R)
                 (set_cache (<[Name R := loaded env R]> (cache st)) st)
                 (load_trace env R)
    end.
Proof.
  unfold resolve.
  rewrite (bind_Returned _ _ st (cache st !! Name R) st []) by reflexivity.
  destruct (cache st !! Name R) as [cached|]; [reflexivity|]. simpl.
  rewrite (bind_Returned _ _ _ _ _ _ (lookup_or_default_eq env R st)).
  rewrite (bind_Returned _ _ _ _ _ _ (validate_if_present_eq R _ st)).
  unfold loaded, load_trace, prepend. unfold_M. simpl.
  destruct (loaded_value env R).2, (Validate R); reflexivity.
Qed.

Lemma proceed_eq env r st :
  proceed env r st =
    let R := canonical st r in
    let st1 := set_reg (<[Name r := R]> (reg st)) st in
    match cache st !! Name R with
    | Some cached => Returned cached st1 []
    | None =>
        Returned (loaded env R)
                 (set_cache (<[Name R := loaded env R]> (cache st)) st1)
                 (load_trace env R)
    end.
Proof.
  unfold proceed.
  rewrite (bind_Returned _ _ _ _ _ _ (register_eq r st)).
  rewrite resolve_eq. simpl.
  destruct (cache st !! Name (canonical st r)); reflexivity.
Qed.

Lemma gate_blocks_dump fuel env r st :
  gate_blocks st r = true →
  Check (S fuel) env r st = late_required_dump (CheckAll fuel env) env r st.
Proof.
  unfold gate_blocks. intros H.
  apply andb_true_iff in H as [H Hopt]. apply andb_true_iff in H as [Hfr Hreg].
  apply negb_true_iff in Hopt. apply negb_true_iff in Hreg.
  apply bool_decide_eq_false in Hreg.
  assert (reg st !! Name r = None) as Hnone.
  { destruct (reg st !! Name r) eqn:E; [exfalso; apply Hreg; eauto | done]. }
  simpl. unfold freeze_gate, CheckAll.
  unfold mbind at 1, M_bind at 1, bind at 1.
  unfold mbind at 1, M_bind at 1, bind at 1.
  unfold load_frozen at 1. rewrite Hfr.
  unfold mbind at 1, M_bind at 1, bind at 1. unfold reg_get at 1.
  rewrite Hnone, Hopt.
  unfold late_required_dump. unfold_M. simpl.
  destruct (CheckAll_with (Check fuel env) st); try reflexivity.
Qed.

Lemma gate_passes fuel env r st :
  gate_blocks st r = false →
  Check (S fuel) env r st =
    prepend (gate_trace st r) (proceed env r st).
Proof.
  unfold gate_blocks, gate_trace. intros H.
  simpl. unfold freeze_gate.
  unfold mbind at 1, M_bind at 1, bind at 1.
  unfold mbind at 1, M_bind at 1, bind at 1.
  unfold load_frozen at 1.
  destruct (frozen st) eqn:Hfr; simpl in *.
  - unfold mbind at 1, M_bind at 1, bind at 1. unfold reg_get at 1.
    destruct (reg st !! Name r) as [e|] eqn:Hreg.
    + rewrite bool_decide_eq_true_2 by eauto. simpl.
      destruct (proceed env r st); reflexivity.
    + rewrite bool_decide_eq_false_2 in * by (intros [? ?]; congruence).
      simpl in *. apply negb_false_iff in H. rewrite H. simpl.
      destruct (proceed env r st); reflexivity.
  - destruct (proceed env r st); reflexivity.
Qed.

(* ===================================================================== *)
(** * Invariants kept by every operation                                  *)
(* ===================================================================== *)

Lemma state_after_prepend {A} tr0 (o : Outcome A) :
  state_after (prepend tr0 o) = state_after o.
Proof. destruct o; reflexivity. Qed.

Section Preserves.
Variable P : State → Prop.

Lemma preserves_bind {A B} (m : M A) (k : A → M B) :
  preserves P m → (∀ a, preserves P (k a)) → preserves P (m ≫= k).
Proof.
  intros Hm Hk st HP. specialize (Hm st HP).
  unfold mbind, M_bind, bind.
  destruct (m st) as [a st1 tr1| | |]; simpl in *; try assumption.
  specialize (Hk a st1 Hm).
  destruct (k a st1); simpl in *; assumption.
Qed.

Lemma preserves_pure {A} (f : State → A) (tr : State → Trace) :
  preserves P (fun st => Returned (f st) st (tr st)).
Proof. intros st HP. exact HP. Qed.

Lemma preserves_mret {A} (a : A) : preserves P (mret a).
Proof. intros st HP. exact HP. Qed.

Lemma preserves_emit ev : preserves P (emit ev).
Proof. intros st HP. exact HP. Qed.

Lemma preserves_panic {A} msg : preserves P (@panic A msg).
Proof. intros st HP. exact HP. Qed.

Lemma preserves_exit {A} code : preserves P (@exit A code).
Proof. intros st HP. exact HP. Qed.

Lemma preserves_for_append {A B} (f : A → M B) xs :
  (∀ x, preserves P (f x)) → ∀ out, preserves P (for_append f xs out).
Proof.
  intros Hf. induction xs as [|x xs IH]; intros out; simpl.
  - apply preserves_mret.
  - apply preserves_bind; [apply Hf | intros b; apply IH].
Qed.

Lemma preserves_CheckAll_with check :
  (∀ r, preserves P (check r)) → preserves P (CheckAll_with check).
Proof.
  intros Hc. unfold CheckAll_with.
  apply preserves_bind; [apply preserves_pure with (tr := fun _ => [])|].
  intros parts. apply preserves_bind; [by apply preserves_for_append|].
  intros out. apply preserves_mret.
Qed.

Lemma preserves_dump {A} checkAll env r :
  preserves P checkAll → preserves P (@late_required_dump A checkAll env r).
Proof.
  intros Hc. unfold late_required_dump.
  repeat (apply preserves_bind; [first [apply preserves_emit | exact Hc]|];
          intros ?).
  apply preserves_panic.
Qed.

Lemma preserves_gate checkAll env r :
  preserves P checkAll → preserves P (freeze_gate checkAll env r).
Proof.
  intros Hc. unfold freeze_gate.
  apply preserves_bind;
    [apply preserves_pure with (f := frozen) (tr := fun _ => [])|].
  intros [|]; [|apply preserves_mret].
  apply preserves_bind;
    [apply preserves_pure with (f := fun st => reg st !! Name r)
                               (tr := fun _ => [])|].
  intros [e|]; [apply preserves_mret|].
  destruct (Optional r); [apply preserves_emit | by apply preserves_dump].
Qed.

Hypothesis proceed_keeps : ∀ env r, preserves P (proceed env r).

Lemma preserves_Check fuel env r : preserves P (Check fuel env r).
Proof.
  revert r. induction fuel as [|fuel IH]; intros r.
  - intros st _. exact I.
  - simpl. apply preserves_bind; [|intros _; apply proceed_keeps].
    apply preserves_gate. by apply preserves_CheckAll_with.
Qed.

Lemma preserves_CheckAll fuel env : preserves P (CheckAll fuel env).
Proof.
  apply preserves_CheckAll_with. intros r. apply preserves_Check.
Qed.

Lemma preserves_MustValidate fuel env : preserves P (MustValidate fuel env).
Proof.
  unfold MustValidate.
  apply preserves_bind; [apply preserves_CheckAll|]. intros results.
  apply preserves_bind; [apply preserves_emit|]. intros _.
  destruct (0 <? _)%Z; [|apply preserves_mret].
  apply preserves_bind; [apply preserves_emit|]. intros _.
  apply preserves_exit.
Qed.
End Preserves.

Lemma merge_Name e r : Name (merge e r) = Name e.
Proof.
  unfold merge.
  repeat match goal with
         | |- context [if ?b then _ else _] => destruct b
         | |- context [match ?o with Some _ => _ | None => _ end] => destruct o
         end; reflexivity.
Qed.

Lemma canonical_Name st r : wf st → Name (canonical st r) = Name r.
Proof.
  intros [Hreg _]. unfold canonical.
  destruct (reg st !! Name r) as [e|] eqn:E; [|reflexivity].
  rewrite merge_Name. exact (Hreg _ _ E).
Qed.

Lemma wf_register st r :
  wf st → wf (set_reg (<[Name r := canonical st r]> (reg st)) st).
Proof.
  intros Hwf. pose proof (canonical_Name st r Hwf) as HN.
  destruct Hwf as [Hreg Hcache]. split; simpl.
  - apply map_Forall_insert_2; assumption.
  - intros k res Hk. destruct (Hcache k res Hk) as [? ?]. split; [done|].
    destruct (decide (Name r = k)) as [->|Hne].
    + rewrite lookup_insert_eq. eauto.
    + by rewrite lookup_insert_ne.
Qed.

Lemma wf_store st res :
  wf st → is_Some (reg st !! Name (Req res)) →
  wf (set_cache (<[Name (Req res) := res]> (cache st)) st).
Proof.
  intros [Hreg Hcache] Hin. split; simpl; [assumption|].
  apply map_Forall_insert_2; [split; [reflexivity | assumption] | assumption].
Qed.

Lemma wf_proceed env r : preserves wf (proceed env r).
Proof.
  intros st Hwf. rewrite proceed_eq. cbv zeta.
  pose proof (wf_register st r Hwf) as Hwf1.
  destruct (cache st !! Name (canonical st r)); [exact Hwf1|].
  apply (wf_store (set_reg (<[Name r := canonical st r]> (reg st)) st)
                  (loaded env (canonical st r)) Hwf1).
  simpl. rewrite (canonical_Name st r Hwf), lookup_insert_eq. eauto.
Qed.

Lemma wf_init : wf init.
Proof. split; apply map_Forall_empty. Qed.

Lemma wf_run_op fuel env op : preserves wf (run_op fuel env op).
Proof.
  destruct op; simpl.
  - apply preserves_bind; [apply preserves_Check, wf_proceed|].
    intros ?; apply preserves_mret.
  - apply preserves_bind; [apply preserves_CheckAll, wf_proceed|].
    intros ?; apply preserves_mret.
  - intros st H; exact H.
  - apply preserves_mret.
  - apply preserves_bind; [apply preserves_MustValidate, wf_proceed|].
    intros ?; apply preserves_mret.
  - intros st [H1 H2]. exact (conj H1 H2).
  - intros st _. apply wf_init.
Qed.

Lemma reachable_wf st : reachable st → wf st.
Proof.
  induction 1 as [|st fuel env op st' _ IH Hstep]; [apply wf_init|].
  pose proof (wf_run_op fuel env op st IH) as Hp.
  rewrite Hstep in Hp. exact Hp.
Qed.

Lemma preserves_conj {A} (P Q : State → Prop) (m : M A) :
  preserves P m → preserves Q m → preserves (fun st => P st ∧ Q st) m.
Proof.
  intros HP HQ st [Hp Hq]. specialize (HP st Hp). specialize (HQ st Hq).
  destruct (state_after (m st)); [split; assumption | exact I].
Qed.

(** A cached Result is never replaced by [proceed]. *)
Lemma cached_proceed N res env r :
  preserves (fun st => cache st !! N = Some res) (proceed env r).
Proof.
  intros st Hc. rewrite proceed_eq. cbv zeta.
  destruct (cache st !! Name (canonical st r)) eqn:E; simpl; [exact Hc|].
  rewrite lookup_insert_ne; [exact Hc | congruence].
Qed.

Lemma settled_run_op N res fuel env op :
  (match op with OpReset => False | _ => True end) →
  preserves (settled N res) (run_op fuel env op).
Proof.
  assert (∀ env r, preserves (settled N res) (proceed env r)) as Hp.
  { intros env' r. apply preserves_conj; [apply wf_proceed|apply cached_proceed]. }
  destruct op; simpl; intros Hop; try contradiction.
  - apply preserves_bind; [by apply preserves_Check|].
    intros ?; apply preserves_mret.
  - apply preserves_bind; [by apply preserves_CheckAll|].
    intros ?; apply preserves_mret.
  - intros st H; exact H.
  - apply preserves_mret.
  - apply preserves_bind; [by apply preserves_MustValidate|].
    intros ?; apply preserves_mret.
  - intros st [[H1 H2] H3]. exact (conj (conj H1 H2) H3).
Qed.

Lemma settled_evolves N res st st' :
  settled N res st → evolves st st' → settled N res st'.
Proof.
  intros Hs. induction 1 as [|st st1 fuel env op st2 _ IH Hop Hstep];
    [exact Hs|].
  pose proof (settled_run_op N res fuel env op Hop st1 (IH Hs)) as Hp.
  rewrite Hstep in Hp. exact Hp.
Qed.

(** A declaration of a cached name returns the cached Result and does
    nothing else than merge. *)
Lemma Check_cached fuel env r st res :
  wf st → cache st !! Name r = Some res →
  Check (S fuel) env r st
  = Returned res (set_reg (<[Name r := canonical st r]> (reg st)) st) [].
Proof.
  intros Hwf Hc.
  assert (is_Some (reg st !! Name r)) as Hreg.
  { destruct Hwf as [_ Hcache]. exact (proj2 (Hcache _ _ Hc)). }
  rewrite gate_passes.
  - unfold gate_trace. rewrite (bool_decide_eq_true_2 _ Hreg).
    rewrite andb_false_r. simpl.
    rewrite proceed_eq. cbv zeta.
    rewrite (canonical_Name st r Hwf), Hc. reflexivity.
  - unfold gate_blocks. rewrite (bool_decide_eq_true_2 _ Hreg).
    rewrite andb_false_r. reflexivity.
Qed.

(** [proceed] always returns; the registry gains the canonical entry. *)
Lemma proceed_returns env r st :
  ∃ res st' tr,
    proceed env r st = Returned res st' tr
    ∧ reg st' = <[Name r := canonical st r]> (reg st)
    ∧ frozen st' = frozen st.
Proof.
  rewrite proceed_eq. cbv zeta.
  destruct (cache st !! Name (canonical st r));
    do 3 eexists; (split; [reflexivity|]); split; reflexivity.
Qed.

Lemma gate_open_registered st r :
  is_Some (reg st !! Name r) →
  gate_blocks st r = false ∧ gate_trace st r = [].
Proof.
  intros H. unfold gate_blocks, gate_trace.
  rewrite (bool_decide_eq_true_2 _ H), andb_false_r. split; reflexivity.
Qed.

Lemma prepend_nil {A} (o : Outcome A) : prepend [] o = o.
Proof. destruct o; reflexivity. Qed.

Lemma Check_registered fuel env r st :
  is_Some (reg st !! Name r) →
  Check (S fuel) env r st = proceed env r st.
Proof.
  intros H. destruct (gate_open_registered st r H) as [Hb Ht].
  rewrite (gate_passes _ _ _ _ Hb), Ht. apply prepend_nil.
Qed.

Lemma snapshot_split_unchecked st req :
  req ∈ (snapshot_split st).2 →
  ∃ k, reg st !! k = Some req ∧ cache st !! k = None.
Proof.
  unfold snapshot_split.
  assert (∀ l acc,
    (∀ e, e ∈ l → reg st !! e.1 = Some e.2) →
    req ∈ (foldl (fun acc entry =>
                    match cache st !! entry.1 with
                    | Some res => ((acc.1 ++ [res])%list, acc.2)
                    | None => (acc.1, (acc.2 ++ [entry.2])%list)
                    end) acc l).2 →
    req ∈ acc.2 ∨ ∃ k, reg st !! k = Some req ∧ cache st !! k = None) as H.
  { induction l as [|e l IH]; intros acc Hl Hin; simpl in *; [by left|].
    apply IH in Hin; [|intros e' He'; apply Hl; by right].
    destruct (cache st !! e.1) eqn:E; simpl in Hin; [exact Hin|].
    destruct Hin as [Hin|Hin]; [|by right].
    apply elem_of_app in Hin as [Hin|Hin]; [by left|].
    apply list_elem_of_singleton in Hin. subst req. right.
    exists e.1. split; [apply Hl; by left | exact E]. }
  intros Hin. apply H in Hin.
  - destruct Hin as [Hin|Hin]; [|exact Hin]. simpl in Hin. by apply elem_of_nil in Hin.
  - intros [k v] He. simpl. by apply elem_of_map_to_list in He.
Qed.

Lemma for_append_Check_returns fuel env reqs :
  ∀ out st,
    wf st →
    (∀ req, req ∈ reqs → is_Some (reg st !! Name req)) →
    ∃ results st' tr,
      for_append (Check (S fuel) env) reqs out st = Returned results st' tr.
Proof.
  induction reqs as [|req reqs IH]; intros out st Hwf Hreg; cbn [for_append].
  - do 3 eexists. reflexivity.
  - assert (is_Some (reg st !! Name req)) as Hr by (apply Hreg; by left).
    destruct (proceed_returns env req st) as (res & st1 & tr1 & Hp & Hreg1 & _).
    pose proof (wf_proceed env req st Hwf) as Hwf1. rewrite Hp in Hwf1.
    simpl in Hwf1.
    destruct (IH (out ++ [res])%list st1 Hwf1) as (results & st' & tr & Hrest).
    { intros req' Hin. rewrite Hreg1.
      destruct (decide (Name req = Name req')) as [->|Hne].
      - rewrite lookup_insert_eq. eauto.
      - rewrite lookup_insert_ne by exact Hne. apply Hreg. by right. }
    exists results, st', (tr1 ++ tr)%list.
    erewrite bind_Returned;
      [|rewrite (Check_registered _ _ _ _ Hr); exact Hp].
    rewrite Hrest. reflexivity.
Qed.

(** With a well-formed registry [CheckAll] returns. *)
Lemma CheckAll_returns fuel env st :
  wf st →
  ∃ results st' tr, CheckAll (S fuel) env st = Returned results st' tr.
Proof.
  intros Hwf. unfold CheckAll, CheckAll_with.
  rewrite (bind_Returned _ _ st (snapshot_split st) st []) by reflexivity.
  destruct (for_append_Check_returns fuel env (snapshot_split st).2
              (snapshot_split st).1 st Hwf)
    as (out & st' & tr & Hout).
  { intros req Hin. apply snapshot_split_unchecked in Hin as (k & Hk & _).
    destruct Hwf as [Hreg _]. rewrite (Hreg _ _ Hk). eauto. }
  rewrite (bind_Returned _ _ _ _ _ _ Hout).
  do 3 eexists. reflexivity.
Qed.

(* ===================================================================== *)
(** * Memoization and the registry invariant                              *)
(* ===================================================================== *)



(** C10. In every state reached from the initial one by calls of Check,
    CheckAll, Value, Report, MustValidate, Freeze and Reset, a name with a
    cached Result has a requirement in the registry. *)
Theorem cached_names_are_registered :
  ∀ st : State,
    reachable st →
    dom (cache st) ⊆ dom (reg st)
    ∧ ∀ name res, cache st !! name = Some res →
                  ∃ R, reg st !! name = Some R ∧ Name R = name.
Proof.
  intros st Hreach. destruct (reachable_wf st Hreach) as [Hreg Hcache].
  split.
  - intros name Hin. apply elem_of_dom in Hin as [res Hres].
    apply elem_of_dom. exact (proj2 (Hcache _ _ Hres)).
  - intros name res Hres. destruct (Hcache _ _ Hres) as [_ [R HR]].
    exists R. split; [exact HR | exact (Hreg _ _ HR)].
Qed.

Lemma reachable_one_checked : reachable one_checked.
Proof.
  apply (reachable_call init 1 test_env (OpCheck present_var));
    [apply reachable_init | vm_compute; reflexivity].
Defined.

Lemma evolves_one_checked_later : evolves one_checked one_checked_later.
Proof.
  apply (evolves_call _ (state_of (Check 1 test_env present_var_again
                                         one_checked))
                      1 test_env OpFreeze); [|exact I|vm_compute; reflexivity].
  apply (evolves_call _ one_checked 1 test_env (OpCheck present_var_again));
    [apply evolves_refl | exact I | vm_compute; reflexivity].
Defined.


Lemma cached_names_are_registered_witness :
  reachable one_checked_later
  ∧ dom (cache one_checked_later) ⊆ dom (reg one_checked_later)
  ∧ ∀ name res, cache one_checked_later !! name = Some res →
                ∃ R, reg one_checked_later !! name = Some R ∧ Name R = name.
Proof.
  assert (reachable one_checked_later) as Hreach.
  { apply (reachable_call
             (state_of (Check 1 test_env present_var_again one_checked))
             1 test_env OpFreeze); [|vm_compute; reflexivity].
    apply (reachable_call one_checked 1 test_env (OpCheck present_var_again));
      [exact reachable_one_checked | vm_compute; reflexivity]. }
  split; [exact Hreach|].
  exact (cached_names_are_registered one_checked_later Hreach).
Defined.

Lemma lookups_app name tr1 tr2 :
  lookups name (tr1 ++ tr2)%list = lookups name tr1 + lookups name tr2.
Proof. unfold lookups. by rewrite List.filter_app, length_app. Qed.

Lemma validations_app name tr1 tr2 :
  validations name (tr1 ++ tr2)%list
  = validations name tr1 + validations name tr2.
Proof. unfold validations. by rewrite List.filter_app, length_app. Qed.

Lemma gate_trace_quiet name st r :
  lookups name (gate_trace st r) = 0 ∧ validations name (gate_trace st r) = 0.
Proof. unfold gate_trace. destruct (_ && _ && _); split; reflexivity. Qed.

Lemma load_trace_counts env R :
  lookups (Name R) (load_trace env R) = 1
  ∧ validations (Name R) (load_trace env R)
    = match (loaded_value env R).2, Validate R with
      | true, Some _ => 1
      | _, _ => 0
      end.
Proof.
  unfold lookups, validations, load_trace. simpl.
  rewrite String.eqb_refl. simpl.
  destruct (loaded_value env R).2, (Validate R); simpl;
    rewrite ?String.eqb_refl; split; reflexivity.
Qed.

(* ===================================================================== *)
(** * First resolution and the gate of a frozen registry                  *)
(* ===================================================================== *)


(** C3. In a frozen registry, a declaration of a name that was never
    declared: when optional, logs one warning and returns the Result a
    declaration returns after the gate; when required, logs two lines,
    runs CheckAll, writes its report to stderr and then panics. A
    declaration of a name already in the registry returns that Result with
    no diagnostic, frozen or not. *)
Theorem frozen_registry_gate :
  ∀ (fuel : nat) (env : Env) (r : Requirement) (st : State),
    reachable st →
    (frozen st = true → reg st !! Name r = None → Optional r = true →
       ∃ res st' tr,
         proceed env r st = Returned res st' tr
         ∧ Check (S fuel) env r st
           = Returned res st' (Log (late_optional_msg r) :: tr))
    ∧ (frozen st = true → reg st !! Name r = None → Optional r = false →
       ∃ results st' tr,
         CheckAll (S fuel) env st = Returned results st' tr
         ∧ Check (S (S fuel)) env r st
           = Panicked (late_required_panic r) st'
               ([Log (late_required_msg r); Log state_dump_msg] ++ tr
                ++ [Stderr (Report env results).1])%list)
    ∧ (is_Some (reg st !! Name r) →
       ∃ res st' tr,
         proceed env r st = Returned res st' tr
         ∧ Check (S fuel) env r st = Returned res st' tr).
Proof.
  intros fuel env r st Hreach.
  pose proof (reachable_wf st Hreach) as Hwf.
  split; [|split].
  - intros Hfr Hnew Hopt.
    destruct (proceed_returns env r st) as (res & st' & tr & Hp & _).
    exists res, st', tr. split; [exact Hp|].
    rewrite gate_passes, Hp.
    + unfold gate_trace. rewrite Hfr, Hnew, Hopt.
      rewrite bool_decide_eq_false_2 by (intros [? ?]; congruence).
      reflexivity.
    + unfold gate_blocks. rewrite Hopt. apply andb_false_r.
  - intros Hfr Hnew Hreq.
    destruct (CheckAll_returns fuel env st Hwf) as (results & st' & tr & Hall).
    exists results, st', tr. split; [exact Hall|].
    rewrite gate_blocks_dump.
    + unfold late_required_dump.
      rewrite (bind_Returned _ _ st tt st [Log (late_required_msg r)])
        by reflexivity.
      rewrite (bind_Returned _ _ st tt st [Log state_dump_msg]) by reflexivity.
      rewrite (bind_Returned _ _ _ _ _ _ Hall).
      rewrite (bind_Returned _ _ st' tt st' [Stderr (Report env results).1])
        by reflexivity.
      unfold panic, prepend. simpl. reflexivity.
    + unfold gate_blocks. rewrite Hfr, Hnew, Hreq.
      rewrite bool_decide_eq_false_2 by (intros [? ?]; congruence).
      reflexivity.
  - intros Hreg.
    destruct (proceed_returns env r st) as (res & st' & tr & Hp & _).
    exists res, st', tr. split; [exact Hp|].
    rewrite (Check_registered _ _ _ _ Hreg). exact Hp.
Qed.


Lemma reachable_one_frozen : reachable one_frozen.
Proof.
  apply (reachable_call one_checked 1 test_env OpFreeze);
    [exact reachable_one_checked | vm_compute; reflexivity].
Defined.

Lemma frozen_registry_gate_witness :
  reachable one_frozen
  ∧ (∃ res st' tr,
       proceed test_env (optional "LATE") one_frozen = Returned res st' tr
       ∧ Check 1 test_env (optional "LATE") one_frozen
         = Returned res st' (Log (late_optional_msg (optional "LATE")) :: tr))
  ∧ (∃ results st' tr,
       CheckAll 1 test_env one_frozen = Returned results st' tr
       ∧ Check 2 test_env (required "LATE") one_frozen
         = Panicked (late_required_panic (required "LATE")) st'
             ([Log (late_required_msg (required "LATE")); Log state_dump_msg]
              ++ tr ++ [Stderr (Report test_env results).1])%list)
  ∧ (∃ res st' tr,
       proceed test_env present_var_again one_frozen = Returned res st' tr
       ∧ Check 1 test_env present_var_again one_frozen = Returned res st' tr).
Proof.
  split; [exact reachable_one_frozen|].
  split; [|split].
  - apply (proj1 (frozen_registry_gate 0 test_env (optional "LATE") one_frozen
                    reachable_one_frozen)); vm_compute; reflexivity.
  - apply (proj1 (proj2 (frozen_registry_gate 0 test_env (required "LATE")
                           one_frozen reachable_one_frozen)));
      vm_compute; reflexivity.
  - apply (proj2 (proj2 (frozen_registry_gate 0 test_env present_var_again
                           one_frozen reachable_one_frozen))).
    vm_compute. eexists. reflexivity.
Defined.

(* ===================================================================== *)
(** * Report                                                              *)
(* ===================================================================== *)

Lemma classify_count show res missing :
  (classify show res missing).2
  = (missing + if failing res then 1 else 0)%Z.
Proof.
  unfold classify, failing.
  destruct (Present res), (Optional (Req res)), (Err res) as [e|]; simpl;
    rewrite ?Z.add_0_r; try reflexivity;
    repeat match goal with
           | |- context [if ?b then _ else _] => destruct b; simpl
           end; rewrite ?Z.add_0_r; reflexivity.
Qed.

Lemma report_entry_count show res missing :
  (report_entry show res missing).2
  = (missing + if failing res then 1 else 0)%Z.
Proof.
  unfold report_entry. rewrite <- classify_count with (show := show).
  destruct (classify show res missing) as [[status details] m]. reflexivity.
Qed.

Lemma report_loop_count show results :
  ∀ out missing,
    (report_loop show results out missing).2
    = (missing + count_failing results)%Z.
Proof.
  unfold count_failing.
  induction results as [|res results IH]; intros out missing; simpl.
  - lia.
  - pose proof (report_entry_count show res missing) as He.
    destruct (report_entry show res missing) as [line m]. simpl in He.
    rewrite IH, He. destruct (failing res); simpl; lia.
Qed.

(** C5. The count returned by Report is the number of entries that are
    required and either not present or carrying a validator error; what is
    optional adds nothing. MustValidate exits with status 2 exactly when
    that count, taken on the Results of CheckAll, is positive, and returns
    otherwise. For one entry present and valid, one required and absent
    and one required, present and invalid, the count is 2. *)
Theorem Report_counts_required_failures :
  ∀ (env : Env) (results : list Result),
    (Report env results).2 = count_failing results
    ∧ (∀ fuel st st' tr,
         CheckAll fuel env st = Returned results st' tr →
         MustValidate fuel env st
         = if (0 <? count_failing results)%Z
           then Exited 2%Z st'
                  (tr ++ [Stderr (Report env results).1;
                          Stderr (exit_msg (count_failing results))])%list
           else Returned tt st' (tr ++ [Stderr (Report env results).1])%list)
    ∧ (∀ ok absent invalid,
         results = [ok; absent; invalid] →
         Present ok = true → Err ok = None →
         Optional (Req absent) = false → Present absent = false →
         Optional (Req invalid) = false → Present invalid = true →
         is_Some (Err invalid) →
         (Report env results).2 = 2%Z).
Proof.
  intros env results.
  assert ((Report env results).2 = count_failing results) as Hcount.
  { unfold Report. rewrite report_loop_count. lia. }
  split; [exact Hcount|]. split.
  - intros fuel st st' tr Hall. unfold MustValidate.
    rewrite (bind_Returned _ _ _ _ _ _ Hall).
    rewrite (bind_Returned _ _ st' tt st' [Stderr (Report env results).1])
      by reflexivity.
    rewrite Hcount.
    destruct (0 <? count_failing results)%Z; [|reflexivity].
    rewrite (bind_Returned _ _ st' tt st'
               [Stderr (exit_msg (count_failing results))]) by reflexivity.
    unfold exit, prepend. simpl. reflexivity.
  - intros ok absent invalid -> Hok1 Hok2 Hab1 Hab2 Hin1 Hin2 [e Hin3].
    rewrite Hcount. unfold count_failing, failing. simpl.
    rewrite Hok1, Hok2, Hab1, Hab2, Hin1, Hin2, Hin3. simpl.
    rewrite andb_false_r. reflexivity.
Qed.

Lemma Report_counts_required_failures_witness :
  (∃ results st' tr,
     CheckAll 1 test_env three_checked = Returned results st' tr
     ∧ MustValidate 1 test_env three_checked
       = Exited 2%Z st'
           (tr ++ [Stderr (Report test_env results).1;
                   Stderr (exit_msg (count_failing results))])%list)
  ∧ (Report show_values_env three_results).2 = 2%Z.
Proof.
  split.
  - destruct (CheckAll 1 test_env three_checked) as [results st' tr| | |] eqn:E;
      try (vm_compute in E; discriminate E).
    exists results, st', tr. split; [reflexivity|].
    rewrite (proj1 (proj2 (Report_counts_required_failures test_env results))
               1 three_checked st' tr E).
    vm_compute in E. injection E as <- <- <-. reflexivity.
  - apply (proj2 (proj2 (Report_counts_required_failures
                           show_values_env three_results))
             (loaded test_env present_var) (loaded test_env missing_var)
             (loaded test_env invalid_var));
      try reflexivity.
    vm_compute. eexists. reflexivity.
Defined.

(* ===================================================================== *)
(** * The Port validator                                                  *)
(* ===================================================================== *)

Lemma ascii_compare_nat a b :
  Ascii.compare a b = Nat.compare (nat_of_ascii a) (nat_of_ascii b).
Proof.
  unfold Ascii.compare, nat_of_ascii. apply N2Nat.inj_compare.
Qed.

Lemma digit_value_range c :
  is_digit c = true → (0 <= digit_value c <= 9)%Z.
Proof.
  unfold is_digit, in_range, digit_value. intros H.
  apply andb_true_iff in H as [H1 H2].
  apply Nat.leb_le in H1. apply Nat.leb_le in H2. lia.
Qed.

Lemma decimal_value_from_shift s :
  ∀ acc, decimal_value_from acc s
         = (acc * 10 ^ Z.of_nat (String.length s) + decimal_value s)%Z.
Proof.
  unfold decimal_value.
  induction s as [|c s IH]; intros acc; cbn [decimal_value_from String.length].
  - change (10 ^ Z.of_nat 0)%Z with 1%Z. lia.
  - rewrite IH, (IH (10 * 0 + digit_value c)%Z).
    rewrite Nat2Z.inj_succ, Z.pow_succ_r by lia. ring.
Qed.

Lemma decimal_value_cons c s :
  decimal_value (String c s)
  = (digit_value c * 10 ^ Z.of_nat (String.length s) + decimal_value s)%Z.
Proof.
  unfold decimal_value at 1. cbn [decimal_value_from].
  rewrite decimal_value_from_shift. ring.
Qed.

Lemma decimal_value_bound s :
  all_digits s = true →
  (0 <= decimal_value s < 10 ^ Z.of_nat (String.length s))%Z.
Proof.
  induction s as [|c s IH]; intros H.
  - vm_compute. split; [discriminate | reflexivity].
  - cbn [all_digits] in H. apply andb_true_iff in H as [Hc Hs].
    specialize (IH Hs). pose proof (digit_value_range c Hc) as Hd.
    rewrite decimal_value_cons. cbn [String.length].
    rewrite Nat2Z.inj_succ, Z.pow_succ_r by lia. nia.
Qed.

(** On digit strings of one length the bytewise order is the numeric one. *)
Lemma compare_digits a :
  ∀ b, String.length a = String.length b →
       all_digits a = true → all_digits b = true →
       String.compare a b = Z.compare (decimal_value a) (decimal_value b).
Proof.
  induction a as [|c1 a IH]; intros [|c2 b] Hlen Ha Hb;
    try discriminate Hlen.
  - reflexivity.
  - cbn [String.length] in Hlen. injection Hlen as Hlen.
    cbn [all_digits] in Ha, Hb.
    apply andb_true_iff in Ha as [Hc1 Ha]. apply andb_true_iff in Hb as [Hc2 Hb].
    pose proof (digit_value_range c1 Hc1) as Hd1.
    pose proof (digit_value_range c2 Hc2) as Hd2.
    pose proof (decimal_value_bound a Ha) as Hba.
    pose proof (decimal_value_bound b Hb) as Hbb.
    rewrite !decimal_value_cons, <- Hlen in *.
    cbn [String.compare]. rewrite ascii_compare_nat.
    unfold digit_value in *.
    destruct (Nat.compare_spec (nat_of_ascii c1) (nat_of_ascii c2)) as [E|E|E].
    + rewrite (IH b Hlen Ha Hb), E.
      destruct (Z.compare_spec (decimal_value a) (decimal_value b));
        symmetry; [apply Z.compare_eq_iff | apply Z.compare_lt_iff
                  | apply Z.compare_gt_iff]; lia.
    + symmetry. apply Z.compare_lt_iff. nia.
    + symmetry. apply Z.compare_gt_iff. nia.
Qed.

(** C9. On a string of exactly five decimal digits the bytewise
    comparison with 65535 that Port makes is the comparison of the number
    the string writes with 65535: Port rejects the string with the range
    error exactly when that number exceeds 65535 and accepts it
    otherwise. *)
Theorem Port_five_digits_lexicographic_is_numeric :
  ∀ v : string,
    String.length v = 5 →
    all_digits v = true →
    (String.ltb "65535" v = true ↔ (65535 < decimal_value v)%Z)
    ∧ (Port v = Some range_error ↔ (65535 < decimal_value v)%Z)
    ∧ (Port v = None ↔ (decimal_value v <= 65535)%Z).
Proof.
  intros v Hlen Hdig.
  assert (String.ltb "65535" v = true ↔ (65535 < decimal_value v)%Z) as Hlt.
  { unfold String.ltb.
    rewrite (compare_digits "65535" v) by (rewrite ?Hlen; reflexivity || exact Hdig).
    change (decimal_value "65535") with 65535%Z.
    destruct (Z.compare_spec 65535 (decimal_value v)); split; intros; try lia;
      try discriminate; reflexivity. }
  split; [exact Hlt|].
  assert (Port v = if String.ltb "65535" v then Some range_error else None)
    as HPort.
  { unfold Port. destruct v as [|c1 [|c2 v]]; try discriminate Hlen.
    unfold is_empty. rewrite Hlen, Hdig.
    replace (String.eqb (String c1 (String c2 v)) "0") with false; [reflexivity|].
    symmetry. apply String.eqb_neq. congruence. }
  rewrite HPort.
  destruct (String.ltb "65535" v) eqn:E.
  - assert (65535 < decimal_value v)%Z as Hgt by (apply Hlt; reflexivity).
    split; split; intros H; try reflexivity; try discriminate H; lia.
  - assert (¬ (65535 < decimal_value v)%Z) as Hle
      by (intros H; apply Hlt in H; discriminate H).
    split; split; intros H; try reflexivity; try discriminate H; lia.
Qed.

Lemma Port_five_digits_lexicographic_is_numeric_witness :
  String.length "99999" = 5
  ∧ all_digits "99999" = true
  ∧ Port "99999" = Some range_error
  ∧ Port "65535" = None.
Proof.
  split; [reflexivity|]. split; [reflexivity|]. split.
  - apply (proj2 (proj1 (proj2 (Port_five_digits_lexicographic_is_numeric
                                  "99999" eq_refl eq_refl)))).
    vm_compute. reflexivity.
  - apply (proj2 (proj2 (proj2 (Port_five_digits_lexicographic_is_numeric
                                  "65535" eq_refl eq_refl)))).
    vm_compute. discriminate.
Defined.

(* ===================================================================== *)
(** * The canonical requirement                                           *)
(* ===================================================================== *)

Lemma is_empty_true s : is_empty s = true ↔ s = EmptyString.
Proof. unfold is_empty. apply String.eqb_eq. Qed.

Lemma first_nonempty_pair a b :
  first_nonempty [a; b]
  = if is_empty a && negb (is_empty b) then b else a.
Proof.
  simpl. destruct (is_empty a) eqn:Ea, (is_empty b) eqn:Eb; simpl;
    try reflexivity.
  apply is_empty_true in Ea. congruence.
Qed.

(** The fields of a merge. *)
Lemma merge_fields e r :
  merge e r
  = mkRequirement (Name e)
      (first_nonempty [Source e; Source r])
      (first_nonempty [Description e; Description r])
      (Optional e && Optional r)
      (first_nonempty [Default e; Default r])
      (first_some [Validate e; Validate r])
      (Sensitive e || Sensitive r).
Proof.
  rewrite !first_nonempty_pair.
  destruct e as [n s d o df v se], r as [n' s' d' o' df' v' se'].
  unfold merge, with_Optional, with_Description, with_Source, with_Validate,
    with_Default, with_Sensitive, is_empty.
  destruct o, o'; simpl;
    destruct ((d =? "") && negb (d' =? "")); simpl;
    destruct ((s =? "") && negb (s' =? "")); simpl;
    destruct v, v'; simpl;
    destruct ((df =? "") && negb (df' =? "")); simpl;
    destruct se, se'; reflexivity.
Qed.

Lemma first_nonempty_absorb a b rest :
  first_nonempty (first_nonempty [a; b] :: rest) = first_nonempty (a :: b :: rest).
Proof.
  simpl. destruct (is_empty a) eqn:Ea; [|by rewrite Ea].
  destruct (is_empty b) eqn:Eb; [|by rewrite Eb].
  apply is_empty_true in Ea. subst a. reflexivity.
Qed.

Lemma first_some_absorb {A} (a b : option A) rest :
  first_some (first_some [a; b] :: rest) = first_some (a :: b :: rest).
Proof. destruct a, b; reflexivity. Qed.

(** The canonical requirement of the declarations [first :: rest]. *)
Lemma foldl_merge_fields rest :
  ∀ first,
    let rs := first :: rest in
    foldl merge first rest
    = mkRequirement (Name first)
        (first_nonempty (map Source rs))
        (first_nonempty (map Description rs))
        (forallb Optional rs)
        (first_nonempty (map Default rs))
        (first_some (map Validate rs))
        (existsb Sensitive rs).
Proof.
  induction rest as [|r rest IH]; intros first; cbn zeta.
  - destruct first as [n s d o df v se]. simpl.
    rewrite andb_true_r, orb_false_r.
    destruct (is_empty s) eqn:Es, (is_empty d) eqn:Ed, (is_empty df) eqn:Edf,
             v; rewrite ?is_empty_true in *; subst; reflexivity.
  - cbn [foldl]. rewrite IH. cbn zeta. rewrite merge_fields.
    cbn [Name Source Description Optional Default Validate Sensitive map
         forallb existsb].
    rewrite !first_nonempty_absorb, first_some_absorb.
    rewrite andb_assoc, orb_assoc. reflexivity.
Qed.

(** A declaration of a registered name returns; the registry holds the
    merge. *)
Lemma Check_merges fuel env r st e :
  reg st !! Name r = Some e →
  ∃ res st' tr,
    Check (S fuel) env r st = Returned res st' tr
    ∧ reg st' = <[Name r := merge e r]> (reg st).
Proof.
  intros He.
  destruct (proceed_returns env r st) as (res & st' & tr & Hp & Hreg & _).
  exists res, st', tr. rewrite Check_registered by eauto.
  split; [exact Hp|]. rewrite Hreg. unfold canonical. by rewrite He.
Qed.

Lemma declare_each_merges fuel N decls :
  ∀ st e,
    reg st !! N = Some e →
    Forall (fun d : Env * Requirement => Name d.2 = N) decls →
    ∃ st' tr,
      declare_each (S fuel) decls st = Returned tt st' tr
      ∧ reg st' !! N = Some (foldl merge e (map snd decls)).
Proof.
  unfold declare_each.
  induction decls as [|[env r] decls IH]; intros st e He Hall.
  - exists st, []. split; [reflexivity | exact He].
  - apply Forall_cons in Hall as [Hr Hall]. simpl in Hr.
    destruct (Check_merges fuel env r st e) as (res & st1 & tr1 & HC & Hreg1);
      [by rewrite Hr|].
    destruct (IH st1 (merge e r)) as (st' & tr & Hrun & Hfinal);
      [by rewrite Hreg1, Hr, lookup_insert_eq | exact Hall |].
    exists st', (tr1 ++ tr)%list. split; [|exact Hfinal].
    cbn [map run_ops fst snd].
    erewrite bind_Returned.
    2:{ unfold run_op. erewrite bind_Returned by exact HC. reflexivity. }
    rewrite Hrun. simpl. rewrite app_nil_r. reflexivity.
Qed.

(** C2. After the declarations [first :: rest] of a name [N] that was not
    declared before, the first of which passes the gate, the requirement
    stored for [N] is: optional exactly when every declaration was optional;
    sensitive exactly when some declaration was sensitive; and with the
    first non-empty Description, Source and Default and the first non-nil
    Validate among the declarations, in their order. *)
Theorem canonical_requirement_of_declarations :
  ∀ (fuel : nat) (N : string) (first : Env * Requirement)
    (rest : list (Env * Requirement)) (st : State),
    reg st !! N = None →
    Forall (fun d : Env * Requirement => Name d.2 = N) (first :: rest) →
    gate_blocks st first.2 = false →
    let rs := map snd (first :: rest) in
    ∃ st' tr R,
      declare_each (S fuel) (first :: rest) st = Returned tt st' tr
      ∧ reg st' !! N = Some R
      ∧ Name R = N
      ∧ (Optional R = true ↔ ∀ r, r ∈ rs → Optional r = true)
      ∧ (Sensitive R = true ↔ ∃ r, r ∈ rs ∧ Sensitive r = true)
      ∧ Description R = first_nonempty (map Description rs)
      ∧ Source R = first_nonempty (map Source rs)
      ∧ Default R = first_nonempty (map Default rs)
      ∧ Validate R = first_some (map Validate rs).
Proof.
  intros fuel N [env r] rest st Hnew Hall Hgate rs.
  apply Forall_cons in Hall as [Hr Hall]. simpl in Hr, Hgate.
  destruct (proceed_returns env r st) as (res & st1 & tr1 & Hp & Hreg1 & _).
  assert (Check (S fuel) env r st = Returned res st1 (gate_trace st r ++ tr1)%list)
    as HC by (rewrite (gate_passes _ _ _ _ Hgate), Hp; reflexivity).
  assert (reg st1 !! N = Some r) as Hfirst.
  { rewrite Hreg1, Hr, lookup_insert_eq. unfold canonical.
    by rewrite Hr, Hnew. }
  destruct (declare_each_merges fuel N rest st1 r Hfirst Hall)
    as (st' & tr & Hrun & Hfinal).
  exists st', ((gate_trace st r ++ tr1) ++ tr)%list, (foldl merge r (map snd rest)).
  split.
  { unfold declare_each in *. cbn [map run_ops fst snd].
    erewrite bind_Returned.
    2:{ unfold run_op. erewrite bind_Returned by exact HC. reflexivity. }
    rewrite Hrun. simpl. rewrite app_nil_r. reflexivity. }
  split; [exact Hfinal|].
  rewrite foldl_merge_fields. cbn zeta.
  cbn [Name Source Description Optional Default Validate Sensitive].
  split; [exact Hr|].
  change (r :: map snd rest) with rs.
  split; [|split; [|repeat split; reflexivity]].
  - rewrite forallb_forall. split; intros H x Hx; apply H;
      by apply list_elem_of_In.
  - rewrite existsb_exists. split; intros (x & Hx & Hs); exists x;
      (split; [by apply list_elem_of_In | exact Hs]).
Qed.

Lemma canonical_requirement_of_declarations_witness :
  reg init !! "PRESENT_VAR" = None
  ∧ Forall (fun d : Env * Requirement => Name d.2 = "PRESENT_VAR")
           [(test_env, present_var); (show_values_env, present_var_again)]
  ∧ gate_blocks init present_var = false
  ∧ ∃ st' tr R,
      declare_each 1 [(test_env, present_var);
                      (show_values_env, present_var_again)] init
      = Returned tt st' tr
      ∧ reg st' !! "PRESENT_VAR" = Some R
      ∧ Name R = "PRESENT_VAR"
      ∧ (Optional R = true
         ↔ ∀ r, r ∈ [present_var; present_var_again] → Optional r = true)
      ∧ (Sensitive R = true
         ↔ ∃ r, r ∈ [present_var; present_var_again] ∧ Sensitive r = true)
      ∧ Description R = "A present variable"
      ∧ Source R = "test"
      ∧ Default R = "fallback"
      ∧ Validate R = Some no_scheme.
Proof.
  assert (Forall (fun d : Env * Requirement => Name d.2 = "PRESENT_VAR")
                 [(test_env, present_var); (show_values_env, present_var_again)])
    as Hall by (repeat constructor).
  split; [reflexivity|]. split; [exact Hall|]. split; [reflexivity|].
  exact (canonical_requirement_of_declarations
           0 "PRESENT_VAR" (test_env, present_var)
           [(show_values_env, present_var_again)] init eq_refl Hall eq_refl).
Defined.

(* ===================================================================== *)
(** * Value                                                               *)
(* ===================================================================== *)

Lemma absent_proceed env r : preserves absent_is_empty (proceed env r).
Proof.
  intros st Hst. rewrite proceed_eq. cbv zeta.
  destruct (cache st !! Name (canonical st r)); [exact Hst|].
  apply map_Forall_insert_2; [|exact Hst].
  unfold loaded, loaded_value. simpl.
  destruct (env (Name (canonical st r))); [discriminate|].
  destruct (is_empty (Default (canonical st r))); [reflexivity|discriminate].
Qed.

Lemma absent_run_op fuel env op : preserves absent_is_empty (run_op fuel env op).
Proof.
  destruct op; simpl.
  - apply preserves_bind; [apply preserves_Check, absent_proceed|].
    intros ?; apply preserves_mret.
  - apply preserves_bind; [apply preserves_CheckAll, absent_proceed|].
    intros ?; apply preserves_mret.
  - intros st H; exact H.
  - apply preserves_mret.
  - apply preserves_bind; [apply preserves_MustValidate, absent_proceed|].
    intros ?; apply preserves_mret.
  - intros st H. exact H.
  - intros st _. apply map_Forall_empty.
Qed.

Lemma reachable_absent st : reachable st → absent_is_empty st.
Proof.
  induction 1 as [|st fuel env op st' _ IH Hstep]; [apply map_Forall_empty|].
  pose proof (absent_run_op fuel env op st IH) as Hp.
  rewrite Hstep in Hp. exact Hp.
Qed.

Lemma reachable_three_checked : reachable three_checked.
Proof.
  apply (reachable_call
           (state_of (run_ops 1 [(test_env, OpCheck present_var);
                                 (test_env, OpCheck missing_var)] init))
           1 test_env (OpCheck invalid_var)); [|vm_compute; reflexivity].
  apply (reachable_call one_checked 1 test_env (OpCheck missing_var));
    [exact reachable_one_checked | vm_compute; reflexivity].
Defined.

Lemma reachable_empty_checked : reachable empty_checked.
Proof.
  apply (reachable_call three_checked 1 test_env (OpCheck (required "EMPTY_VAR")));
    [exact reachable_three_checked | vm_compute; reflexivity].
Defined.

(** C7, as stated, fails: Value answers with two components only, and its
    answer for a name that was never declared is the very answer it gives
    for a cached Result whose variable was absent. *)
Lemma Value_miss_is_not_told_from_absent :
  reachable three_checked
  ∧ cache three_checked !! "NOT_EXISTS" = None
  ∧ (∃ res, cache three_checked !! "MISSING_VAR" = Some res
            ∧ Present res = false)
  ∧ ValueLookup "NOT_EXISTS" three_checked
    = ValueLookup "MISSING_VAR" three_checked.
Proof.
  split; [exact reachable_three_checked|].
  split; [vm_compute; reflexivity|].
  split; [|vm_compute; reflexivity].
  exists (loaded test_env missing_var). split; vm_compute; reflexivity.
Qed.

(** C7, amended. Value answers with the pair (value, present) and no found
    flag, and changes nothing. For a name with no cached Result the answer
    is the empty string and false, a normal miss; for a cached name it is
    the cached value and presence. The miss differs from the answer for
    any cached Result that is present, a variable set to the empty string
    among them, and equals the answer for a cached Result that is not
    present. *)
Theorem Value_reads_the_cache :
  ∀ (fuel : nat) (env : Env) (name : string) (st : State),
    reachable st →
    run_op fuel env (OpValue name) st
    = Returned (AValue (ValueLookup name st)) st []
    ∧ (cache st !! name = None → ValueLookup name st = (EmptyString, false))
    ∧ (∀ res, cache st !! name = Some res →
              ValueLookup name st = (Value res, Present res)
              ∧ (Present res = true →
                 ValueLookup name st ≠ (EmptyString, false))
              ∧ (Present res = false →
                 ValueLookup name st = (EmptyString, false))).
Proof.
  intros fuel env name st Hreach. unfold ValueLookup.
  split; [reflexivity|]. split.
  - intros ->. reflexivity.
  - intros res Hres. rewrite Hres. split; [reflexivity|]. split.
    + intros Hp. rewrite Hp. discriminate.
    + intros Hp. rewrite (reachable_absent st Hreach name res Hres Hp), Hp.
      reflexivity.
Qed.

Lemma Value_reads_the_cache_witness :
  reachable empty_checked
  ∧ ValueLookup "NOT_EXISTS" empty_checked = (EmptyString, false)
  ∧ ValueLookup "PRESENT_VAR" empty_checked = ("value", true)
  ∧ ValueLookup "EMPTY_VAR" empty_checked ≠ (EmptyString, false)
  ∧ ValueLookup "MISSING_VAR" empty_checked = (EmptyString, false).
Proof.
  pose proof (Value_reads_the_cache 0 test_env) as H.
  split; [exact reachable_empty_checked|].
  split; [|split; [|split]].
  - apply (proj1 (proj2 (H "NOT_EXISTS" empty_checked reachable_empty_checked))).
    vm_compute. reflexivity.
  - apply (proj1 (proj2 (proj2 (H "PRESENT_VAR" empty_checked
                                  reachable_empty_checked))
                    (loaded test_env present_var) ltac:(vm_compute; reflexivity))).
  - apply (proj1 (proj2 (proj2 (proj2 (H "EMPTY_VAR" empty_checked
                                         reachable_empty_checked))
                           (loaded test_env (required "EMPTY_VAR"))
                           ltac:(vm_compute; reflexivity)))).
    vm_compute. reflexivity.
  - apply (proj2 (proj2 (proj2 (proj2 (H "MISSING_VAR" empty_checked
                                         reachable_empty_checked))
                           (loaded test_env missing_var)
                           ltac:(vm_compute; reflexivity)))).
    vm_compute. reflexivity.
Defined.

(** The details column of a sensitive entry that carries no error: the
    description alone, or with the toggle the description and the mask
    followed by the last four bytes of the value. *)
Lemma classify_sensitive_without_error show res missing :
  Sensitive (Req res) = true → Err res = None → Present res = true →
  (classify show res missing).1
  = ("ok",
     if show
     then if (4 <=? String.length (Value res))%nat
          then Description (Req res) ++ " (value: " ++ mask
               ++ slice_last 4 (Value res) ++ ")"
          else Description (Req res) ++ " (value: " ++ mask ++ ")"
     else Description (Req res)).
Proof.
  intros Hs He Hp. unfold classify. rewrite Hs, He, Hp. simpl.
  destruct show; reflexivity.
Qed.

(** C6 fails on the code. A sensitive entry whose validator error quotes
    the value is reported with that error in the details column, so the
    report contains the raw value, with the toggle off and with it on. *)
Theorem Report_prints_sensitive_value_in_error :
  secret_results = [loaded test_env secret_var]
  ∧ Sensitive (Req (loaded test_env secret_var)) = true
  ∧ Value (loaded test_env secret_var) = secret_value
  ∧ (4 <? String.length secret_value)%nat = true
  ∧ Contains (Report test_env secret_results).1 secret_value = true
  ∧ Contains (Report show_values_env secret_results).1 secret_value = true.
Proof. repeat split; vm_compute; reflexivity. Qed.

(* ===================================================================== *)
(** * Concurrent callers                                                  *)
(* ===================================================================== *)

Lemma prepend_prepend {A} tr1 tr2 (o : Outcome A) :
  prepend tr1 (prepend tr2 o) = prepend (tr1 ++ tr2)%list o.
Proof. destruct o; simpl; rewrite ?app_assoc; reflexivity. Qed.

Lemma bind_prepend {A B} (m : M A) (k : A → M B) st :
  (m ≫= k) st =
    match m st with
    | Returned a st1 tr1 => prepend tr1 (k a st1)
    | Panicked msg st1 tr1 => Panicked msg st1 tr1
    | Exited code st1 tr1 => Exited code st1 tr1
    | OutOfFuel => OutOfFuel
    end.
Proof.
  unfold mbind, M_bind, bind, prepend. destruct (m st); reflexivity.
Qed.

Lemma bind_assoc {A B C} (m : M A) (k : A → M B) (h : B → M C) st :
  ((m ≫= k) ≫= h) st = (m ≫= (fun a => k a ≫= h)) st.
Proof.
  rewrite !bind_prepend. destruct (m st) as [a st1 tr1| | |]; try reflexivity.
  rewrite !bind_prepend.
  destruct (k a st1) as [b st2 tr2| | |]; simpl; try reflexivity.
  rewrite prepend_prepend. reflexivity.
Qed.

Lemma bind_mret_r {A} (m : M A) st : (m ≫= mret) st = m st.
Proof.
  rewrite bind_prepend. destruct (m st); try reflexivity.
  simpl. rewrite app_nil_r. reflexivity.
Qed.

Lemma bind_ext {A B} (m : M A) (k k' : A → M B) st :
  (∀ a st', k a st' = k' a st') → (m ≫= k) st = (m ≫= k') st.
Proof.
  intros H. rewrite !bind_prepend. destruct (m st); try reflexivity.
  rewrite H. reflexivity.
Qed.

Lemma dump_eq {A} checkAll env r st :
  @late_required_dump A checkAll env r st
  = match checkAll st with
    | Returned results st' tr =>
        Panicked (late_required_panic r) st'
          ([Log (late_required_msg r); Log state_dump_msg] ++ tr
           ++ [Stderr (Report env results).1])%list
    | Panicked msg st' tr =>
        Panicked msg st'
          ([Log (late_required_msg r); Log state_dump_msg] ++ tr)%list
    | Exited code st' tr =>
        Exited code st'
          ([Log (late_required_msg r); Log state_dump_msg] ++ tr)%list
    | OutOfFuel => OutOfFuel
    end.
Proof.
  unfold late_required_dump.
  rewrite (bind_Returned _ _ st tt st [Log (late_required_msg r)])
    by reflexivity.
  rewrite (bind_Returned _ _ st tt st [Log state_dump_msg]) by reflexivity.
  rewrite bind_prepend.
  destruct (checkAll st) as [results st' tr| | |]; reflexivity.
Qed.

(** The steps of a caller, as functions of the state. *)
Lemma step_AtMerge env r st :
  caller_step env (AtMerge r) st
  = Returned (AtCacheCheck (canonical st r))
             (set_reg (<[Name r := canonical st r]> (reg st)) st) [].
Proof.
  simpl. rewrite (bind_Returned _ _ _ _ _ _ (register_eq r st)). reflexivity.
Qed.

Lemma step_AtCacheCheck env r st :
  caller_step env (AtCacheCheck r) st
  = match cache st !! Name r with
    | Some cached => Returned (Done cached) st []
    | None => Returned (AtLookupEnv r) st []
    end.
Proof.
  simpl. rewrite (bind_Returned _ _ st (cache st !! Name r) st [])
    by reflexivity.
  destruct (cache st !! Name r); reflexivity.
Qed.

Lemma step_AtLookupEnv env r st :
  caller_step env (AtLookupEnv r) st
  = Returned (AtValidate r (loaded_value env r)) st [LookupEnv (Name r)].
Proof.
  simpl. rewrite (bind_Returned _ _ _ _ _ _ (lookup_or_default_eq env r st)).
  reflexivity.
Qed.

Lemma caller_run_Done n env res st :
  caller_run n env (Done res) st = Returned (Done res) st [].
Proof. induction n as [|n IH]; [reflexivity|]. simpl.
  rewrite (bind_Returned _ _ st (Done res) st []) by reflexivity.
  rewrite IH. reflexivity.
Qed.

Lemma step_AtValidate env r v st :
  caller_step env (AtValidate r v) st
  = Returned (AtStore (mkResult r v.2 v.1
                         match v.2, Validate r with
                         | true, Some f => f v.1
                         | _, _ => None
                         end))
             st
             match v.2, Validate r with
             | true, Some _ => [CallValidate (Name r) v.1]
             | _, _ => []
             end.
Proof.
  simpl. rewrite (bind_Returned _ _ _ _ _ _ (validate_if_present_eq r v st)).
  simpl. rewrite app_nil_r. reflexivity.
Qed.

Lemma step_AtStore env res st :
  caller_step env (AtStore res) st
  = Returned (Done res)
             (set_cache (<[Name (Req res) := res]> (cache st)) st) [].
Proof. reflexivity. Qed.

(** The first step of the dump: two log lines and the snapshot of
    [CheckAll]. *)
Lemma step_AtDump env r st :
  caller_step env (AtDump r) st
  = Returned (dump_next r (snapshot_split st).1 (snapshot_split st).2) st
             [Log (late_required_msg r); Log state_dump_msg].
Proof. reflexivity. Qed.

(** A step inside the loop of [CheckAll] is a step of the call of [Check]
    that is running. *)
Lemma step_AtDumpCheck env r out todo inner st :
  caller_step env (AtDumpCheck r out todo inner) st
  = match caller_step env inner st with
    | Returned inner' st' tr =>
        Returned match inner' with
                 | Done res => dump_next r (out ++ [res])%list todo
                 | _ => AtDumpCheck r out todo inner'
                 end st' tr
    | Panicked msg st' tr => Panicked msg st' tr
    | Exited code st' tr => Exited code st' tr
    | OutOfFuel => OutOfFuel
    end.
Proof.
  cbn [caller_step]. rewrite bind_prepend.
  destruct (caller_step env inner st) as [inner' st' tr| | |];
    try reflexivity.
  cbn. rewrite app_nil_r. reflexivity.
Qed.

(** The last step of the dump: the report, then the panic. *)
Lemma step_AtDumpReport env r results st :
  caller_step env (AtDumpReport r results) st
  = Panicked (late_required_panic r) st [Stderr (Report env results).1].
Proof. reflexivity. Qed.

Lemma dumping_dump_next r out todo : dumping (dump_next r out todo) = true.
Proof. destruct todo; reflexivity. Qed.

(** A caller in the dump stays in it until it panics: it never returns. *)
Lemma caller_step_dumping env c st c' st' tr :
  caller_step env c st = Returned c' st' tr →
  dumping c = true → dumping c' = true.
Proof.
  intros Hstep Hd. destruct c; try discriminate Hd.
  - rewrite step_AtDump in Hstep. injection Hstep as <- _ _.
    apply dumping_dump_next.
  - rewrite step_AtDumpCheck in Hstep.
    destruct (caller_step env c st) as [inner' st1 tr1| | |];
      try discriminate Hstep.
    injection Hstep as <- _ _.
    destruct inner'; try reflexivity. apply dumping_dump_next.
  - rewrite step_AtDumpReport in Hstep. discriminate Hstep.
Qed.

Lemma sched_step_dumping env i cs st cs' st' tr :
  sched_step env i cs st = Returned cs' st' tr →
  Forall (fun c => dumping c = false) cs' →
  Forall (fun c => dumping c = false) cs.
Proof.
  intros Hstep Hno. unfold sched_step in Hstep.
  destruct (cs !! i) as [c|] eqn:Hi;
    [|cbn in Hstep; injection Hstep as <- _ _; exact Hno].
  rewrite bind_prepend in Hstep.
  destruct (caller_step env c st) as [c' st1 tr1| | |] eqn:Hcs;
    try discriminate Hstep.
  cbn in Hstep. injection Hstep as <- _ _.
  rewrite Forall_lookup in Hno |- *. intros j cj Hj.
  destruct (decide (j = i)) as [->|Hne].
  - rewrite Hi in Hj. injection Hj as <-.
    destruct (dumping c) eqn:Hd; [|reflexivity].
    rewrite <- (caller_step_dumping _ _ _ _ _ _ Hcs Hd).
    apply (Hno i c').
    apply list_lookup_insert_eq. by eapply lookup_lt_Some.
  - apply (Hno j cj). by rewrite list_lookup_insert_ne.
Qed.

Lemma run_schedule_dumping env sched :
  ∀ cs st cs' st' tr,
    run_schedule env sched cs st = Returned cs' st' tr →
    Forall (fun c => dumping c = false) cs' →
    Forall (fun c => dumping c = false) cs.
Proof.
  induction sched as [|i sched IH]; intros cs st cs' st' tr Hrun Hno;
    cbn [run_schedule] in Hrun.
  - cbn in Hrun. injection Hrun as <- _ _. exact Hno.
  - rewrite bind_prepend in Hrun.
    destruct (sched_step env i cs st) as [cs1 st1 tr1| | |] eqn:Hstep;
      try discriminate Hrun.
    destruct (run_schedule env sched cs1 st1) as [cs2 st2 tr2| | |] eqn:Hrest;
      try discriminate Hrun.
    cbn in Hrun. injection Hrun as <- _ _.
    eapply sched_step_dumping; [exact Hstep|]. by eapply IH.
Qed.

Lemma caller_run_step k env c st c' st' tr :
  caller_step env c st = Returned c' st' tr →
  caller_run (S k) env c st = prepend tr (caller_run k env c' st').
Proof. intros H. cbn [caller_run]. by rewrite (bind_Returned _ _ _ _ _ _ H). Qed.

(** From the merge on, a caller alone does what [proceed] does. *)
Lemma caller_run_proceed n env r st :
  caller_run (5 + n) env (AtMerge r) st
  = (res ← proceed env r; mret (Done res)) st.
Proof.
  rewrite bind_prepend, proceed_eq. cbv zeta.
  change (5 + n) with (S (S (S (S (S n))))).
  rewrite (caller_run_step _ _ _ _ _ _ _ (step_AtMerge env r st)).
  set (R := canonical st r). set (st1 := set_reg _ st).
  pose proof (step_AtCacheCheck env R st1) as Hc.
  change (cache st1) with (cache st) in Hc.
  destruct (cache st !! Name R) as [cached|].
  - rewrite (caller_run_step _ _ _ _ _ _ _ Hc), caller_run_Done. reflexivity.
  - rewrite (caller_run_step _ _ _ _ _ _ _ Hc).
    rewrite (caller_run_step _ _ _ _ _ _ _ (step_AtLookupEnv env R st1)).
    rewrite (caller_run_step _ _ _ _ _ _ _ (step_AtValidate env R _ st1)).
    rewrite (caller_run_step _ _ _ _ _ _ _ (step_AtStore env _ st1)).
    rewrite caller_run_Done. unfold loaded, load_trace. simpl.
    rewrite !app_nil_r. reflexivity.
Qed.

(** A caller alone that passes the gate, from its first step to its last,
    is a call of Check. *)
Lemma caller_run_Check n env r st :
  gate_blocks st r = false →
  caller_run (7 + n) env (AtGate r) st
  = (res ← Check 2 env r; mret (Done res)) st.
Proof.
  intros Hb.
  change (7 + n) with (S (S (5 + n))).
  assert (caller_step env (AtGate r) st
          = Returned (if frozen st then AtGateLookup r else AtMerge r) st [])
    as Hgate by reflexivity.
  rewrite (caller_run_step _ _ _ _ _ _ _ Hgate), prepend_nil.
  rewrite bind_prepend.
  rewrite (gate_passes _ _ _ _ Hb).
  pose proof (caller_run_proceed n env r st) as Hp.
  rewrite bind_prepend in Hp.
  destruct (proceed_returns env r st) as (res & st' & tr & Hpr & _).
  rewrite Hpr in Hp |- *. simpl prepend at 2.
  unfold gate_blocks, gate_trace in *.
  destruct (frozen st) eqn:Hfr; cbn [andb negb] in *.
  + assert (caller_step env (AtGateLookup r) st
            = Returned (AtMerge r) st
                (if bool_decide (is_Some (reg st !! Name r)) then []
                 else [Log (late_optional_msg r)])) as Hlook.
    { simpl. rewrite (bind_Returned _ _ st (reg st !! Name r) st [])
        by reflexivity.
      destruct (reg st !! Name r) eqn:E.
      - rewrite bool_decide_eq_true_2 by eauto. reflexivity.
      - rewrite bool_decide_eq_false_2 in * by (intros [? ?]; congruence).
        simpl in Hb. apply negb_false_iff in Hb. rewrite Hb. reflexivity. }
    rewrite (caller_run_step _ _ _ _ _ _ _ Hlook), Hp.
    destruct (bool_decide (is_Some (reg st !! Name r))); cbn [andb negb] in *.
    * reflexivity.
    * apply negb_false_iff in Hb. rewrite Hb. reflexivity.
  + change (S (5 + n)) with (5 + S n).
    rewrite caller_run_proceed, bind_prepend, Hpr. reflexivity.
Qed.

Lemma caller_run_add a b env :
  ∀ c st,
    caller_run (a + b) env c st
    = (c' ← caller_run a env c; caller_run b env c') st.
Proof.
  induction a as [|a IH]; intros c st; cbn [caller_run Nat.add].
  - rewrite (bind_Returned _ _ st c st []) by reflexivity.
    by rewrite prepend_nil.
  - rewrite bind_assoc. apply bind_ext. intros c' st'. apply IH.
Qed.

(** Inside the loop of [CheckAll], the steps of the running call of
    [Check] up to its return move the loop to its next round. *)
Lemma dump_inner_run env r out todo :
  ∀ k inner st res st1 tr1,
    (∀ res', inner ≠ Done res') →
    caller_run k env inner st = Returned (Done res) st1 tr1 →
    ∃ j, caller_run j env (AtDumpCheck r out todo inner) st
         = Returned (dump_next r (out ++ [res]) todo) st1 tr1.
Proof.
  induction k as [|k IH]; intros inner st res st1 tr1 Hnd Hrun.
  - cbn in Hrun. injection Hrun as -> _ _. by destruct (Hnd res).
  - cbn [caller_run] in Hrun. rewrite bind_prepend in Hrun.
    destruct (caller_step env inner st) as [inner' st' tr'| | |] eqn:Hs;
      try discriminate Hrun.
    pose proof (step_AtDumpCheck env r out todo inner st) as Hstep.
    rewrite Hs in Hstep.
    assert ((∃ res', inner' = Done res') ∨ (∀ res', inner' ≠ Done res'))
      as [[res' ->]|Hnd']
      by (destruct inner'; eauto; right; intros res'; discriminate).
    + rewrite caller_run_Done in Hrun. cbn in Hrun.
      injection Hrun as -> -> <-. exists 1.
      rewrite (caller_run_step 0 _ _ _ _ _ _ Hstep). reflexivity.
    + destruct (caller_run k env inner' st') as [c2 st2 tr2| | |] eqn:Hrest;
        try discriminate Hrun.
      cbn in Hrun. injection Hrun as -> -> <-.
      destruct (IH inner' st' res st1 tr2 Hnd' Hrest) as [j Hj].
      exists (S j).
      assert (match inner' with
              | Done res0 => dump_next r (out ++ [res0]) todo
              | _ => AtDumpCheck r out todo inner'
              end = AtDumpCheck r out todo inner') as Hm
        by (destruct inner'; try reflexivity; by destruct (Hnd' res0)).
      rewrite Hm in Hstep.
      rewrite (caller_run_step j _ _ _ _ _ _ Hstep), Hj. reflexivity.
Qed.

(** The loop of [CheckAll] inside the dump, the report and the panic, by
    one caller alone, are the loop of the sequential [CheckAll], the
    report and the panic. *)
Lemma caller_run_dump_loop env r :
  ∀ todo out st,
    wf st →
    (∀ req, req ∈ todo → is_Some (reg st !! Name req)) →
    ∃ n, ∀ m,
      caller_run (n + m) env (dump_next r out todo) st
      = (results ← for_append (Check 1 env) todo out;
         emit (Stderr (Report env (sort_by_name results)).1);;
         panic (late_required_panic r)) st.
Proof.
  induction todo as [|req rest IH]; intros out st Hwf Hreg.
  - exists 1. intros m. cbn [dump_next Nat.add caller_run for_append].
    rewrite bind_prepend, step_AtDumpReport. reflexivity.
  - assert (is_Some (reg st !! Name req)) as Hr by (apply Hreg; by left).
    destruct (proceed_returns env req st) as (res & st1 & tr1 & Hp & Hreg1 & _).
    pose proof (wf_proceed env req st Hwf) as Hwf1. rewrite Hp in Hwf1.
    cbn [state_after] in Hwf1.
    assert (caller_run 7 env (AtGate req) st
            = Returned (Done res) st1 (tr1 ++ [])%list) as Hinner.
    { change 7 with (7 + 0).
      rewrite (caller_run_Check 0 env req st)
        by apply (gate_open_registered st req Hr).
      rewrite bind_prepend, (Check_registered 1 env req st Hr), Hp.
      reflexivity. }
    destruct (dump_inner_run env r out rest 7 (AtGate req) st res st1 _
                ltac:(intros res'; discriminate) Hinner) as [j Hj].
    destruct (IH (out ++ [res])%list st1 Hwf1) as [n Hn].
    { intros req' Hin. rewrite Hreg1.
      destruct (decide (Name req = Name req')) as [->|Hne].
      - rewrite lookup_insert_eq. eauto.
      - rewrite lookup_insert_ne by exact Hne. apply Hreg. by right. }
    exists (j + n). intros m. cbn [dump_next].
    rewrite <- Nat.add_assoc, caller_run_add.
    rewrite (bind_Returned _ _ _ _ _ _ Hj), Hn.
    cbn [for_append]. rewrite bind_assoc.
    rewrite (bind_Returned _ _ st res st1 tr1)
      by (rewrite (Check_registered 0 env req st Hr); exact Hp).
    rewrite app_nil_r. reflexivity.
Qed.

(** A caller alone whose declaration the gate blocks does what the
    sequential [Check] does: the two log lines, [CheckAll], the report and
    the panic. *)
Lemma caller_run_dump env r st :
  wf st → gate_blocks st r = true →
  ∃ n, ∀ m,
    caller_run (n + m) env (AtGate r) st
    = (res ← Check 2 env r; mret (Done res)) st.
Proof.
  intros Hwf Hb.
  destruct (caller_run_dump_loop env r (snapshot_split st).2
              (snapshot_split st).1 st Hwf) as [n Hn].
  { intros req Hin. apply snapshot_split_unchecked in Hin as (k & Hk & _).
    destruct Hwf as [Hreg _]. rewrite (Hreg _ _ Hk). eauto. }
  exists (3 + n). intros m.
  rewrite bind_prepend, (gate_blocks_dump _ _ _ _ Hb), dump_eq.
  unfold gate_blocks in Hb.
  apply andb_true_iff in Hb as [Hb Hopt]. apply andb_true_iff in Hb as [Hfr Hreg].
  apply negb_true_iff in Hopt. apply negb_true_iff in Hreg.
  apply bool_decide_eq_false in Hreg.
  assert (reg st !! Name r = None) as Hnone.
  { destruct (reg st !! Name r) eqn:E; [exfalso; apply Hreg; eauto | done]. }
  assert (caller_step env (AtGate r) st
          = Returned (if frozen st then AtGateLookup r else AtMerge r) st [])
    as Hgate by reflexivity.
  rewrite Hfr in Hgate.
  assert (caller_step env (AtGateLookup r) st = Returned (AtDump r) st [])
    as Hlook.
  { simpl. rewrite (bind_Returned _ _ st (reg st !! Name r) st [])
      by reflexivity.
    rewrite Hnone, Hopt. reflexivity. }
  change (3 + n + m) with (S (S (S (n + m)))).
  rewrite (caller_run_step _ _ _ _ _ _ _ Hgate), prepend_nil.
  rewrite (caller_run_step _ _ _ _ _ _ _ Hlook), prepend_nil.
  rewrite (caller_run_step _ _ _ _ _ _ _ (step_AtDump env r st)), Hn.
  unfold CheckAll, CheckAll_with.
  rewrite (bind_Returned _ _ st (snapshot_split st) st []) by reflexivity.
  rewrite !bind_prepend.
  destruct (for_append (Check 1 env) (snapshot_split st).2
              (snapshot_split st).1 st) as [out st' tr| | |];
    cbn; rewrite ?app_nil_r; reflexivity.
Qed.

(** A caller alone, from its first step to its last, is a call of Check,
    whether it returns or panics. *)
Lemma caller_alone_is_Check env r st :
  wf st →
  ∃ n, ∀ m,
    caller_run (n + m) env (AtGate r) st
    = (res ← Check 2 env r; mret (Done res)) st.
Proof.
  intros Hwf. destruct (gate_blocks st r) eqn:Hb.
  - by apply caller_run_dump.
  - exists 7. intros m. by apply caller_run_Check.
Qed.

Lemma run_schedule_app env s1 :
  ∀ s2 cs st,
    run_schedule env (s1 ++ s2)%list cs st
    = (cs' ← run_schedule env s1 cs; run_schedule env s2 cs') st.
Proof.
  induction s1 as [|i s1 IH]; intros s2 cs st; cbn [app run_schedule].
  - rewrite (bind_Returned _ _ st cs st []) by reflexivity.
    by rewrite prepend_nil.
  - rewrite bind_assoc. apply bind_ext. intros cs' st'. apply IH.
Qed.

(** Steps of one caller in a row are a run of that caller. *)
Lemma run_schedule_replicate env i n :
  ∀ cs c st,
    cs !! i = Some c →
    run_schedule env (replicate n i) cs st
    = (c' ← caller_run n env c; mret (<[i := c']> cs)) st.
Proof.
  induction n as [|n IH]; intros cs c st Hi; cbn [replicate run_schedule caller_run].
  - rewrite (bind_Returned _ _ st c st []) by reflexivity.
    rewrite list_insert_id by exact Hi. reflexivity.
  - unfold sched_step. rewrite Hi. rewrite !bind_assoc.
    apply bind_ext. intros c1 st1.
    rewrite (bind_Returned _ _ st1 (<[i := c1]> cs) st1 []) by reflexivity.
    rewrite prepend_nil.
    rewrite (IH (<[i := c1]> cs) c1).
    + apply bind_ext. intros c2 st2. by rewrite list_insert_insert_eq.
    + apply list_lookup_insert_eq. by eapply lookup_lt_Some.
Qed.

(** The steps of one caller, not interrupted, are a call of Check. *)
Lemma whole_call env i cs r st :
  cs !! i = Some (AtGate r) →
  gate_blocks st r = false →
  run_schedule env (replicate steps_of_Check i) cs st
  = (res ← Check 2 env r; mret (<[i := Done res]> cs)) st.
Proof.
  intros Hi Hb. rewrite (run_schedule_replicate env i _ cs _ st Hi).
  rewrite !bind_prepend.
  change steps_of_Check with (7 + 0).
  rewrite (caller_run_Check 0 env r st Hb), bind_prepend.
  destruct (Check 2 env r st); try reflexivity.
  cbn. rewrite !app_nil_r. reflexivity.
Qed.

(** Callers that start one after the other on a resolved name. *)
Lemma serial_cached env N res rs :
  ∀ pre st,
    wf st → cache st !! N = Some res →
    Forall (fun r => Name r = N) rs →
    ∃ st',
      run_schedule env (serial_from (length pre) (length rs))
                   (pre ++ map AtGate rs)%list st
      = Returned (pre ++ map (fun _ => Done res) rs)%list st' []
      ∧ wf st' ∧ cache st' !! N = Some res.
Proof.
  induction rs as [|r rs IH]; intros pre st Hwf Hc Hall.
  - exists st. split; [reflexivity | split; assumption].
  - apply Forall_cons in Hall as [Hr Hall].
    cbn [length serial_from map].
    assert ((pre ++ AtGate r :: map AtGate rs)%list !! length pre
            = Some (AtGate r)) as Hi by apply list_lookup_middle, eq_refl.
    assert (gate_blocks st r = false) as Hb.
    { apply gate_open_registered. rewrite Hr.
      exact (proj2 (proj2 Hwf N res Hc)). }
    rewrite run_schedule_app, bind_prepend, (whole_call _ _ _ _ _ Hi Hb).
    rewrite bind_prepend.
    rewrite (Check_cached 1 env r st res Hwf) by (rewrite Hr; exact Hc).
    cbn [prepend mret M_ret ret app].
    set (st1 := set_reg _ st).
    replace (<[length pre := Done res]> (pre ++ AtGate r :: map AtGate rs)%list)
      with ((pre ++ [Done res]) ++ map AtGate rs)%list.
    2:{ rewrite insert_app_r_alt, Nat.sub_diag by lia.
        rewrite <- app_assoc. reflexivity. }
    destruct (IH (pre ++ [Done res])%list st1) as (st' & Hrun & Hwf' & Hc');
      [apply wf_register, Hwf | exact Hc | exact Hall |].
    rewrite length_app, Nat.add_1_r in Hrun. rewrite Hrun.
    exists st'. rewrite <- app_assoc. split; [reflexivity | split; assumption].
Qed.

(** C8, as stated, fails: the cache lookup, the resolution and the cache
    store of Check are separate steps. Two callers that declare the same
    name with the same Requirement and overlap both read the environment
    and both run the validator; two that overlap with different
    declarations return different Results. *)
Lemma overlapping_callers_resolve_twice :
  (∃ res st' tr,
     run_schedule test_env overlap [AtGate invalid_var; AtGate invalid_var] init
     = Returned [Done res; Done res] st' tr
     ∧ lookups "INVALID_VAR" tr = 2
     ∧ validations "INVALID_VAR" tr = 2)
  ∧ (∃ res0 res1 st' tr,
       run_schedule test_env overlap
                    [AtGate (required "PORT"); AtGate port_default] init
       = Returned [Done res0; Done res1] st' tr
       ∧ lookups "PORT" tr = 2
       ∧ Present res0 = false ∧ Present res1 = true
       ∧ res0 ≠ res1).
Proof.
  split.
  - do 3 eexists. split; [vm_compute; reflexivity|].
    split; vm_compute; reflexivity.
  - do 4 eexists. split; [vm_compute; reflexivity|].
    split; [vm_compute; reflexivity|].
    split; [reflexivity|]. split; [reflexivity|].
    intros H. apply (f_equal Present) in H. discriminate H.
Qed.

(** C8, amended. Callers of Check for one name [N] that has no cached
    Result, the first of which passes the gate, and that run one after the
    other, each from its first step to its last before the next starts:
    all return, with the same Result; the environment is read once for
    [N] and the validator is called at most once; the Result is cached. *)
Theorem serial_callers_resolve_once :
  ∀ (env : Env) (N : string) (r : Requirement) (rs : list Requirement)
    (st : State),
    reachable st →
    cache st !! N = None →
    Forall (fun r' => Name r' = N) (r :: rs) →
    gate_blocks st r = false →
    ∃ res st' tr,
      run_schedule env (serial (length (r :: rs))) (map AtGate (r :: rs)) st
      = Returned (map (fun _ => Done res) (r :: rs)) st' tr
      ∧ lookups N tr = 1
      ∧ validations N tr <= 1
      ∧ cache st' !! N = Some res.
Proof.
  intros env N r rs st Hreach Hmiss Hall Hgate.
  pose proof (reachable_wf st Hreach) as Hwf.
  apply Forall_cons in Hall as [Hr Hall]. subst N.
  pose proof (canonical_Name st r Hwf) as HN.
  set (R := canonical st r) in *.
  assert (Check 2 env r st
          = Returned (loaded env R)
              (set_cache (<[Name R := loaded env R]> (cache st))
                         (set_reg (<[Name r := R]> (reg st)) st))
              (gate_trace st r ++ load_trace env R)%list) as HC.
  { rewrite (gate_passes _ _ _ _ Hgate), proceed_eq. cbv zeta. fold R.
    rewrite HN, Hmiss. reflexivity. }
  pose proof (wf_proceed env r st Hwf) as Hwf1.
  rewrite proceed_eq in Hwf1. cbv zeta in Hwf1. fold R in Hwf1.
  rewrite HN, Hmiss in Hwf1. cbn [state_after] in Hwf1.
  rewrite <- HN in Hwf1 at 1.
  set (st1 := set_cache _ _) in *.
  assert (cache st1 !! Name r = Some (loaded env R)) as Hc1.
  { unfold st1. simpl. rewrite HN. apply lookup_insert_eq. }
  destruct (serial_cached env (Name r) (loaded env R) rs [Done (loaded env R)]
              st1 Hwf1 Hc1 Hall) as (st' & Hrun & _ & Hc').
  exists (loaded env R), st', (gate_trace st r ++ load_trace env R)%list.
  split; [|split; [|split; [|exact Hc']]].
  - unfold serial. cbn [length serial_from map].
    rewrite run_schedule_app, bind_prepend.
    rewrite (whole_call env 0 (AtGate r :: map AtGate rs) r st eq_refl Hgate).
    rewrite bind_prepend, HC. cbn [prepend mret M_ret ret].
    cbn [length app] in Hrun.
    change (<[0 := Done (loaded env R)]> (AtGate r :: map AtGate rs))
      with (Done (loaded env R) :: map AtGate rs).
    rewrite Hrun. cbn [prepend]. rewrite !app_nil_r. reflexivity.
  - rewrite lookups_app, (proj1 (gate_trace_quiet _ _ _)).
    rewrite <- HN. apply load_trace_counts.
  - rewrite validations_app, (proj2 (gate_trace_quiet _ _ _)).
    rewrite <- HN, (proj2 (load_trace_counts env R)).
    destruct (loaded_value env R).2, (Validate R); simpl; lia.
Qed.

Lemma serial_callers_resolve_once_witness :
  reachable init
  ∧ cache init !! "INVALID_VAR" = None
  ∧ Forall (fun r' => Name r' = "INVALID_VAR") [invalid_var; invalid_var]
  ∧ gate_blocks init invalid_var = false
  ∧ ∃ res st' tr,
      run_schedule test_env (serial 2) [AtGate invalid_var; AtGate invalid_var]
                   init
      = Returned [Done res; Done res] st' tr
      ∧ lookups "INVALID_VAR" tr = 1
      ∧ validations "INVALID_VAR" tr <= 1
      ∧ cache st' !! "INVALID_VAR" = Some res.
Proof.
  assert (Forall (fun r' => Name r' = "INVALID_VAR") [invalid_var; invalid_var])
    as Hall by (repeat constructor).
  split; [apply reachable_init|]. split; [reflexivity|].
  split; [exact Hall|]. split; [reflexivity|].
  exact (serial_callers_resolve_once test_env "INVALID_VAR" invalid_var
           [invalid_var] init reachable_init eq_refl Hall eq_refl).
Defined.

(* ===================================================================== *)
(** * The validators Port, OneOf and Base64                              *)
(* ===================================================================== *)

Lemma reachable_one_checked_later : reachable one_checked_later.
Proof.
  apply (reachable_call
           (state_of (Check 1 test_env present_var_again one_checked))
           1 test_env OpFreeze); [|vm_compute; reflexivity].
  apply (reachable_call one_checked 1 test_env (OpCheck present_var_again));
    [exact reachable_one_checked | vm_compute; reflexivity].
Defined.

Lemma Port_digits v :
  all_digits v = true →
  (Port v = None ↔ port_out_of_range v = false).
Proof.
  intros Hd. unfold Port, port_out_of_range. rewrite Hd.
  destruct (is_empty v) eqn:He; [split; discriminate|].
  assert ((String.length v =? 0)%nat = false) as H0.
  { destruct v; [discriminate He | reflexivity]. }
  rewrite H0. cbn [orb negb].
  destruct (5 <? String.length v)%nat; [split; discriminate|]. cbn [orb].
  destruct (String.eqb v "0"); [split; discriminate|]. cbn [orb].
  destruct (_ && _); split; intros H; try discriminate H; reflexivity.
Qed.

Lemma ltb_65535 v :
  String.length v = 5 → all_digits v = true →
  String.ltb "65535" v = (65535 <? decimal_value v)%Z.
Proof.
  intros H5 Hd. unfold String.ltb.
  rewrite (compare_digits "65535" v) by (rewrite ?H5; reflexivity || exact Hd).
  change (decimal_value "65535") with 65535%Z. unfold Z.ltb. reflexivity.
Qed.

(** X1. Port accepts exactly the strings of one to five decimal digits,
    other than the one-character string 0, whose value in base ten is at
    most 65535.  Leading zeros pass, and so does a string of two to five
    zeros, whose value is 0: only the string 0 itself is refused as
    zero. *)
Theorem Port_accepts_iff :
  ∀ v : string,
    Port v = None
    ↔ all_digits v = true
      ∧ 1 <= String.length v <= 5
      ∧ v ≠ "0"
      ∧ (decimal_value v <= 65535)%Z.
Proof.
  intros v.
  destruct (all_digits v) eqn:Hd.
  2:{ split; [|intros [H _]; discriminate H].
      unfold Port. rewrite Hd. intros HP.
      destruct (is_empty v); [discriminate HP|].
      destruct (_ || _); discriminate HP. }
  rewrite (Port_digits v Hd). unfold port_out_of_range.
  pose proof (decimal_value_bound v Hd) as Hb.
  destruct (Nat.eq_dec (String.length v) 5) as [H5|H5].
  - rewrite (ltb_65535 v H5 Hd), H5.
    replace (is_empty v) with false by (destruct v; [discriminate H5|reflexivity]).
    cbn [Nat.ltb Nat.leb Nat.eqb orb andb].
    destruct (String.eqb_spec v "0") as [->|Hz]; [discriminate H5|].
    cbn [orb]. rewrite Z.ltb_ge. split; [intros H|intros (_ & _ & _ & H)].
    + repeat split; try lia; assumption.
    + exact H.
  - replace (String.length v =? 5)%nat with false
      by (symmetry; by apply Nat.eqb_neq).
    cbn [andb]. rewrite orb_false_r.
    split.
    + intros H. apply orb_false_iff in H as [H Hz].
      apply orb_false_iff in H as [He Hl].
      apply Nat.ltb_ge in Hl. apply String.eqb_neq in Hz.
      assert (String.length v ≠ 0) by (destruct v; [discriminate He|discriminate]).
      assert (10 ^ Z.of_nat (String.length v) <= 10 ^ 4)%Z
        by (apply Z.pow_le_mono_r; lia).
      repeat split; try lia; assumption.
    + intros (_ & Hlen & Hz & _).
      replace (is_empty v) with false
        by (destruct v; [simpl in Hlen; lia | reflexivity]).
      replace (5 <? String.length v)%nat with false
        by (symmetry; apply Nat.ltb_ge; lia).
      replace (String.eqb v "0") with false
        by (symmetry; by apply String.eqb_neq).
      reflexivity.
Qed.

Ltac eval_digit :=
  match goal with
  | |- context [digit_value ?c] =>
      let v := eval vm_compute in (digit_value c) in
      change (digit_value c) with v
  end.

(** What [%d] prints is made of digits and writes the number. *)
Lemma string_of_uint_digits d :
  all_digits (NilEmpty.string_of_uint d) = true.
Proof. induction d; simpl; try assumption; reflexivity. Qed.

Lemma string_of_uint_acc d :
  ∀ acc : positive,
    decimal_value_from (Zpos acc) (NilEmpty.string_of_uint d)
    = Zpos (Pos.of_uint_acc d acc).
Proof.
  induction d; intros acc; cbn [NilEmpty.string_of_uint decimal_value_from
                                 Pos.of_uint_acc];
    try reflexivity;
    rewrite <- IHd; f_equal; eval_digit; lia.
Qed.

Lemma string_of_uint_value d :
  decimal_value (NilEmpty.string_of_uint d) = Z.of_uint d.
Proof.
  unfold decimal_value, Z.of_uint.
  induction d; cbn [NilEmpty.string_of_uint decimal_value_from Pos.of_uint];
    try reflexivity;
    eval_digit; rewrite Z.mul_0_r, Z.add_0_l; cbn [Z.of_N];
    first [exact IHd | rewrite string_of_uint_acc; reflexivity].
Qed.

Lemma decimal_writes z :
  (0 <= z)%Z →
  all_digits (decimal z) = true ∧ decimal_value (decimal z) = z.
Proof.
  intros Hz. unfold decimal.
  pose proof (DecimalZ.of_to z) as Hof.
  destruct z as [|p|p]; [split; reflexivity| |lia].
  cbn [Z.to_int NilZero.string_of_int] in *.
  assert (NilZero.string_of_uint (Pos.to_uint p)
          = NilEmpty.string_of_uint (Pos.to_uint p)) as ->.
  { pose proof (Unsigned.to_uint_nonnil p).
    destruct (Pos.to_uint p); [congruence|reflexivity..]. }
  split; [apply string_of_uint_digits|].
  rewrite string_of_uint_value. exact Hof.
Qed.

(** A numeral that starts with a digit other than 0 is at least a power
    of ten. *)
Lemma leading_digit_bound c s :
  is_digit c = true → c ≠ "0"%char → all_digits s = true →
  (10 ^ Z.of_nat (String.length s) <= decimal_value (String c s))%Z.
Proof.
  intros Hc Hnz Hs. rewrite decimal_value_cons.
  pose proof (decimal_value_bound s Hs) as Hb.
  pose proof (digit_value_range c Hc) as Hd.
  assert (digit_value c ≠ 0)%Z as Hd0.
  { unfold digit_value. intros H. apply Hnz.
    rewrite <- (ascii_nat_embedding c).
    replace (nat_of_ascii c) with 48 by lia. reflexivity. }
  nia.
Qed.

Lemma to_uint_leading p :
  ∃ c s, NilEmpty.string_of_uint (Pos.to_uint p) = String c s
         ∧ c ≠ "0"%char.
Proof.
  pose proof (Unsigned.to_of (Pos.to_uint p)) as Hn.
  rewrite Unsigned.of_to in Hn. cbn [N.to_uint] in Hn.
  pose proof (Unsigned.to_uint_nonnil p) as Hnil.
  pose proof (Unsigned.to_uint_nonzero p) as Hnz.
  destruct (Pos.to_uint p) as [|u|u|u|u|u|u|u|u|u|u] eqn:E;
    [congruence| |cbn [NilEmpty.string_of_uint]; do 2 eexists;
                  (split; [reflexivity|intros Hc; discriminate Hc])..].
  exfalso. rewrite unorm_D0 in Hn.
  assert (u ≠ Decimal.Nil) as Hu by congruence.
  pose proof (nb_digits_unorm u Hu) as Hle.
  rewrite <- Hn in Hle. cbn [Decimal.nb_digits] in Hle. lia.
Qed.

(** X2. On the numeral that the verb d prints for a non-negative integer
    [z], Port returns nil exactly when [z] is between 1 and 65535. *)
Theorem Port_accepts_printed_ports :
  ∀ z : Z,
    (0 <= z)%Z →
    (Port (decimal z) = None ↔ (1 <= z <= 65535)%Z).
Proof.
  intros z Hz. destruct (decimal_writes z Hz) as [Hd Hv].
  destruct (Z.eq_dec z 0%Z) as [->|Hnz].
  { split; [intros H; vm_compute in H; discriminate H | lia]. }
  assert (∃ c s, decimal z = String c s ∧ c ≠ "0"%char) as (c & s & Hcs & Hc).
  { unfold decimal. destruct z as [|p|p]; try lia.
    cbn [Z.to_int NilZero.string_of_int].
    destruct (to_uint_leading p) as (c & s & E & Hc). exists c, s.
    split; [|exact Hc]. rewrite <- E.
    pose proof (Unsigned.to_uint_nonnil p).
    destruct (Pos.to_uint p); [congruence|reflexivity..]. }
  rewrite (Port_digits _ Hd). unfold port_out_of_range.
  pose proof (decimal_value_bound _ Hd) as Hb. rewrite Hv in Hb.
  assert (String.eqb (decimal z) "0" = false) as ->.
  { apply String.eqb_neq. rewrite Hcs. congruence. }
  assert (is_empty (decimal z) = false) as -> by (rewrite Hcs; reflexivity).
  assert (10 ^ Z.of_nat (String.length (decimal z) - 1) <= z)%Z as Hlow.
  { rewrite Hcs in Hd |- *. cbn [all_digits] in Hd.
    apply andb_true_iff in Hd as [Hdc Hds].
    pose proof (leading_digit_bound c s Hdc Hc Hds) as Hlow.
    rewrite <- Hcs, Hv in Hlow. cbn [String.length].
    replace (S (String.length s) - 1) with (String.length s) by lia.
    exact Hlow. }
  cbn [orb]. rewrite orb_false_r.
  destruct (Nat.eq_dec (String.length (decimal z)) 5) as [H5|H5].
  - rewrite (ltb_65535 _ H5 Hd), Hv, H5.
    cbn [Nat.ltb Nat.leb Nat.eqb orb andb]. rewrite Z.ltb_ge. lia.
  - replace (String.length (decimal z) =? 5)%nat with false
      by (symmetry; by apply Nat.eqb_neq).
    cbn [andb]. rewrite orb_false_r, Nat.ltb_ge.
    split.
    + intros Hl.
      assert (10 ^ Z.of_nat (String.length (decimal z)) <= 10 ^ 4)%Z
        by (apply Z.pow_le_mono_r; lia).
      lia.
    + intros Hr.
      destruct (le_lt_dec (String.length (decimal z)) 5) as [Hle|Hgt];
        [exact Hle|exfalso].
      assert (10 ^ 5 <= 10 ^ Z.of_nat (String.length (decimal z) - 1))%Z
        by (apply Z.pow_le_mono_r; lia).
      lia.
Qed.

Lemma Port_accepts_printed_ports_witness :
  (0 <= 8080)%Z ∧ Port (decimal 8080) = None.
Proof.
  assert (0 <= 8080)%Z as H by lia.
  split; [exact H|].
  apply (proj2 (Port_accepts_printed_ports 8080 H)). lia.
Defined.

(** X3. The validator that [OneOf options] returns accepts [v] exactly
    when [v] is one of the options, compared bytewise; for every other
    value its error is the fixed text followed by the options joined by a
    comma and a space, whatever [v] is.  With no option it accepts
    nothing. *)
Theorem OneOf_accepts_iff :
  ∀ (options : list string) (v : string),
    (OneOf options v = None ↔ v ∈ options)
    ∧ (v ∉ options →
       OneOf options v
       = Some (Errorf ("must be one of: " ++ Join options ", "))).
Proof.
  intros options v.
  assert (one_of_loop v options = true ↔ v ∈ options) as Hloop.
  { induction options as [|o options IH]; cbn [one_of_loop].
    - split; [discriminate | intros H; by apply elem_of_nil in H].
    - destruct (String.eqb_spec v o) as [->|Hne].
      + split; [intros _; by left | reflexivity].
      + rewrite IH. split; [intros H; by right|].
        intros H. apply elem_of_cons in H as [H|H]; [congruence | exact H]. }
  unfold OneOf. destruct (one_of_loop v options) eqn:E; split.
  - split; [intros _; by apply Hloop | reflexivity].
  - intros Hn. exfalso. apply Hn, Hloop. reflexivity.
  - split; [discriminate|]. intros H. apply Hloop in H. discriminate H.
  - reflexivity.
Qed.

Lemma Base64_None v :
  Base64 v = None
  ↔ v ≠ EmptyString ∧ all_base64 v = true ∧ Count v "=" <= 2.
Proof.
  unfold Base64. destruct v as [|c v]; [split; [discriminate|intros [H _]; congruence]|].
  cbn [is_empty String.eqb].
  destruct (all_base64 (String c v)); cbn [negb];
    [|split; [discriminate | intros (_ & H & _); discriminate H]].
  destruct (Nat.ltb_spec 2 (Count (String c v) "=")) as [Hgt|Hle]; split.
  - discriminate.
  - intros (_ & _ & H'). lia.
  - intros _. split; [discriminate|]. split; [reflexivity | exact Hle].
  - reflexivity.
Qed.

Lemma all_base64_substring v :
  ∀ n m, all_base64 v = true → all_base64 (substring n m v) = true.
Proof.
  induction v as [|c v IH]; intros n m H.
  - destruct n, m; reflexivity.
  - cbn [all_base64] in H. apply andb_true_iff in H as [Hc Hv].
    destruct n as [|n]; cbn [substring].
    + destruct m as [|m]; [reflexivity|]. cbn [all_base64].
      rewrite Hc. apply (IH 0 m Hv).
    + apply IH, Hv.
Qed.

Lemma Count_substring v sep :
  ∀ n m, Count (substring n m v) sep <= Count v sep.
Proof.
  induction v as [|c v IH]; intros n m.
  - destruct n, m; cbn; lia.
  - destruct n as [|n]; cbn [substring].
    + destruct m as [|m]; cbn [Count]; [lia|]. specialize (IH 0 m). lia.
    + cbn [Count]. specialize (IH n m). lia.
Qed.

(** X4. Base64 looks at the alphabet and at the number of = signs only:
    every non-empty contiguous piece of a value it accepts is accepted as
    well, wherever the piece is cut, so neither the length nor the place
    of the padding is checked. *)
Theorem Base64_accepts_every_piece :
  ∀ (v : string) (n m : nat),
    Base64 v = None →
    substring n m v ≠ EmptyString →
    Base64 (substring n m v) = None.
Proof.
  intros v n m Hv Hne. apply Base64_None in Hv as (_ & Hall & Hcount).
  apply Base64_None. split; [exact Hne|]. split.
  - by apply all_base64_substring.
  - pose proof (Count_substring v "=" n m). lia.
Qed.

Lemma Base64_accepts_every_piece_witness :
  Base64 "aGVsbG8=" = None
  ∧ substring 0 4 "aGVsbG8=" ≠ EmptyString
  ∧ Base64 "aGVs" = None.
Proof.
  assert (substring 0 4 "aGVsbG8=" ≠ EmptyString) as H by discriminate.
  split; [reflexivity|]. split; [exact H|].
  exact (Base64_accepts_every_piece "aGVsbG8=" 0 4 eq_refl H).
Defined.


(* ===================================================================== *)
(** * What the registry keeps from call to call                          *)
(* ===================================================================== *)

Lemma is_empty_false s : is_empty s = false ↔ s ≠ EmptyString.
Proof. unfold is_empty. apply String.eqb_neq. Qed.

Lemma extends_refl R : extends R R.
Proof. unfold extends. repeat split; auto. Qed.

Lemma extends_trans R1 R2 R3 : extends R1 R2 → extends R2 R3 → extends R1 R3.
Proof.
  intros (HN & HO & HS & HD & HSo & HDf & HV) (HN' & HO' & HS' & HD' & HSo' & HDf' & HV').
  unfold extends. split; [congruence|]. split; [auto|]. split; [auto|].
  split; [|split; [|split]].
  - intros H. rewrite <- (HD H). apply HD'. rewrite (HD H). exact H.
  - intros H. rewrite <- (HSo H). apply HSo'. rewrite (HSo H). exact H.
  - intros H. rewrite <- (HDf H). apply HDf'. rewrite (HDf H). exact H.
  - intros f H. apply HV', HV, H.
Qed.

(** A merge extends what was stored. *)
Lemma extends_merge e r : extends e (merge e r).
Proof.
  rewrite merge_fields. unfold extends.
  cbn [Name Source Description Optional Default Validate Sensitive].
  rewrite !first_nonempty_pair.
  split; [reflexivity|]. split; [intros H; by apply andb_true_iff in H as [? _]|].
  split; [intros ->; reflexivity|].
  split; [|split; [|split]].
  - intros H. apply is_empty_false in H. rewrite H. reflexivity.
  - intros H. apply is_empty_false in H. rewrite H. reflexivity.
  - intros H. apply is_empty_false in H. rewrite H. reflexivity.
  - intros f H. rewrite H. reflexivity.
Qed.

(** Declaring again what is stored changes nothing. *)
Lemma merge_idempotent e : merge e e = e.
Proof.
  rewrite merge_fields, !first_nonempty_pair.
  destruct e as [n s d o df v se].
  cbn [Name Source Description Optional Default Validate Sensitive first_some].
  rewrite andb_diag, orb_diag.
  destruct (is_empty s), (is_empty d), (is_empty df), v; reflexivity.
Qed.

Lemma merge_again e r : merge (merge e r) r = merge e r.
Proof.
  rewrite (merge_fields (merge e r) r), (merge_fields e r).
  cbn [Name Source Description Optional Default Validate Sensitive].
  rewrite !first_nonempty_pair.
  f_equal.
  - destruct (is_empty (Source e)) eqn:E1, (is_empty (Source r)) eqn:E2;
      cbn [andb negb]; rewrite ?E1, ?E2; reflexivity.
  - destruct (is_empty (Description e)) eqn:E1,
             (is_empty (Description r)) eqn:E2;
      cbn [andb negb]; rewrite ?E1, ?E2; reflexivity.
  - destruct (Optional e), (Optional r); reflexivity.
  - destruct (is_empty (Default e)) eqn:E1, (is_empty (Default r)) eqn:E2;
      cbn [andb negb]; rewrite ?E1, ?E2; reflexivity.
  - destruct (Validate e), (Validate r); reflexivity.
  - destruct (Sensitive e), (Sensitive r); reflexivity.
Qed.

Lemma grows_refl st : grows st st.
Proof.
  split; [auto|]. split; [|auto].
  intros N R H. exists R. split; [exact H | apply extends_refl].
Qed.

Lemma grows_trans st1 st2 st3 : grows st1 st2 → grows st2 st3 → grows st1 st3.
Proof.
  intros (Hf & Hr & Hc) (Hf' & Hr' & Hc'). split; [auto|]. split; [|auto].
  intros N R H. destruct (Hr N R H) as (R2 & H2 & He).
  destruct (Hr' N R2 H2) as (R3 & H3 & He'). exists R3.
  split; [exact H3 | by eapply extends_trans].
Qed.

Lemma grows_proceed env r st :
  match state_after (proceed env r st) with
  | Some st' => grows st st'
  | None => True
  end.
Proof.
  rewrite proceed_eq. cbv zeta.
  assert (∀ N R, reg st !! N = Some R →
            ∃ R', <[Name r := canonical st r]> (reg st) !! N = Some R'
                  ∧ extends R R') as Hreg.
  { intros N R H. destruct (decide (Name r = N)) as [<-|Hne].
    - rewrite lookup_insert_eq. eexists. split; [reflexivity|].
      unfold canonical. rewrite H. apply extends_merge.
    - rewrite lookup_insert_ne by exact Hne. exists R.
      split; [exact H | apply extends_refl]. }
  destruct (cache st !! Name (canonical st r)) eqn:E; cbn [state_after].
  - split; [auto|]. split; [exact Hreg | auto].
  - split; [auto|]. split; [exact Hreg|].
    intros N res H. cbn. rewrite lookup_insert_ne; [exact H | congruence].
Qed.

Lemma grows_preserved st0 env r : preserves (grows st0) (proceed env r).
Proof.
  intros st H. pose proof (grows_proceed env r st) as Hp.
  destruct (state_after (proceed env r st)); [|exact I].
  by eapply grows_trans.
Qed.

Lemma grows_run_op st0 fuel env op :
  (match op with OpReset => False | _ => True end) →
  preserves (grows st0) (run_op fuel env op).
Proof.
  destruct op; simpl; intros Hop; try contradiction.
  - apply preserves_bind; [apply preserves_Check, grows_preserved|].
    intros ?; apply preserves_mret.
  - apply preserves_bind; [apply preserves_CheckAll, grows_preserved|].
    intros ?; apply preserves_mret.
  - intros st H; exact H.
  - apply preserves_mret.
  - apply preserves_bind; [apply preserves_MustValidate, grows_preserved|].
    intros ?; apply preserves_mret.
  - intros st (Hf & Hr & Hc). split; [reflexivity|]. split; assumption.
Qed.

Lemma evolves_grows st st' : evolves st st' → grows st st'.
Proof.
  induction 1 as [|st st1 fuel env op st2 _ IH Hop Hstep]; [apply grows_refl|].
  pose proof (grows_run_op st fuel env op Hop st1 IH) as Hp.
  rewrite Hstep in Hp. exact Hp.
Qed.

(** X5. Calls other than Reset take nothing back: a frozen registry
    stays frozen, a registered name stays registered and a cached name
    stays cached. *)
Theorem frozen_and_names_persist :
  ∀ st st' : State,
    evolves st st' →
    (frozen st = true → frozen st' = true)
    ∧ dom (reg st) ⊆ dom (reg st')
    ∧ dom (cache st) ⊆ dom (cache st').
Proof.
  intros st st' Hev. destruct (evolves_grows st st' Hev) as (Hf & Hr & Hc).
  split; [exact Hf|]. split.
  - intros N HN. apply elem_of_dom in HN as [R HR].
    destruct (Hr N R HR) as (R' & HR' & _). apply elem_of_dom. eauto.
  - intros N HN. apply elem_of_dom in HN as [res Hres].
    apply elem_of_dom. rewrite (Hc N res Hres). eauto.
Qed.

Lemma frozen_and_names_persist_witness :
  evolves one_checked one_checked_later
  ∧ (frozen one_checked = true → frozen one_checked_later = true)
  ∧ dom (reg one_checked) ⊆ dom (reg one_checked_later)
  ∧ dom (cache one_checked) ⊆ dom (cache one_checked_later).
Proof.
  split; [exact evolves_one_checked_later|].
  exact (frozen_and_names_persist one_checked one_checked_later
           evolves_one_checked_later).
Defined.

(** X6. Along calls other than Reset the requirement stored for a name
    only tightens: it keeps its name, once required it stays required,
    once sensitive it stays sensitive, and a description, source, default
    or validator that is set is never replaced. *)
Theorem requirements_only_tighten :
  ∀ (st st' : State) (N : string) (R : Requirement),
    evolves st st' →
    reg st !! N = Some R →
    ∃ R', reg st' !! N = Some R'
          ∧ Name R' = Name R
          ∧ (Optional R = false → Optional R' = false)
          ∧ (Sensitive R = true → Sensitive R' = true)
          ∧ (Description R ≠ EmptyString → Description R' = Description R)
          ∧ (Source R ≠ EmptyString → Source R' = Source R)
          ∧ (Default R ≠ EmptyString → Default R' = Default R)
          ∧ (∀ f, Validate R = Some f → Validate R' = Some f).
Proof.
  intros st st' N R Hev HR.
  destruct (evolves_grows st st' Hev) as (_ & Hr & _).
  destruct (Hr N R HR) as (R' & HR' & HN & HO & HS & HD & HSo & HDf & HV).
  exists R'. split; [exact HR'|]. split; [exact HN|].
  split; [|split; [exact HS|split; [exact HD|split; [exact HSo|split;
    [exact HDf|exact HV]]]]].
  intros H. destruct (Optional R') eqn:E; [|reflexivity].
  rewrite (HO eq_refl) in H. discriminate H.
Qed.

Lemma requirements_only_tighten_witness :
  evolves one_checked one_checked_later
  ∧ reg one_checked !! "PRESENT_VAR" = Some present_var
  ∧ ∃ R', reg one_checked_later !! "PRESENT_VAR" = Some R'
          ∧ Optional R' = false
          ∧ Description R' = "A present variable"
          ∧ Source R' = "test".
Proof.
  assert (reg one_checked !! "PRESENT_VAR" = Some present_var) as Hr
    by (vm_compute; reflexivity).
  split; [exact evolves_one_checked_later|]. split; [exact Hr|].
  destruct (requirements_only_tighten one_checked one_checked_later
              "PRESENT_VAR" present_var evolves_one_checked_later Hr)
    as (R' & HR' & _ & HO & _ & HD & HS & _).
  exists R'. split; [exact HR'|]. split; [exact (HO eq_refl)|].
  split; [apply HD; discriminate | apply HS; discriminate].
Defined.

(** An invariant of the two maps that [proceed] keeps and that does not
    look at [frozen] holds in every reachable state. *)
Lemma reachable_invariant (P : State → Prop) :
  P init →
  (∀ st b, P st → P (mkState (reg st) (cache st) b)) →
  (∀ env r, preserves P (proceed env r)) →
  ∀ st, reachable st → P st.
Proof.
  intros Hinit Hfr Hp st Hreach.
  induction Hreach as [|st fuel env op st' _ IH Hstep]; [exact Hinit|].
  assert (preserves P (run_op fuel env op)) as Hop.
  { destruct op; simpl.
    - apply preserves_bind; [by apply preserves_Check|].
      intros ?; apply preserves_mret.
    - apply preserves_bind; [by apply preserves_CheckAll|].
      intros ?; apply preserves_mret.
    - intros s H; exact H.
    - apply preserves_mret.
    - apply preserves_bind; [by apply preserves_MustValidate|].
      intros ?; apply preserves_mret.
    - intros s H. apply (Hfr s true H).
    - intros s _. exact Hinit. }
  specialize (Hop st IH). rewrite Hstep in Hop. exact Hop.
Qed.

Lemma loaded_coherent env R : coherent (loaded env R).
Proof.
  unfold coherent, loaded, loaded_value. cbn [Err Present Value Req].
  split; [reflexivity|].
  destruct (env (Name R)); [discriminate|].
  destruct (is_empty (Default R)); [reflexivity|discriminate].
Qed.

Lemma reachable_coherent st :
  reachable st → map_Forall (fun _ res => coherent res) (cache st).
Proof.
  apply (reachable_invariant
           (fun st => map_Forall (fun _ res => coherent res) (cache st))).
  - apply map_Forall_empty.
  - intros s b H. exact H.
  - intros env r s H. rewrite proceed_eq. cbv zeta.
    destruct (cache s !! Name (canonical s r)); [exact H|].
    apply map_Forall_insert_2; [apply loaded_coherent | exact H].
Qed.

(** Every cached Result is backed by a requirement that extends its own. *)
Lemma reachable_backed st :
  reachable st →
  ∀ N res, cache st !! N = Some res →
           ∃ R, reg st !! N = Some R ∧ extends (Req res) R.
Proof.
  intros Hreach.
  enough (wf st ∧ ∀ N res, cache st !! N = Some res →
                           ∃ R, reg st !! N = Some R ∧ extends (Req res) R)
    as [_ H] by exact H.
  revert st Hreach.
  apply (reachable_invariant
           (fun st => wf st ∧ ∀ N res, cache st !! N = Some res →
                           ∃ R, reg st !! N = Some R ∧ extends (Req res) R)).
  - split; [apply wf_init|]. intros N res H. cbn in H.
    by rewrite lookup_empty in H.
  - intros s b [Hwf H]. split; [exact Hwf | exact H].
  - intros env r s [Hwf H].
    pose proof (wf_proceed env r s Hwf) as Hwf'.
    pose proof (grows_proceed env r s) as Hg.
    pose proof (canonical_Name s r Hwf) as HN.
    rewrite proceed_eq in *. cbv zeta in *.
    destruct (cache s !! Name (canonical s r)) eqn:E; cbn [state_after] in *;
      (split; [exact Hwf'|]).
    + intros N res Hres. cbn in Hres |- *.
      destruct (H N res Hres) as (R & HR & He).
      destruct Hg as (_ & Hr & _). destruct (Hr N R HR) as (R' & HR' & He').
      exists R'. split; [exact HR' | by eapply extends_trans].
    + intros N res Hres. cbn in Hres |- *.
      destruct (decide (Name (canonical s r) = N)) as [<-|Hne].
      * rewrite lookup_insert_eq in Hres. injection Hres as <-.
        rewrite HN, lookup_insert_eq. eexists. split; [reflexivity|].
        apply extends_refl.
      * rewrite lookup_insert_ne in Hres by exact Hne.
        destruct (H N res Hres) as (R & HR & He).
        destruct Hg as (_ & Hr & _). destruct (Hr N R HR) as (R' & HR' & He').
        exists R'. split; [exact HR' | by eapply extends_trans].
Qed.


(* ===================================================================== *)
(** * CheckAll: the snapshot and its order                               *)
(* ===================================================================== *)

(** The order of strings, bytewise. *)
Lemma ascii_compare_lt_trans a b c :
  Ascii.compare a b = Lt → Ascii.compare b c = Lt → Ascii.compare a c = Lt.
Proof.
  unfold Ascii.compare. rewrite !N.compare_lt_iff. lia.
Qed.

Lemma string_compare_lt_trans a :
  ∀ b c, String.compare a b = Lt → String.compare b c = Lt →
         String.compare a c = Lt.
Proof.
  induction a as [|x a IH]; intros [|y b] [|z c]; cbn [String.compare];
    try discriminate; try reflexivity.
  destruct (Ascii.compare x y) eqn:Exy; try discriminate;
    destruct (Ascii.compare y z) eqn:Eyz; try discriminate; intros Hab Hbc.
  - apply Ascii.compare_eq_iff in Exy, Eyz. subst.
    replace (Ascii.compare z z) with Eq; [by eapply IH|].
    symmetry. unfold Ascii.compare. apply N.compare_refl.
  - apply Ascii.compare_eq_iff in Exy. subst. by rewrite Eyz.
  - apply Ascii.compare_eq_iff in Eyz. subst. by rewrite Exy.
  - by rewrite (ascii_compare_lt_trans x y z Exy Eyz).
Qed.

Lemma string_compare_refl a : String.compare a a = Eq.
Proof.
  induction a as [|x a IH]; [reflexivity|]. cbn [String.compare].
  replace (Ascii.compare x x) with Eq; [exact IH|].
  symmetry. unfold Ascii.compare. apply N.compare_refl.
Qed.

Lemma name_ltb_trans a b c :
  name_ltb a b = true → name_ltb b c = true → name_ltb a c = true.
Proof.
  unfold name_ltb, String.ltb. intros Hab Hbc.
  destruct (String.compare (Name (Req a)) (Name (Req b))) eqn:E1;
    try discriminate.
  destruct (String.compare (Name (Req b)) (Name (Req c))) eqn:E2;
    try discriminate.
  by rewrite (string_compare_lt_trans _ _ _ E1 E2).
Qed.

Lemma name_ltb_asym a b : name_ltb a b = true → name_ltb b a = false.
Proof.
  unfold name_ltb, String.ltb. intros H.
  destruct (String.compare (Name (Req a)) (Name (Req b))) eqn:E;
    try discriminate H.
  rewrite String.compare_antisym, E. reflexivity.
Qed.

Lemma name_ltb_total a b :
  name_ltb a b = false → Name (Req a) ≠ Name (Req b) → name_ltb b a = true.
Proof.
  unfold name_ltb, String.ltb. intros H Hne.
  rewrite String.compare_antisym.
  destruct (String.compare (Name (Req a)) (Name (Req b))) eqn:E;
    try discriminate H; [|reflexivity].
  exfalso. by apply Hne, String.compare_eq_iff.
Qed.

Lemma insert_by_name_perm x l : insert_by_name x l ≡ₚ x :: l.
Proof.
  induction l as [|y l IH]; [reflexivity|]. cbn [insert_by_name].
  destruct (name_ltb y x); [|reflexivity].
  rewrite IH. apply Permutation_swap.
Qed.

Lemma sort_by_name_perm l : sort_by_name l ≡ₚ l.
Proof.
  unfold sort_by_name. induction l as [|x l IH]; [reflexivity|].
  cbn [foldr]. rewrite insert_by_name_perm, IH. reflexivity.
Qed.

(** Inserting into a list sorted by name, with names that are all
    different, leaves it sorted. *)
Lemma insert_by_name_sorted x l :
  StronglySorted (fun a b => name_ltb a b = true) l →
  Forall (fun y => Name (Req y) ≠ Name (Req x)) l →
  StronglySorted (fun a b => name_ltb a b = true) (insert_by_name x l).
Proof.
  induction l as [|y l IH]; intros Hs Hne; cbn [insert_by_name].
  - repeat constructor.
  - apply StronglySorted_inv in Hs as [Hs Hy].
    apply Forall_cons in Hne as [Hyx Hne].
    destruct (name_ltb y x) eqn:E.
    + constructor; [by apply IH|].
      rewrite insert_by_name_perm. constructor; [exact E | exact Hy].
    + assert (name_ltb x y = true) as Hxy by (by apply name_ltb_total).
      constructor; [by constructor|].
      constructor; [exact Hxy|].
      eapply Forall_impl; [exact Hy|]. intros z Hz. by eapply name_ltb_trans.
Qed.

Lemma sort_by_name_sorted l :
  NoDup (map (fun res => Name (Req res)) l) →
  StronglySorted (fun a b => name_ltb a b = true) (sort_by_name l).
Proof.
  unfold sort_by_name. induction l as [|x l IH]; intros Hnd; cbn [foldr].
  - constructor.
  - cbn [map] in Hnd. apply NoDup_cons in Hnd as [Hx Hnd].
    apply insert_by_name_sorted; [by apply IH|].
    fold (sort_by_name l). rewrite sort_by_name_perm.
    apply Forall_forall. intros y Hy Heq. apply Hx.
    rewrite <- Heq. apply list_elem_of_fmap. by exists y.
Qed.

(** With names that are all different, the sorted list does not depend on
    the order of the input. *)
Lemma sort_by_name_unique l1 l2 :
  NoDup (map (fun res => Name (Req res)) l1) →
  l1 ≡ₚ l2 →
  sort_by_name l1 = sort_by_name l2.
Proof.
  intros Hnd Hp.
  assert (NoDup (map (fun res => Name (Req res)) l2)) as Hnd2
    by (by rewrite <- Hp).
  apply (StronglySorted_unique_strong (fun a b => name_ltb a b = true)).
  - intros a b _ _ Hab Hba. rewrite (name_ltb_asym a b Hab) in Hba.
    discriminate Hba.
  - by apply sort_by_name_sorted.
  - by apply sort_by_name_sorted.
  - by rewrite !sort_by_name_perm.
Qed.

(** The split of the snapshot: what is cached, what is not, and the names. *)
Lemma snapshot_split_spec st :
  wf st →
  Forall (fun res => cache st !! Name (Req res) = Some res) (snapshot_split st).1
  ∧ Forall (fun req => reg st !! Name req = Some req
                       ∧ cache st !! Name req = None) (snapshot_split st).2
  ∧ (map (fun res => Name (Req res)) (snapshot_split st).1
     ++ map Name (snapshot_split st).2)%list ≡ₚ (map_to_list (reg st)).*1.
Proof.
  intros [Hreg Hcache]. unfold snapshot_split.
  assert (∀ e, e ∈ map_to_list (reg st) → reg st !! e.1 = Some e.2) as Hl.
  { intros [k r] He. by apply elem_of_map_to_list in He. }
  induction (map_to_list (reg st)) as [|e l IH] using rev_ind.
  - cbn. repeat split; constructor.
  - rewrite foldl_snoc. 
    destruct IH as (H1 & H2 & H3); [intros e' He'; apply Hl, elem_of_app; by left|].
    assert (reg st !! e.1 = Some e.2) as He
      by (apply Hl, elem_of_app; right; by left).
    set (p := foldl _ _ l) in *.
    rewrite fmap_app. cbn [fmap list_fmap].
    destruct (cache st !! e.1) as [res|] eqn:E; cbn [fst snd].
    + destruct (Hcache _ _ E) as [Hn _].
      split; [|split; [exact H2|]].
      * apply Forall_app. split; [exact H1|]. constructor; [|constructor].
        by rewrite Hn.
      * rewrite map_app. cbn [map]. rewrite Hn.
        rewrite <- H3, <- !app_assoc. apply Permutation_app_head.
        apply Permutation_app_comm.
    + pose proof (Hreg _ _ He) as Hn.
      split; [exact H1|]. split.
      * apply Forall_app. split; [exact H2|]. constructor; [|constructor].
        rewrite Hn. split; assumption.
      * rewrite map_app. cbn [map]. rewrite Hn.
        rewrite <- H3, <- !app_assoc. reflexivity.
Qed.

(** The loop of CheckAll over requirements that are in the registry. *)
Lemma for_append_Check_post fuel env reqs :
  ∀ out st,
    wf st →
    Forall (fun req => reg st !! Name req = Some req) reqs →
    ∃ news st' tr,
      for_append (Check (S fuel) env) reqs out st
      = Returned (out ++ news)%list st' tr
      ∧ wf st'
      ∧ reg st' = reg st
      ∧ frozen st' = frozen st
      ∧ Forall2 (fun req res => Name (Req res) = Name req
                                ∧ cache st' !! Name req = Some res) reqs news
      ∧ (∀ N res, cache st !! N = Some res → cache st' !! N = Some res)
      ∧ (∀ N, is_Some (cache st' !! N) →
              is_Some (cache st !! N) ∨ N ∈ map Name reqs)
      ∧ (reqs = [] → tr = []).
Proof.
  induction reqs as [|req reqs IH]; intros out st Hwf Hreg; cbn [for_append].
  - exists [], st, []. rewrite app_nil_r.
    split; [reflexivity|]. split; [exact Hwf|]. split; [reflexivity|].
    split; [reflexivity|]. split; [constructor|]. split; [auto|].
    split; [intros N H; by left | reflexivity].
  - apply Forall_cons in Hreg as [Hr Hreg].
    assert (canonical st req = req) as Hcan.
    { unfold canonical. rewrite Hr. apply merge_idempotent. }
    assert (∃ res st1 tr1,
              Check (S fuel) env req st = Returned res st1 tr1
              ∧ wf st1 ∧ reg st1 = reg st ∧ frozen st1 = frozen st
              ∧ Name (Req res) = Name req
              ∧ cache st1 !! Name req = Some res
              ∧ (∀ N res', cache st !! N = Some res' →
                           cache st1 !! N = Some res')
              ∧ (∀ N, is_Some (cache st1 !! N) →
                      is_Some (cache st !! N) ∨ N = Name req))
      as (res & st1 & tr1 & HC & Hwf1 & Hreg1 & Hfr1 & Hn & Hc1 & Hmono & Hdom).
    { pose proof (wf_proceed env req st Hwf) as Hwf1.
      rewrite Check_registered by eauto.
      rewrite proceed_eq in *. cbv zeta in *. rewrite Hcan in *.
      rewrite (insert_id _ _ _ Hr) in *.
      destruct (cache st !! Name req) as [cached|] eqn:E;
        cbn [state_after] in Hwf1; do 3 eexists; (split; [reflexivity|]);
        (split; [exact Hwf1|]); cbn.
      - destruct Hwf as [_ Hcache]. destruct (Hcache _ _ E) as [Hn _].
        split; [reflexivity|]. split; [reflexivity|]. split; [exact Hn|].
        split; [exact E|]. split; [auto|]. intros N H; by left.
      - rewrite lookup_insert_eq.
        split; [reflexivity|]. split; [reflexivity|]. split; [reflexivity|].
        split; [reflexivity|]. split.
        + intros N res' H. rewrite lookup_insert_ne; [exact H|congruence].
        + intros N H. destruct (decide (Name req = N)) as [<-|Hne];
            [by right|]. left. by rewrite lookup_insert_ne in H. }
    destruct (IH (out ++ [res])%list st1 Hwf1) as
      (news & st' & tr & Hrun & Hwf' & Hreg' & Hfr' & Hall & Hmono' & Hdom' & _);
      [by rewrite Hreg1|].
    exists (res :: news), st', (tr1 ++ tr)%list.
    rewrite (bind_Returned _ _ _ _ _ _ HC), Hrun. cbn [prepend].
    rewrite <- app_assoc. split; [reflexivity|].
    split; [exact Hwf'|]. split; [congruence|]. split; [congruence|].
    split; [|split; [|split]].
    + constructor; [|exact Hall]. split; [exact Hn | by apply Hmono'].
    + intros N res' H. by apply Hmono', Hmono.
    + intros N H. cbn [map]. destruct (Hdom' N H) as [H1|H1].
      * destruct (Hdom N H1) as [H2| ->]; [by left|right; by left].
      * right. by right.
    + discriminate.
Qed.

(** Members of a list of Results that sit in the cache under their names,
    one for each name of [keys]. *)
Lemma snapshot_members (c : gmap string Result) pre keys :
  Forall (fun res => c !! Name (Req res) = Some res) pre →
  map (fun res => Name (Req res)) pre ≡ₚ keys →
  ∀ res, res ∈ pre ↔ ∃ N, N ∈ keys ∧ c !! N = Some res.
Proof.
  intros Hall Hperm res. rewrite Forall_forall in Hall. split.
  - intros Hin. exists (Name (Req res)). split; [|by apply Hall].
    rewrite <- Hperm. apply list_elem_of_fmap. by exists res.
  - intros (N & HN & Hc). rewrite <- Hperm in HN.
    apply list_elem_of_fmap in HN as (res' & -> & Hin').
    rewrite (Hall _ Hin') in Hc. by injection Hc as <-.
Qed.

Lemma snapshot_NoDup pre keys :
  NoDup keys →
  map (fun res => Name (Req res)) pre ≡ₚ keys →
  NoDup (map (fun res => Name (Req res)) pre) ∧ NoDup pre.
Proof.
  intros Hnd Hperm. rewrite <- Hperm in Hnd. split; [exact Hnd|].
  by eapply NoDup_fmap_1.
Qed.

(** What CheckAll returns and leaves. [pre] is the snapshot before it is
    sorted. *)
Lemma CheckAll_post fuel env st :
  wf st →
  ∃ pre st' tr,
    CheckAll (S fuel) env st = Returned (sort_by_name pre) st' tr
    ∧ wf st'
    ∧ reg st' = reg st
    ∧ frozen st' = frozen st
    ∧ (∀ N res, cache st !! N = Some res → cache st' !! N = Some res)
    ∧ Forall (fun res => cache st' !! Name (Req res) = Some res) pre
    ∧ map (fun res => Name (Req res)) pre ≡ₚ (map_to_list (reg st)).*1
    ∧ ((snapshot_split st).2 = [] →
       tr = [] ∧ st' = st ∧ pre = (snapshot_split st).1).
Proof.
  intros Hwf. destruct (snapshot_split_spec st Hwf) as (H1 & H2 & H3).
  destruct (for_append_Check_post fuel env (snapshot_split st).2
              (snapshot_split st).1 st Hwf)
    as (news & st' & tr & Hrun & Hwf' & Hreg & Hfr & Hall & Hmono & _ & Hnil).
  { eapply Forall_impl; [exact H2|]. by intros req [H _]. }
  exists ((snapshot_split st).1 ++ news)%list, st', tr.
  split.
  { unfold CheckAll, CheckAll_with.
    rewrite (bind_Returned _ _ st (snapshot_split st) st []) by reflexivity.
    rewrite (bind_Returned _ _ _ _ _ _ Hrun). cbn. by rewrite app_nil_r. }
  split; [exact Hwf'|]. split; [exact Hreg|]. split; [exact Hfr|].
  split; [exact Hmono|]. split; [|split].
  - apply Forall_app. split.
    + eapply Forall_impl; [exact H1|]. intros res H. by apply Hmono.
    + clear -Hall. induction Hall as [|req res reqs news [Hn Hc] _ IH];
        constructor; [by rewrite Hn | exact IH].
  - rewrite map_app, <- H3. apply Permutation_app_head.
    clear -Hall. induction Hall as [|req res reqs news [Hn Hc] _ IH];
      [reflexivity|]. cbn [map]. by rewrite Hn, IH.
  - intros Hnone. rewrite Hnone in *. cbn [for_append] in Hrun.
    injection Hrun as Hout <- <-.
    apply (f_equal length) in Hout as Hlen. rewrite length_app in Hlen.
    destruct news; [|cbn in Hlen; lia].
    split; [reflexivity|]. split; [reflexivity|]. by rewrite app_nil_r.
Qed.

Lemma keys_of_registry (m : gmap string Requirement) N :
  N ∈ (map_to_list m).*1 ↔ is_Some (m !! N).
Proof.
  rewrite list_elem_of_fmap. split.
  - intros ([k r] & -> & H). apply elem_of_map_to_list in H. eauto.
  - intros [r H]. exists (N, r). split; [reflexivity|].
    by apply elem_of_map_to_list.
Qed.



(** X8. What CheckAll returns is the cache it leaves, listed in
    strictly increasing bytewise order of the names: one Result for each
    registered name, and a Result is in the list exactly when it is cached
    under some name. *)
Theorem CheckAll_snapshot_is_sorted_cache :
  ∀ (fuel : nat) (env : Env) (st st' : State) (results : list Result)
    (tr : Trace),
    reachable st →
    CheckAll (S fuel) env st = Returned results st' tr →
    StronglySorted
      (fun a b => String.ltb (Name (Req a)) (Name (Req b)) = true) results
    ∧ length results = size (reg st)
    ∧ ∀ res, res ∈ results ↔ ∃ N, cache st' !! N = Some res.
Proof.
  intros fuel env st st' results tr Hreach HC.
  destruct (CheckAll_post fuel env st (reachable_wf st Hreach))
    as (pre & st1 & tr1 & HC1 & Hwf' & Hreg & _ & _ & Hall & Hperm & _).
  rewrite HC in HC1. injection HC1 as Hres Hst Htr. subst results st1 tr1.
  destruct (snapshot_NoDup pre _ (NoDup_fst_map_to_list (reg st)) Hperm)
    as [Hnd _].
  split; [exact (sort_by_name_sorted pre Hnd)|]. split.
  - rewrite sort_by_name_perm.
    rewrite <- (length_map (fun res => Name (Req res))), Hperm, length_fmap.
    apply length_map_to_list.
  - intros res. rewrite sort_by_name_perm.
    rewrite (snapshot_members (cache st') pre _ Hall Hperm). split.
    + intros (N & _ & H). eauto.
    + intros (N & H). exists N. split; [|exact H].
      apply keys_of_registry. rewrite <- Hreg.
      destruct Hwf' as [_ Hcache]. exact (proj2 (Hcache _ _ H)).
Qed.

Lemma CheckAll_snapshot_is_sorted_cache_witness :
  reachable three_checked
  ∧ ∃ results st' tr,
      CheckAll 1 test_env three_checked = Returned results st' tr
      ∧ StronglySorted
          (fun a b => String.ltb (Name (Req a)) (Name (Req b)) = true) results
      ∧ length results = size (reg three_checked)
      ∧ ∀ res, res ∈ results ↔ ∃ N, cache st' !! N = Some res.
Proof.
  split; [exact reachable_three_checked|].
  destruct (CheckAll 1 test_env three_checked) as [results st' tr| | |] eqn:E;
    try (vm_compute in E; discriminate E).
  exists results, st', tr. split; [reflexivity|].
  exact (CheckAll_snapshot_is_sorted_cache 0 test_env three_checked st'
           results tr reachable_three_checked E).
Defined.

(** X9. After one CheckAll a second one, in any environment, returns
    the same list, changes nothing in the registry and has no effect
    outside: no environment read, no validator call, no log line. *)
Theorem CheckAll_again_reads_nothing :
  ∀ (fuel : nat) (env : Env) (st st' : State) (results : list Result)
    (tr : Trace),
    reachable st →
    CheckAll (S fuel) env st = Returned results st' tr →
    ∀ (fuel' : nat) (env' : Env),
      CheckAll (S fuel') env' st' = Returned results st' [].
Proof.
  intros fuel env st st' results tr Hreach HC fuel' env'.
  destruct (CheckAll_post fuel env st (reachable_wf st Hreach))
    as (pre & st1 & tr1 & HC1 & Hwf' & Hreg & _ & _ & Hall & Hperm & _).
  rewrite HC in HC1. injection HC1 as Hres Hst Htr. subst results st1 tr1.
  destruct (snapshot_split_spec st' Hwf') as (_ & H2 & _).
  assert ((snapshot_split st').2 = []) as Hnone.
  { destruct (snapshot_split st').2 as [|req reqs]; [reflexivity|exfalso].
    apply Forall_cons in H2 as [[Hr Hc] _].
    assert (Name req ∈ (map_to_list (reg st)).*1) as Hin
      by (apply keys_of_registry; rewrite <- Hreg; eauto).
    rewrite <- Hperm in Hin.
    apply list_elem_of_fmap in Hin as (res & Hn & Hin).
    rewrite Forall_forall in Hall. specialize (Hall _ Hin).
    rewrite <- Hn, Hc in Hall. discriminate Hall. }
  destruct (CheckAll_post fuel' env' st' Hwf')
    as (pre2 & st2 & tr2 & HC2 & _ & _ & _ & _ & Hall2 & Hperm2 & Hsame).
  destruct (Hsame Hnone) as (-> & -> & _).
  rewrite HC2. f_equal. rewrite Hreg in Hperm2.
  destruct (snapshot_NoDup pre _ (NoDup_fst_map_to_list (reg st)) Hperm)
    as [Hnd HndR].
  destruct (snapshot_NoDup pre2 _ (NoDup_fst_map_to_list (reg st)) Hperm2)
    as [Hnd2 HndR2].
  apply sort_by_name_unique; [exact Hnd2|].
  apply NoDup_Permutation; [exact HndR2 | exact HndR|].
  intros res.
  rewrite (snapshot_members (cache st') pre2 _ Hall2 Hperm2).
  rewrite (snapshot_members (cache st') pre _ Hall Hperm). reflexivity.
Qed.

Lemma CheckAll_again_reads_nothing_witness :
  reachable three_checked
  ∧ ∃ results st' tr,
      CheckAll 1 test_env three_checked = Returned results st' tr
      ∧ CheckAll 1 show_values_env st' = Returned results st' [].
Proof.
  split; [exact reachable_three_checked|].
  destruct (CheckAll 1 test_env three_checked) as [results st' tr| | |] eqn:E;
    try (vm_compute in E; discriminate E).
  exists results, st', tr. split; [reflexivity|].
  exact (CheckAll_again_reads_nothing 0 test_env three_checked st'
           results tr reachable_three_checked E 0 show_values_env).
Defined.

(** X10. When the calls come one after the other, each finished before
    the next begins: a Result cached for [N] is what every later CheckAll
    lists for [N], after any such calls other than Reset and in any
    environment: it is in the list, and it is the only entry of that name.
    (A Check of [N] that had missed the cache before the Result was
    stored replaces the entry when it stores its own.) *)
Theorem CheckAll_reports_first_resolution :
  ∀ (N : string) (res : Result) (st st' : State),
    reachable st →
    cache st !! N = Some res →
    evolves st st' →
    ∀ (fuel : nat) (env : Env),
      ∃ results st'' tr,
        CheckAll (S fuel) env st' = Returned results st'' tr
        ∧ res ∈ results
        ∧ ∀ res', res' ∈ results → Name (Req res') = N → res' = res.
Proof.
  intros N res st st' Hreach Hc Hev fuel env.
  destruct (settled_evolves N res st st' (conj (reachable_wf st Hreach) Hc) Hev)
    as [Hwf' Hc'].
  destruct (CheckAll_post fuel env st' Hwf')
    as (pre & st'' & tr & HC & Hwf'' & Hreg & _ & Hmono & Hall & Hperm & _).
  exists (sort_by_name pre), st'', tr. split; [exact HC|].
  pose proof (Hmono N res Hc') as Hc''.
  split.
  - rewrite sort_by_name_perm.
    apply (snapshot_members (cache st'') pre _ Hall Hperm).
    exists N. split; [|exact Hc''].
    apply keys_of_registry. rewrite <- Hreg.
    destruct Hwf'' as [_ Hcache]. exact (proj2 (Hcache _ _ Hc'')).
  - intros res' Hin HN. rewrite sort_by_name_perm in Hin.
    rewrite Forall_forall in Hall. specialize (Hall _ Hin).
    rewrite HN, Hc'' in Hall. by injection Hall.
Qed.

Lemma CheckAll_reports_first_resolution_witness :
  reachable one_checked
  ∧ cache one_checked !! "PRESENT_VAR" = Some (loaded test_env present_var)
  ∧ evolves one_checked one_checked_later
  ∧ ∃ results st'' tr,
      CheckAll 1 show_values_env one_checked_later
      = Returned results st'' tr
      ∧ loaded test_env present_var ∈ results
      ∧ ∀ res', res' ∈ results → Name (Req res') = "PRESENT_VAR" →
                res' = loaded test_env present_var.
Proof.
  assert (cache one_checked !! "PRESENT_VAR"
          = Some (loaded test_env present_var)) as Hc
    by (vm_compute; reflexivity).
  split; [exact reachable_one_checked|]. split; [exact Hc|].
  split; [exact evolves_one_checked_later|].
  exact (CheckAll_reports_first_resolution "PRESENT_VAR"
           (loaded test_env present_var) one_checked one_checked_later
           reachable_one_checked Hc evolves_one_checked_later
           0 show_values_env).
Defined.


(* ===================================================================== *)
(** * Check, Value and MustValidate on reachable registries              *)
(* ===================================================================== *)

(** X11. Every cached Result sits under its own name; one that is not
    present has the empty value and no error; one whose requirement has no
    validator has no error; and an error is always the verdict of the
    Result's own validator on the Result's own value, a present one. *)
Theorem cached_Result_is_coherent :
  ∀ (st : State) (N : string) (res : Result),
    reachable st →
    cache st !! N = Some res →
    Name (Req res) = N
    ∧ (Present res = false → Value res = EmptyString ∧ Err res = None)
    ∧ (Validate (Req res) = None → Err res = None)
    ∧ (∀ e, Err res = Some e →
            Present res = true
            ∧ ∃ f, Validate (Req res) = Some f ∧ f (Value res) = Some e).
Proof.
  intros st N res Hreach Hres.
  destruct (reachable_wf st Hreach) as [_ Hcache].
  destruct (Hcache _ _ Hres) as [HN _].
  destruct (reachable_coherent st Hreach N res Hres) as [Herr Hval].
  split; [exact HN|]. split; [|split].
  - intros Hp. split; [by apply Hval|]. by rewrite Herr, Hp.
  - intros Hv. rewrite Herr, Hv. by destruct (Present res).
  - intros e He. rewrite Herr in He.
    destruct (Present res); [|discriminate He]. split; [reflexivity|].
    destruct (Validate (Req res)) as [f|]; [|discriminate He]. eauto.
Qed.

Lemma cached_Result_is_coherent_witness :
  reachable three_checked
  ∧ cache three_checked !! "INVALID_VAR" = Some (loaded test_env invalid_var)
  ∧ Present (loaded test_env invalid_var) = true
  ∧ ∃ f, Validate (Req (loaded test_env invalid_var)) = Some f
         ∧ f (Value (loaded test_env invalid_var))
           = Some (Errorf "URL must have a scheme (http/https)").
Proof.
  assert (cache three_checked !! "INVALID_VAR"
          = Some (loaded test_env invalid_var)) as Hc
    by (vm_compute; reflexivity).
  split; [exact reachable_three_checked|]. split; [exact Hc|].
  exact (proj2 (proj2 (proj2 (cached_Result_is_coherent three_checked
                                "INVALID_VAR" (loaded test_env invalid_var)
                                reachable_three_checked Hc)))
           (Errorf "URL must have a scheme (http/https)") eq_refl).
Defined.

(** X12. The requirement stored in the registry for a cached name is
    at least as strict as the requirement frozen inside the cached Result:
    required if the Result is, sensitive if the Result is, and with the
    same description, source, default and validator wherever the Result
    has one. *)
Theorem registry_is_as_strict_as_cached_Result :
  ∀ (st : State) (N : string) (res : Result),
    reachable st →
    cache st !! N = Some res →
    ∃ R, reg st !! N = Some R
         ∧ (Optional (Req res) = false → Optional R = false)
         ∧ (Sensitive (Req res) = true → Sensitive R = true)
         ∧ (Description (Req res) ≠ EmptyString →
            Description R = Description (Req res))
         ∧ (Source (Req res) ≠ EmptyString → Source R = Source (Req res))
         ∧ (Default (Req res) ≠ EmptyString → Default R = Default (Req res))
         ∧ (∀ f, Validate (Req res) = Some f → Validate R = Some f).
Proof.
  intros st N res Hreach Hres.
  destruct (reachable_backed st Hreach N res Hres)
    as (R & HR & _ & HO & HS & HD & HSo & HDf & HV).
  exists R. split; [exact HR|].
  split; [|split; [exact HS|split; [exact HD|split; [exact HSo|split;
    [exact HDf|exact HV]]]]].
  intros H. destruct (Optional R) eqn:E; [|reflexivity].
  rewrite (HO eq_refl) in H. discriminate H.
Qed.

Lemma registry_is_as_strict_as_cached_Result_witness :
  reachable one_checked_later
  ∧ cache one_checked_later !! "PRESENT_VAR"
    = Some (loaded test_env present_var)
  ∧ ∃ R, reg one_checked_later !! "PRESENT_VAR" = Some R
         ∧ Optional R = false
         ∧ Description R = "A present variable".
Proof.
  assert (cache one_checked_later !! "PRESENT_VAR"
          = Some (loaded test_env present_var)) as Hc
    by (vm_compute; reflexivity).
  split; [exact reachable_one_checked_later|]. split; [exact Hc|].
  destruct (registry_is_as_strict_as_cached_Result one_checked_later
              "PRESENT_VAR" (loaded test_env present_var)
              reachable_one_checked_later Hc)
    as (R & HR & HO & _ & HD & _).
  exists R. split; [exact HR|]. split; [exact (HO eq_refl)|].
  apply HD. discriminate.
Defined.

(** A call of Check that returns went past the freeze check. *)
Lemma Check_Returned_inv fuel env r st res st' tr :
  Check (S fuel) env r st = Returned res st' tr →
  gate_blocks st r = false
  ∧ ∃ tr0, proceed env r st = Returned res st' tr0
           ∧ tr = (gate_trace st r ++ tr0)%list.
Proof.
  intros HC. destruct (gate_blocks st r) eqn:Hb.
  - rewrite (gate_blocks_dump _ _ _ _ Hb), dump_eq in HC.
    destruct (CheckAll fuel env st); discriminate HC.
  - split; [reflexivity|]. rewrite (gate_passes _ _ _ _ Hb) in HC.
    destruct (proceed_returns env r st) as (res0 & st0 & tr0 & Hp & _).
    rewrite Hp in HC |- *. cbn [prepend] in HC. injection HC as <- <- <-.
    eauto.
Qed.

(** X13. After a Check that returns, Value of the declared name returns
    the value and the presence flag of the Result that Check returned, and
    that Result is the cache entry of the name. *)
Theorem Check_then_Value :
  ∀ (fuel : nat) (env : Env) (r : Requirement) (st st' : State)
    (res : Result) (tr : Trace),
    reachable st →
    Check (S fuel) env r st = Returned res st' tr →
    ValueLookup (Name r) st' = (Value res, Present res)
    ∧ cache st' !! Name r = Some res
    ∧ Name (Req res) = Name r.
Proof.
  intros fuel env r st st' res tr Hreach HC.
  pose proof (reachable_wf st Hreach) as Hwf.
  destruct (Check_Returned_inv _ _ _ _ _ _ _ HC) as (_ & tr0 & Hp & _).
  pose proof (canonical_Name st r Hwf) as HN.
  rewrite proceed_eq in Hp. cbv zeta in Hp. rewrite HN in Hp.
  assert (cache st' !! Name r = Some res ∧ Name (Req res) = Name r) as [Hc Hn].
  { destruct (cache st !! Name r) as [cached|] eqn:E;
      injection Hp as <- <- <-; cbn.
    - split; [exact E|]. destruct Hwf as [_ Hcache].
      exact (proj1 (Hcache _ _ E)).
    - rewrite lookup_insert_eq. split; [reflexivity | exact HN]. }
  unfold ValueLookup. rewrite Hc. auto.
Qed.

Lemma Check_then_Value_witness :
  reachable init
  ∧ ∃ res st' tr,
      Check 1 test_env present_var init = Returned res st' tr
      ∧ ValueLookup "PRESENT_VAR" st' = (Value res, Present res)
      ∧ cache st' !! "PRESENT_VAR" = Some res
      ∧ Name (Req res) = "PRESENT_VAR".
Proof.
  split; [exact reachable_init|].
  destruct (Check 1 test_env present_var init) as [res st' tr| | |] eqn:E;
    try (vm_compute in E; discriminate E).
  exists res, st', tr. split; [reflexivity|].
  exact (Check_then_Value 0 test_env present_var init st' res tr
           reachable_init E).
Defined.

(** X14. A Check that returns leaves the frozen flag alone and, for
    every name other than the one declared, the registered requirement,
    the cached Result and the answer of Value. *)
Theorem Check_touches_its_name_only :
  ∀ (fuel : nat) (env : Env) (r : Requirement) (st st' : State)
    (res : Result) (tr : Trace),
    reachable st →
    Check (S fuel) env r st = Returned res st' tr →
    frozen st' = frozen st
    ∧ ∀ N, N ≠ Name r →
           reg st' !! N = reg st !! N
           ∧ cache st' !! N = cache st !! N
           ∧ ValueLookup N st' = ValueLookup N st.
Proof.
  intros fuel env r st st' res tr Hreach HC.
  pose proof (reachable_wf st Hreach) as Hwf.
  destruct (Check_Returned_inv _ _ _ _ _ _ _ HC) as (_ & tr0 & Hp & _).
  pose proof (canonical_Name st r Hwf) as HN.
  rewrite proceed_eq in Hp. cbv zeta in Hp. rewrite HN in Hp.
  assert (frozen st' = frozen st
          ∧ ∀ N, N ≠ Name r → reg st' !! N = reg st !! N
                              ∧ cache st' !! N = cache st !! N) as [Hfr H].
  { destruct (cache st !! Name r) as [cached|] eqn:E;
      injection Hp as <- <- <-; cbn; (split; [reflexivity|]); intros N HNe.
    - by rewrite lookup_insert_ne.
    - by rewrite !lookup_insert_ne. }
  split; [exact Hfr|]. intros N HNe. destruct (H N HNe) as [H1 H2].
  split; [exact H1|]. split; [exact H2|]. unfold ValueLookup. by rewrite H2.
Qed.

Lemma Check_touches_its_name_only_witness :
  reachable one_checked
  ∧ ∃ res st' tr,
      Check 1 test_env missing_var one_checked = Returned res st' tr
      ∧ frozen st' = frozen one_checked
      ∧ reg st' !! "PRESENT_VAR" = reg one_checked !! "PRESENT_VAR"
      ∧ cache st' !! "PRESENT_VAR" = cache one_checked !! "PRESENT_VAR"
      ∧ ValueLookup "PRESENT_VAR" st' = ValueLookup "PRESENT_VAR" one_checked.
Proof.
  split; [exact reachable_one_checked|].
  destruct (Check 1 test_env missing_var one_checked)
    as [res st' tr| | |] eqn:E;
    try (vm_compute in E; discriminate E).
  exists res, st', tr. split; [reflexivity|].
  destruct (Check_touches_its_name_only 0 test_env missing_var one_checked
              st' res tr reachable_one_checked E) as [Hf Hrest].
  split; [exact Hf|]. apply Hrest. discriminate.
Defined.

Lemma set_reg_same st : set_reg (reg st) st = st.
Proof. by destruct st. Qed.

(** X15. Repeating a Check that returned, with the same Requirement and
    in any environment, returns the same Result, leaves the registry
    exactly as it is and has no effect outside. *)
Theorem Check_again_changes_nothing :
  ∀ (fuel : nat) (env : Env) (r : Requirement) (st st' : State)
    (res : Result) (tr : Trace),
    reachable st →
    Check (S fuel) env r st = Returned res st' tr →
    ∀ (fuel' : nat) (env' : Env),
      Check (S fuel') env' r st' = Returned res st' [].
Proof.
  intros fuel env r st st' res tr Hreach HC fuel' env'.
  pose proof (reachable_wf st Hreach) as Hwf.
  destruct (Check_Returned_inv _ _ _ _ _ _ _ HC) as (_ & tr0 & Hp & _).
  pose proof (wf_proceed env r st Hwf) as Hwf'. rewrite Hp in Hwf'.
  cbn [state_after] in Hwf'.
  destruct (proceed_returns env r st) as (res0 & st0 & tr1 & Hp' & Hreg & _).
  rewrite Hp in Hp'. injection Hp' as <- <- <-.
  assert (cache st' !! Name r = Some res) as Hc.
  { pose proof (canonical_Name st r Hwf) as HN.
    rewrite proceed_eq in Hp. cbv zeta in Hp. rewrite HN in Hp.
    destruct (cache st !! Name r) as [cached|] eqn:E;
      injection Hp as <- <- <-; cbn; [exact E|apply lookup_insert_eq]. }
  rewrite (Check_cached fuel' env' r st' res Hwf' Hc). f_equal.
  assert (canonical st' r = canonical st r) as ->.
  { unfold canonical at 1. rewrite Hreg, lookup_insert_eq.
    unfold canonical. destruct (reg st !! Name r);
      [apply merge_again | apply merge_idempotent]. }
  rewrite insert_id; [apply set_reg_same|].
  rewrite Hreg. apply lookup_insert_eq.
Qed.

Lemma Check_again_changes_nothing_witness :
  reachable init
  ∧ ∃ res st' tr,
      Check 1 test_env port_default init = Returned res st' tr
      ∧ Check 1 show_values_env port_default st' = Returned res st' [].
Proof.
  split; [exact reachable_init|].
  destruct (Check 1 test_env port_default init) as [res st' tr| | |] eqn:E;
    try (vm_compute in E; discriminate E).
  exists res, st', tr. split; [reflexivity|].
  exact (Check_again_changes_nothing 0 test_env port_default init st' res tr
           reachable_init E 0 show_values_env).
Defined.

(** X16. A Check of a name that is already cached returns the cached
    Result without any effect outside, and still merges its declaration
    into the registry: the stored requirement becomes the merge of the two,
    optional only if both are and sensitive if either is, while the cache
    is unchanged. *)
Theorem Check_of_cached_name_still_merges :
  ∀ (fuel : nat) (env : Env) (r : Requirement) (st : State) (res : Result),
    reachable st →
    cache st !! Name r = Some res →
    ∃ R st',
      reg st !! Name r = Some R
      ∧ Check (S fuel) env r st = Returned res st' []
      ∧ reg st' !! Name r = Some (merge R r)
      ∧ Optional (merge R r) = Optional R && Optional r
      ∧ Sensitive (merge R r) = Sensitive R || Sensitive r
      ∧ cache st' = cache st.
Proof.
  intros fuel env r st res Hreach Hc.
  pose proof (reachable_wf st Hreach) as Hwf.
  destruct (proj2 Hwf _ _ Hc) as [_ [R HR]].
  exists R. eexists. split; [exact HR|].
  split; [apply (Check_cached fuel env r st res Hwf Hc)|].
  cbn. rewrite lookup_insert_eq. unfold canonical. rewrite HR.
  split; [reflexivity|]. rewrite merge_fields. cbn. auto.
Qed.

Lemma Check_of_cached_name_still_merges_witness :
  reachable one_checked
  ∧ cache one_checked !! Name present_var_again
    = Some (loaded test_env present_var)
  ∧ ∃ R st',
      reg one_checked !! Name present_var_again = Some R
      ∧ Check 1 show_values_env present_var_again one_checked
        = Returned (loaded test_env present_var) st' []
      ∧ reg st' !! Name present_var_again = Some (merge R present_var_again)
      ∧ Optional (merge R present_var_again)
        = Optional R && Optional present_var_again
      ∧ Sensitive (merge R present_var_again)
        = Sensitive R || Sensitive present_var_again
      ∧ cache st' = cache one_checked.
Proof.
  assert (cache one_checked !! Name present_var_again
          = Some (loaded test_env present_var)) as Hc
    by (vm_compute; reflexivity).
  split; [exact reachable_one_checked|]. split; [exact Hc|].
  exact (Check_of_cached_name_still_merges 0 show_values_env
           present_var_again one_checked (loaded test_env present_var)
           reachable_one_checked Hc).
Defined.

(** X17. Check panics in exactly one situation: the registry is
    frozen, the name is new and the declaration is required.  Then the
    requirements of the registry are as before and every registered name
    has been resolved by the dump.  In every other situation of a reachable
    registry Check returns a Result. *)
Theorem Check_panics_only_on_late_required :
  ∀ (fuel : nat) (env : Env) (r : Requirement) (st : State),
    reachable st →
    (frozen st = true ∧ reg st !! Name r = None ∧ Optional r = false →
     ∃ st' tr,
       Check (S (S fuel)) env r st = Panicked (late_required_panic r) st' tr
       ∧ reg st' = reg st
       ∧ dom (cache st') = dom (reg st))
    ∧ (¬ (frozen st = true ∧ reg st !! Name r = None ∧ Optional r = false) →
       ∃ res st' tr, Check (S (S fuel)) env r st = Returned res st' tr).
Proof.
  intros fuel env r st Hreach. pose proof (reachable_wf st Hreach) as Hwf.
  split.
  - intros (Hfr & Hnew & Hreq).
    assert (gate_blocks st r = true) as Hb.
    { unfold gate_blocks. rewrite Hfr, Hnew, Hreq.
      rewrite bool_decide_eq_false_2 by (intros [? ?]; congruence).
      reflexivity. }
    destruct (CheckAll_post fuel env st Hwf)
      as (pre & st' & tr & HC & Hwf' & Hreg & _ & _ & Hall & Hperm & _).
    rewrite (gate_blocks_dump _ _ _ _ Hb), dump_eq, HC.
    do 2 eexists. split; [reflexivity|]. split; [exact Hreg|].
    apply set_eq. intros N. rewrite !elem_of_dom. split.
    + intros [res Hres]. destruct Hwf' as [_ Hcache].
      rewrite <- Hreg. exact (proj2 (Hcache _ _ Hres)).
    + intros HN. apply keys_of_registry in HN. rewrite <- Hperm in HN.
      apply list_elem_of_fmap in HN as (res & -> & Hin).
      rewrite Forall_forall in Hall. rewrite (Hall _ Hin). eauto.
  - intros Hnot.
    assert (gate_blocks st r = false) as Hb.
    { unfold gate_blocks. destruct (frozen st) eqn:Hfr; [|reflexivity].
      destruct (reg st !! Name r) eqn:Hreg.
      - rewrite bool_decide_eq_true_2 by eauto. reflexivity.
      - destruct (Optional r) eqn:Hopt; [apply andb_false_r|].
        exfalso. apply Hnot. auto. }
    destruct (proceed_returns env r st) as (res & st' & tr & Hp & _).
    rewrite (gate_passes _ _ _ _ Hb), Hp. cbn [prepend]. eauto.
Qed.

Lemma Check_panics_only_on_late_required_witness :
  reachable one_frozen
  ∧ (frozen one_frozen = true ∧ reg one_frozen !! "LATE" = None
     ∧ Optional (required "LATE") = false)
  ∧ (∃ st' tr,
       Check 2 test_env (required "LATE") one_frozen
       = Panicked (late_required_panic (required "LATE")) st' tr
       ∧ reg st' = reg one_frozen
       ∧ dom (cache st') = dom (reg one_frozen))
  ∧ ∃ res st' tr,
      Check 2 test_env (optional "LATE") one_frozen = Returned res st' tr.
Proof.
  assert (frozen one_frozen = true ∧ reg one_frozen !! "LATE" = None
          ∧ Optional (required "LATE") = false) as Hlate
    by (vm_compute; auto).
  split; [exact reachable_one_frozen|]. split; [exact Hlate|]. split.
  - exact (proj1 (Check_panics_only_on_late_required 0 test_env
                    (required "LATE") one_frozen reachable_one_frozen) Hlate).
  - apply (proj2 (Check_panics_only_on_late_required 0 test_env
                    (optional "LATE") one_frozen reachable_one_frozen)).
    intros (_ & _ & H). discriminate H.
Defined.

(** X18. When MustValidate returns (rather than exits), the
    requirements of the registry are as before, every registered name is
    cached, and every cached Result that is required is present and has no
    error. *)
Theorem MustValidate_returns_only_when_satisfied :
  ∀ (fuel : nat) (env : Env) (st st' : State) (tr : Trace),
    reachable st →
    MustValidate (S fuel) env st = Returned tt st' tr →
    reg st' = reg st
    ∧ ∀ N, is_Some (reg st !! N) →
           ∃ res, cache st' !! N = Some res
                  ∧ (Optional (Req res) = false →
                     Present res = true ∧ Err res = None).
Proof.
  intros fuel env st st' tr Hreach HM.
  destruct (CheckAll_post fuel env st (reachable_wf st Hreach))
    as (pre & st1 & tr1 & HC & Hwf' & Hreg & _ & _ & Hall & Hperm & _).
  unfold MustValidate in HM.
  rewrite (bind_Returned _ _ _ _ _ _ HC) in HM.
  rewrite (bind_Returned _ _ st1 tt st1
             [Stderr (Report env (sort_by_name pre)).1]) in HM by reflexivity.
  assert ((Report env (sort_by_name pre)).2 = count_failing (sort_by_name pre))
    as Hcount by (unfold Report; rewrite report_loop_count; lia).
  rewrite Hcount in HM.
  destruct (0 <? count_failing (sort_by_name pre))%Z eqn:Hpos.
  { rewrite (bind_Returned _ _ st1 tt st1
               [Stderr (exit_msg (count_failing (sort_by_name pre)))]) in HM
      by reflexivity.
    discriminate HM. }
  cbn in HM. injection HM as <- _.
  split; [exact Hreg|]. intros N HN.
  apply keys_of_registry in HN. rewrite <- Hperm in HN.
  apply list_elem_of_fmap in HN as (res & -> & Hin).
  rewrite Forall_forall in Hall. exists res. split; [by apply Hall|].
  intros Hreq.
  assert (failing res = false) as Hf.
  { apply Z.ltb_ge in Hpos. unfold count_failing in Hpos.
    assert (List.filter failing (sort_by_name pre) = []) as Hnil
      by (destruct (List.filter failing (sort_by_name pre));
          [reflexivity | cbn in Hpos; lia]).
    destruct (failing res) eqn:E; [|reflexivity].
    assert (In res (List.filter failing (sort_by_name pre))) as Hin'.
    { apply List.filter_In. split; [|exact E].
      apply list_elem_of_In. by rewrite sort_by_name_perm. }
    rewrite Hnil in Hin'. destruct Hin'. }
  unfold failing in Hf. rewrite Hreq in Hf. cbn [negb andb] in Hf.
  apply orb_false_iff in Hf as [Hp He].
  apply negb_false_iff in Hp. apply bool_decide_eq_false in He.
  split; [exact Hp|]. destruct (Err res); [exfalso; apply He; eauto|reflexivity].
Qed.

Lemma MustValidate_returns_only_when_satisfied_witness :
  reachable one_checked
  ∧ ∃ st' tr,
      MustValidate 1 test_env one_checked = Returned tt st' tr
      ∧ reg st' = reg one_checked
      ∧ ∀ N, is_Some (reg one_checked !! N) →
             ∃ res, cache st' !! N = Some res
                    ∧ (Optional (Req res) = false →
                       Present res = true ∧ Err res = None).
Proof.
  split; [exact reachable_one_checked|].
  destruct (MustValidate 1 test_env one_checked) as [[] st' tr| | |] eqn:E;
    try (vm_compute in E; discriminate E).
  exists st', tr. split; [reflexivity|].
  exact (MustValidate_returns_only_when_satisfied 0 test_env one_checked st'
           tr reachable_one_checked E).
Defined.


(* ===================================================================== *)
(** * Report and the values; interleaved callers                         *)
(* ===================================================================== *)

Lemma substring_length s :
  ∀ n m, n + m <= String.length s → String.length (substring n m s) = m.
Proof.
  induction s as [|c s IH]; intros n m H; cbn [String.length] in H.
  - assert (n = 0 ∧ m = 0) as [-> ->] by lia. reflexivity.
  - destruct n as [|n]; cbn [substring].
    + destruct m as [|m]; [reflexivity|]. cbn [String.length].
      rewrite (IH 0 m) by lia. reflexivity.
    + apply IH. lia.
Qed.

Lemma substring_all s : substring 0 (String.length s) s = s.
Proof. induction s as [|c s IH]; [reflexivity|]. cbn. by rewrite IH. Qed.

Lemma slice_last_4 v :
  4 <= String.length v →
  String.length (slice_last 4 v) = 4
  ∧ slice_last 4 (slice_last 4 v) = slice_last 4 v.
Proof.
  intros H. unfold slice_last.
  set (w := substring (String.length v - 4) 4 v).
  assert (String.length w = 4) as Hl by (apply substring_length; lia).
  split; [exact Hl|]. rewrite Hl. cbn [Nat.sub].
  pose proof (substring_all w) as Hw. rewrite Hl in Hw. exact Hw.
Qed.

Lemma classify_redact show res missing :
  classify show (redact show res) missing = classify show res missing.
Proof.
  unfold redact. destruct show; [|reflexivity].
  destruct (Sensitive (Req res)) eqn:Hs; [|reflexivity].
  unfold classify, with_Value. cbn [Req Present Value Err]. rewrite Hs.
  destruct (negb (Present res) && negb (Optional (Req res))); [reflexivity|].
  destruct (Err res); [reflexivity|].
  cbn [andb negb]. rewrite andb_false_r. cbn [andb].
  destruct (Present res); [|reflexivity]. cbn [andb].
  destruct (Nat.leb_spec 4 (String.length (Value res))) as [H4|H4].
  - destruct (slice_last_4 _ H4) as [-> ->]. reflexivity.
  - reflexivity.
Qed.

Lemma report_entry_redact show res missing :
  report_entry show (redact show res) missing = report_entry show res missing.
Proof.
  unfold report_entry. rewrite classify_redact.
  assert (Req (redact show res) = Req res) as ->; [|reflexivity].
  unfold redact. destruct show, (Sensitive (Req res)); reflexivity.
Qed.

(** X19. The text and the count of Report depend on the values of the
    Results only through what [redact] keeps of them: nothing with the
    toggle off; with the toggle on, of a sensitive value its last four
    bytes, or nothing when it has fewer than four.  (The error of a Result
    is another field, which Report prints as it is.) *)
Theorem Report_sees_redacted_values_only :
  ∀ (env : Env) (results : list Result),
    Report env results = Report env (map (redact (show_values env)) results).
Proof.
  intros env results. unfold Report. fold (show_values env).
  generalize report_header, 0%Z.
  induction results as [|res results IH]; intros out missing; [reflexivity|].
  cbn [map report_loop]. rewrite report_entry_redact.
  destruct (report_entry (show_values env) res missing) as [line m].
  apply IH.
Qed.

Lemma caller_ok_dump_next st r out todo : caller_ok st (dump_next r out todo).
Proof. destruct todo; exact I. Qed.

(** One step of a caller keeps the invariant of the maps and of the
    callers, and loses no name. *)
Lemma caller_step_inv env c :
  ∀ st,
    wf st → caller_ok st c →
    match caller_step env c st with
    | Returned c' st' _ =>
        wf st' ∧ caller_ok st' c'
        ∧ ∀ N, is_Some (reg st !! N) → is_Some (reg st' !! N)
    | Panicked _ st' _ | Exited _ st' _ => wf st'
    | OutOfFuel => True
    end.
Proof.
  induction c as [r|r|r|r out todo inner IH|r results|r|r|r|r v|res|res];
    intros st Hwf Hok.
  all: assert (∀ c', caller_ok st c' →
            wf st ∧ caller_ok st c'
            ∧ ∀ N, is_Some (reg st !! N) → is_Some (reg st !! N)) as Hsame
    by (intros c' H; split; [exact Hwf|]; split; [exact H|]; auto).
  - assert (caller_step env (AtGate r) st
            = Returned (if frozen st then AtGateLookup r else AtMerge r) st [])
      as -> by reflexivity.
    destruct (frozen st); apply Hsame; exact I.
  - cbn [caller_step].
    rewrite (bind_Returned _ _ st (reg st !! Name r) st []) by reflexivity.
    destruct (reg st !! Name r); [apply Hsame; exact I|].
    destruct (Optional r); apply Hsame; exact I.
  - rewrite step_AtDump. apply Hsame, caller_ok_dump_next.
  - rewrite step_AtDumpCheck. cbn [caller_ok] in Hok.
    specialize (IH st Hwf Hok).
    destruct (caller_step env inner st) as [inner' st' tr| | |];
      try exact IH.
    destruct IH as (Hwf' & Hok' & Hmono).
    split; [exact Hwf'|]. split; [|exact Hmono].
    destruct inner'; try exact Hok'. apply caller_ok_dump_next.
  - rewrite step_AtDumpReport. exact Hwf.
  - rewrite step_AtMerge. split; [by apply wf_register|]. split.
    + cbn. rewrite (canonical_Name st r Hwf), lookup_insert_eq. eauto.
    + intros N HN. cbn. destruct (decide (Name r = N)) as [<-|Hne].
      * rewrite lookup_insert_eq. eauto.
      * by rewrite lookup_insert_ne.
  - rewrite step_AtCacheCheck.
    destruct (cache st !! Name r); apply Hsame; [exact I | exact Hok].
  - rewrite step_AtLookupEnv. apply Hsame. exact Hok.
  - rewrite step_AtValidate. apply Hsame. exact Hok.
  - rewrite step_AtStore. split; [by apply wf_store|]. split; [exact I|].
    cbn. auto.
  - apply Hsame. exact I.
Qed.

Lemma caller_ok_mono st st' c :
  (∀ N, is_Some (reg st !! N) → is_Some (reg st' !! N)) →
  caller_ok st c → caller_ok st' c.
Proof. intros H. induction c; cbn; auto. Qed.

Lemma run_schedule_inv env sched :
  ∀ cs st,
    wf st → Forall (caller_ok st) cs →
    match state_after (run_schedule env sched cs st) with
    | Some st' => wf st'
    | None => True
    end.
Proof.
  induction sched as [|i sched IH]; intros cs st Hwf Hcs; cbn [run_schedule].
  - exact Hwf.
  - rewrite bind_prepend. unfold sched_step.
    destruct (cs !! i) as [c|] eqn:Hi.
    + rewrite bind_prepend.
      assert (caller_ok st c) as Hc
        by (rewrite Forall_forall in Hcs; apply Hcs;
            by eapply list_elem_of_lookup_2).
      pose proof (caller_step_inv env c st Hwf Hc) as Hstep.
      destruct (caller_step env c st) as [c' st' tr'| | |]; cbn; try exact Hstep.
      destruct Hstep as (Hwf' & Hc' & Hmono).
      rewrite !state_after_prepend. apply IH; [exact Hwf'|].
      apply Forall_insert; [|exact Hc'].
      eapply Forall_impl; [exact Hcs|]. intros c0. by apply caller_ok_mono.
    + cbn. rewrite state_after_prepend. by apply IH.
Qed.

(** X20. Under every interleaving of the lock-delimited steps of any
    number of callers of Check, complete or not, returned or panicked, the
    steps of a dump (the snapshot of CheckAll, each step of each call of
    Check in its loop, the report and the panic) interleaved like any
    others, the registry keeps its invariant: every cached name is
    registered, and every entry of the two maps sits under its own name. *)
Theorem interleaved_callers_keep_the_invariant :
  ∀ (env : Env) (sched : list nat) (rs : list Requirement) (st st' : State),
    reachable st →
    state_after (run_schedule env sched (map AtGate rs) st) = Some st' →
    dom (cache st') ⊆ dom (reg st')
    ∧ (∀ N res, cache st' !! N = Some res → Name (Req res) = N)
    ∧ (∀ N R, reg st' !! N = Some R → Name R = N).
Proof.
  intros env sched rs st st' Hreach Hrun.
  pose proof (run_schedule_inv env sched (map AtGate rs) st
                (reachable_wf st Hreach)) as Hinv.
  rewrite Hrun in Hinv.
  destruct Hinv as [Hreg Hcache].
  { apply Forall_forall. intros c Hc.
    apply list_elem_of_fmap in Hc as (r & -> & _). exact I. }
  split; [|split].
  - intros N HN. apply elem_of_dom in HN as [res Hres].
    apply elem_of_dom. exact (proj2 (Hcache _ _ Hres)).
  - intros N res Hres. exact (proj1 (Hcache _ _ Hres)).
  - exact Hreg.
Qed.

Lemma interleaved_callers_keep_the_invariant_witness :
  reachable one_frozen
  ∧ ∃ st' tr,
      run_schedule test_env dump_overlap (map AtGate late_callers) one_frozen
      = Panicked (late_required_panic (required "LATE")) st' tr
      ∧ is_Some (reg st' !! "OPT")
      ∧ cache st' !! "OPT" = None
      ∧ dom (cache st') ⊆ dom (reg st')
      ∧ (∀ N res, cache st' !! N = Some res → Name (Req res) = N)
      ∧ (∀ N R, reg st' !! N = Some R → Name R = N).
Proof.
  split; [exact reachable_one_frozen|].
  pose (o := run_schedule test_env dump_overlap (map AtGate late_callers)
               one_frozen).
  exists (state_of o), (trace_of o).
  split; [reflexivity|]. split; [vm_compute; eauto|].
  split; [reflexivity|].
  exact (interleaved_callers_keep_the_invariant test_env dump_overlap
           late_callers one_frozen (state_of o) reachable_one_frozen eq_refl).
Defined.

Lemma not_loading_dump_next N r out todo :
  not_loading N (dump_next r out todo).
Proof. destruct todo; exact I. Qed.

(** While [N] is cached and no caller is between a miss for [N] and its
    store, a step of a caller keeps both, and neither reads the variable
    [N] nor runs a validator on it. *)
Lemma caller_step_cached env N res c :
  ∀ st c' st' tr,
    cache st !! N = Some res → not_loading N c →
    caller_step env c st = Returned c' st' tr →
    cache st' !! N = Some res ∧ not_loading N c'
    ∧ lookups N tr = 0 ∧ validations N tr = 0.
Proof.
  induction c as [r|r|r|r out todo inner IH|r results|r|r|r|r v|res0|res0];
    intros st c' st' tr Hc Hnl Hstep.
  - cbn in Hstep. injection Hstep as <- <- <-.
    split; [exact Hc|]. split; [by destruct (frozen st)|]. split; reflexivity.
  - cbn [caller_step] in Hstep.
    rewrite (bind_Returned _ _ st (reg st !! Name r) st []) in Hstep
      by reflexivity.
    destruct (reg st !! Name r); [|destruct (Optional r)];
      cbv in Hstep; injection Hstep as <- <- <-; repeat split; exact Hc.
  - rewrite step_AtDump in Hstep. injection Hstep as <- <- <-.
    split; [exact Hc|]. split; [apply not_loading_dump_next|].
    split; reflexivity.
  - rewrite step_AtDumpCheck in Hstep. cbn [not_loading] in Hnl.
    destruct (caller_step env inner st) as [inner' st1 tr1| | |] eqn:Hs;
      try discriminate Hstep.
    injection Hstep as <- <- <-.
    destruct (IH st inner' st1 tr1 Hc Hnl Hs) as (Hc' & Hnl' & Hq).
    split; [exact Hc'|]. split; [|exact Hq].
    destruct inner'; try exact Hnl'. apply not_loading_dump_next.
  - rewrite step_AtDumpReport in Hstep. discriminate Hstep.
  - rewrite step_AtMerge in Hstep. injection Hstep as <- <- <-.
    split; [exact Hc|]. split; [exact I|]. split; reflexivity.
  - rewrite step_AtCacheCheck in Hstep.
    destruct (cache st !! Name r) eqn:E; injection Hstep as <- <- <-;
      (split; [exact Hc|]); (split; [|split; reflexivity]); [exact I|].
    cbn. intros HN. rewrite HN, Hc in E. discriminate E.
  - rewrite step_AtLookupEnv in Hstep. injection Hstep as <- <- <-.
    cbn [not_loading] in Hnl |- *.
    split; [exact Hc|]. split; [exact Hnl|].
    unfold lookups, validations. cbn.
    apply String.eqb_neq in Hnl. rewrite Hnl. split; reflexivity.
  - rewrite step_AtValidate in Hstep. injection Hstep as <- <- <-.
    cbn [not_loading] in Hnl |- *.
    split; [exact Hc|]. split; [exact Hnl|].
    unfold lookups, validations.
    apply String.eqb_neq in Hnl.
    destruct v.2, (Validate r); cbn; rewrite ?Hnl; split; reflexivity.
  - rewrite step_AtStore in Hstep. injection Hstep as <- <- <-.
    cbn [not_loading] in Hnl. split; [|split; [exact I|split; reflexivity]].
    cbn. rewrite lookup_insert_ne by exact Hnl. exact Hc.
  - cbn in Hstep. injection Hstep as <- <- <-.
    split; [exact Hc|]. split; [exact I|]. split; reflexivity.
Qed.

(** While [N] is cached, a caller of [N] that holds a requirement of that
    name keeps one until it returns the cached Result. *)
Lemma caller_step_returns_cached env N res r c st c' st' tr :
  wf st → cache st !! N = Some res →
  returns_cached N res r c →
  caller_step env c st = Returned c' st' tr →
  returns_cached N res r c'.
Proof.
  intros Hwf Hc Hrc Hstep HN. specialize (Hrc HN).
  destruct c as [r0|r0|r0|r0 out todo inner|r0 results|r0|r0|r0|r0 v|res0|res0].
  - cbn in Hstep. injection Hstep as <- _ _. by destruct (frozen st).
  - cbn [caller_step] in Hstep.
    rewrite (bind_Returned _ _ st (reg st !! Name r0) st []) in Hstep
      by reflexivity.
    destruct (reg st !! Name r0); [|destruct (Optional r0)];
      cbv in Hstep; injection Hstep as <- _ _; first [exact Hrc | exact I].
  - rewrite step_AtDump in Hstep. injection Hstep as <- _ _.
    by destruct (snapshot_split st).2.
  - rewrite step_AtDumpCheck in Hstep.
    destruct (caller_step env inner st) as [inner' st1 tr1| | |];
      try discriminate Hstep.
    injection Hstep as <- _ _.
    destruct inner'; try exact I. by destruct todo.
  - rewrite step_AtDumpReport in Hstep. discriminate Hstep.
  - rewrite step_AtMerge in Hstep. injection Hstep as <- _ _.
    cbn. by rewrite (canonical_Name st r0 Hwf).
  - rewrite step_AtCacheCheck in Hstep. rewrite Hrc, Hc in Hstep.
    injection Hstep as <- _ _. reflexivity.
  - destruct Hrc.
  - destruct Hrc.
  - destruct Hrc.
  - cbn in Hstep. injection Hstep as <- _ _. exact Hrc.
Qed.

Lemma run_schedule_cached env N res rs sched :
  ∀ cs st cs' st' tr,
    wf st → Forall (caller_ok st) cs →
    cache st !! N = Some res →
    Forall (not_loading N) cs →
    Forall2 (returns_cached N res) rs cs →
    run_schedule env sched cs st = Returned cs' st' tr →
    cache st' !! N = Some res
    ∧ Forall2 (returns_cached N res) rs cs'
    ∧ lookups N tr = 0 ∧ validations N tr = 0.
Proof.
  induction sched as [|i sched IH];
    intros cs st cs' st' tr Hwf Hok Hc Hnl Hrc Hrun;
    cbn [run_schedule] in Hrun.
  - cbn in Hrun. injection Hrun as <- <- <-.
    split; [exact Hc|]. split; [exact Hrc|]. split; reflexivity.
  - rewrite bind_prepend in Hrun.
    destruct (sched_step env i cs st) as [cs1 st1 tr1| | |] eqn:Hstep;
      try discriminate Hrun.
    destruct (run_schedule env sched cs1 st1) as [cs2 st2 tr2| | |] eqn:Hrest;
      try discriminate Hrun.
    cbn in Hrun. injection Hrun as <- <- <-.
    assert (wf st1 ∧ Forall (caller_ok st1) cs1
            ∧ cache st1 !! N = Some res
            ∧ Forall (not_loading N) cs1
            ∧ Forall2 (returns_cached N res) rs cs1
            ∧ lookups N tr1 = 0 ∧ validations N tr1 = 0)
      as (Hwf1 & Hok1 & Hc1 & Hnl1 & Hrc1 & Hl1 & Hv1).
    { unfold sched_step in Hstep.
      destruct (cs !! i) as [c|] eqn:Hi;
        [|cbn in Hstep; injection Hstep as <- <- <-;
          split; [exact Hwf|]; split; [exact Hok|]; split; [exact Hc|];
          split; [exact Hnl|]; split; [exact Hrc|]; split; reflexivity].
      rewrite bind_prepend in Hstep.
      assert (caller_ok st c) as Hokc
        by (rewrite Forall_forall in Hok; apply Hok;
            by eapply list_elem_of_lookup_2).
      assert (not_loading N c) as Hnlc
        by (rewrite Forall_forall in Hnl; apply Hnl;
            by eapply list_elem_of_lookup_2).
      pose proof (caller_step_inv env c st Hwf Hokc) as Hinv.
      destruct (caller_step env c st) as [c' st3 tr3| | |] eqn:Hcs;
        try discriminate Hstep.
      cbn in Hstep. injection Hstep as <- <- <-.
      destruct Hinv as (Hwf' & Hokc' & Hmono).
      destruct (caller_step_cached env N res c st c' st3 tr3 Hc Hnlc Hcs)
        as (Hc' & Hnlc' & Hl & Hv).
      split; [exact Hwf'|]. split.
      { apply Forall_insert; [|exact Hokc'].
        eapply Forall_impl; [exact Hok|]. intros c0. by apply caller_ok_mono. }
      split; [exact Hc'|]. split; [by apply Forall_insert|]. split.
      { destruct (Forall2_lookup_r _ _ _ _ _ Hrc Hi) as (r & Hr & Hrcc).
        rewrite <- (list_insert_id rs i r Hr). apply Forall2_insert; [exact Hrc|].
        exact (caller_step_returns_cached env N res r c st c' st3 tr3
                 Hwf Hc Hrcc Hcs). }
      rewrite lookups_app, validations_app, Hl, Hv. split; reflexivity. }
    destruct (IH cs1 st1 cs2 st2 tr2 Hwf1 Hok1 Hc1 Hnl1 Hrc1 Hrest)
      as (Hc2 & Hrc2 & Hl2 & Hv2).
    split; [exact Hc2|]. split; [exact Hrc2|].
    rewrite lookups_app, validations_app, Hl1, Hv1, Hl2, Hv2.
    split; reflexivity.
Qed.

(** X23. Memoization holds for callers that overlap one another, as long
    as all of them start after the Result is cached: from a reachable
    registry in which [res] is cached for [N], under every interleaving of
    the steps of any callers of Check, for any names, in which no caller
    has panicked, [res] is still the cache entry of [N], every caller that
    declared [N] and has returned has returned [res], and nobody read the
    variable [N] or ran a validator on it. *)
Theorem later_callers_return_cached_Result :
  ∀ (env : Env) (N : string) (res : Result) (sched : list nat)
    (rs : list Requirement) (st st' : State) (cs' : list Caller) (tr : Trace),
    reachable st →
    cache st !! N = Some res →
    run_schedule env sched (map AtGate rs) st = Returned cs' st' tr →
    cache st' !! N = Some res
    ∧ (∀ i r res', rs !! i = Some r → Name r = N →
                   cs' !! i = Some (Done res') → res' = res)
    ∧ lookups N tr = 0
    ∧ validations N tr = 0.
Proof.
  intros env N res sched rs st st' cs' tr Hreach Hc Hrun.
  destruct (run_schedule_cached env N res rs sched (map AtGate rs) st cs' st'
              tr (reachable_wf st Hreach)) as (Hc' & Hrc & Hl & Hv);
    try assumption.
  - apply Forall_forall. intros c Hin.
    apply list_elem_of_fmap in Hin as (r & -> & _). exact I.
  - apply Forall_forall. intros c Hin.
    apply list_elem_of_fmap in Hin as (r & -> & _). exact I.
  - apply Forall2_fmap_r, Forall_Forall2_diag, Forall_forall.
    intros r _ HN. exact HN.
  - split; [exact Hc'|]. split; [|split; assumption].
    intros i r res' Hr HN Hi.
    exact (Forall2_lookup_lr _ _ _ _ _ _ Hrc Hr Hi HN).
Qed.

Lemma later_callers_return_cached_Result_witness :
  reachable one_checked
  ∧ cache one_checked !! "PRESENT_VAR" = Some (loaded test_env present_var)
  ∧ ∃ done st' tr,
      run_schedule show_values_env round_robin (map AtGate three_callers)
                   one_checked
      = Returned [Done (loaded test_env present_var); Done done;
                  Done (loaded test_env present_var)] st' tr
      ∧ cache st' !! "PRESENT_VAR" = Some (loaded test_env present_var)
      ∧ lookups "PRESENT_VAR" tr = 0
      ∧ validations "PRESENT_VAR" tr = 0.
Proof.
  assert (cache one_checked !! "PRESENT_VAR"
          = Some (loaded test_env present_var)) as Hc
    by (vm_compute; reflexivity).
  split; [exact reachable_one_checked|]. split; [exact Hc|].
  pose (o := run_schedule show_values_env round_robin
               (map AtGate three_callers) one_checked).
  assert (o = Returned [Done (loaded test_env present_var);
                        Done (loaded show_values_env missing_var);
                        Done (loaded test_env present_var)]
                       (state_of o) (trace_of o)) as E by reflexivity.
  exists (loaded show_values_env missing_var), (state_of o), (trace_of o).
  split; [exact E|].
  destruct (later_callers_return_cached_Result show_values_env "PRESENT_VAR"
              (loaded test_env present_var) round_robin three_callers
              one_checked (state_of o) _ (trace_of o)
              reachable_one_checked Hc E) as (Hc' & _ & Hl & Hv).
  split; [exact Hc'|]. split; [exact Hl | exact Hv].
Defined.

(* ===================================================================== *)
(** * Declarations of one name: after Freeze, and interleaved            *)
(* ===================================================================== *)

(** X21. The gate of a frozen registry looks at the name only: once an
    optional declaration of a new name has passed it with a warning, a
    required declaration of the same name passes it as well, without
    panic; the registry then holds the name as required, while the Result
    returned, the one cached by the first call, still says optional. *)
Theorem late_optional_declaration_admits_required :
  ∀ (fuel : nat) (env : Env) (r1 r2 : Requirement) (st : State),
    reachable st →
    frozen st = true →
    reg st !! Name r1 = None →
    Optional r1 = true →
    Name r2 = Name r1 →
    Optional r2 = false →
    ∃ res1 st1 tr1 res2 st2 tr2 R,
      Check (S fuel) env r1 st = Returned res1 st1 tr1
      ∧ Check (S fuel) env r2 st1 = Returned res2 st2 tr2
      ∧ res2 = res1
      ∧ frozen st2 = true
      ∧ reg st2 !! Name r1 = Some R
      ∧ Optional R = false
      ∧ Optional (Req res2) = true.
Proof.
  intros fuel env r1 r2 st Hreach Hfr Hnew Hopt HN Hreq.
  pose proof (reachable_wf st Hreach) as Hwf.
  assert (gate_blocks st r1 = false) as Hb
    by (unfold gate_blocks; rewrite Hopt; apply andb_false_r).
  assert (canonical st r1 = r1) as Hcan
    by (unfold canonical; by rewrite Hnew).
  assert (cache st !! Name r1 = None) as Hmiss.
  { destruct (cache st !! Name r1) as [res|] eqn:E; [|reflexivity].
    destruct (proj2 Hwf _ _ E) as [_ [R HR]]. congruence. }
  pose proof (wf_proceed env r1 st Hwf) as Hwf1.
  assert (Check (S fuel) env r1 st
          = Returned (loaded env r1)
              (set_cache (<[Name r1 := loaded env r1]> (cache st))
                 (set_reg (<[Name r1 := r1]> (reg st)) st))
              (gate_trace st r1 ++ load_trace env r1)%list) as HC1.
  { rewrite (gate_passes _ _ _ _ Hb), proceed_eq. cbv zeta.
    rewrite Hcan, Hmiss. reflexivity. }
  rewrite proceed_eq in Hwf1. cbv zeta in Hwf1. rewrite Hcan, Hmiss in Hwf1.
  cbn [state_after] in Hwf1.
  set (st1 := set_cache _ _) in *.
  assert (cache st1 !! Name r2 = Some (loaded env r1)) as Hc1
    by (rewrite HN; apply lookup_insert_eq).
  pose proof (Check_cached fuel env r2 st1 (loaded env r1) Hwf1 Hc1) as HC2.
  do 7 eexists. split; [exact HC1|]. split; [exact HC2|].
  split; [reflexivity|]. split; [exact Hfr|]. split.
  - cbn. rewrite HN. apply lookup_insert_eq.
  - split; [|exact Hopt].
    unfold canonical. cbn. rewrite HN, lookup_insert_eq.
    rewrite merge_fields. cbn. rewrite Hreq. apply andb_false_r.
Qed.

Lemma late_optional_declaration_admits_required_witness :
  reachable one_frozen
  ∧ frozen one_frozen = true
  ∧ reg one_frozen !! Name (optional "LATE") = None
  ∧ ∃ res1 st1 tr1 res2 st2 tr2 R,
      Check 1 test_env (optional "LATE") one_frozen = Returned res1 st1 tr1
      ∧ Check 1 test_env (required "LATE") st1 = Returned res2 st2 tr2
      ∧ res2 = res1
      ∧ frozen st2 = true
      ∧ reg st2 !! Name (optional "LATE") = Some R
      ∧ Optional R = false
      ∧ Optional (Req res2) = true.
Proof.
  split; [exact reachable_one_frozen|]. split; [reflexivity|].
  split; [reflexivity|].
  exact (late_optional_declaration_admits_required 0 test_env
           (optional "LATE") (required "LATE") one_frozen
           reachable_one_frozen eq_refl eq_refl eq_refl eq_refl eq_refl).
Defined.

(** A step that neither merges nor touches the registry keeps the flags. *)
Lemma flags_follow_same N rs cs st i c c' st' :
  cs !! i = Some c →
  merged c' = merged c →
  reg st' = reg st →
  flags_follow N rs cs st →
  flags_follow N rs (<[i := c']> cs) st'.
Proof.
  intros Hi Hm Hreg. unfold flags_follow. rewrite Hreg.
  assert (∀ j d, <[i := c']> cs !! j = Some d →
            ∃ d0, cs !! j = Some d0 ∧ merged d = merged d0) as Hback.
  { intros j d Hj. destruct (decide (i = j)) as [<-|Hne].
    - rewrite list_lookup_insert_eq in Hj by (by eapply lookup_lt_Some).
      injection Hj as <-. eauto.
    - rewrite list_lookup_insert_ne in Hj by exact Hne. eauto. }
  assert (∀ j d0, cs !! j = Some d0 →
            ∃ d, <[i := c']> cs !! j = Some d ∧ merged d = merged d0) as Hforth.
  { intros j d0 Hj. destruct (decide (i = j)) as [<-|Hne].
    - rewrite list_lookup_insert_eq by (by eapply lookup_lt_Some).
      exists c'. split; [reflexivity|]. congruence.
    - rewrite list_lookup_insert_ne by exact Hne. eauto. }
  destruct (reg st !! N) as [R|].
  - intros [HO HS]. split.
    + rewrite HO. split; intros H j r d Hr Hd Hmd.
      * destruct (Hback j d Hd) as (d0 & Hd0 & Hm0).
        apply (H j r d0 Hr Hd0). congruence.
      * destruct (Hforth j d Hd) as (d1 & Hd1 & Hm1).
        apply (H j r d1 Hr Hd1). congruence.
    + rewrite HS. split; intros (j & r & d & Hr & Hd & Hmd & Hs).
      * destruct (Hforth j d Hd) as (d1 & Hd1 & Hm1).
        exists j, r, d1. repeat split; try assumption. congruence.
      * destruct (Hback j d Hd) as (d0 & Hd0 & Hm0).
        exists j, r, d0. repeat split; try assumption. congruence.
  - intros H j d Hd. destruct (Hback j d Hd) as (d0 & Hd0 & Hm0).
    rewrite Hm0. by eapply H.
Qed.

Ltac same_decl Hr Hr' := rewrite Hr in Hr'; injection Hr' as <-.

(** The merge step of the caller of [r] brings [r] into the flags. *)
Lemma flags_follow_merge N rs cs st i r :
  Name r = N →
  rs !! i = Some r →
  cs !! i = Some (AtMerge r) →
  flags_follow N rs cs st →
  flags_follow N rs (<[i := AtCacheCheck (canonical st r)]> cs)
               (set_reg (<[Name r := canonical st r]> (reg st)) st).
Proof.
  intros HN Hr Hi. unfold flags_follow, canonical. cbn [reg set_reg].
  rewrite HN, lookup_insert_eq.
  assert (i < length cs) as Hlt by (by eapply lookup_lt_Some).
  assert (∀ c' j d, <[i := c']> cs !! j = Some d →
            j = i ∨ (j ≠ i ∧ cs !! j = Some d)) as Hback.
  { intros c' j d Hj. destruct (decide (i = j)) as [<-|Hne]; [by left|].
    right. rewrite list_lookup_insert_ne in Hj by exact Hne. auto. }
  destruct (reg st !! N) as [R|].
  - intros [HO HS]. rewrite merge_fields.
    cbn [Optional Sensitive]. split.
    + rewrite andb_true_iff, HO. split.
      * intros [H Hopt] j r' d Hr' Hd Hm.
        destruct (Hback _ j d Hd) as [Hji|[Hne Hd0]];
          [|exact (H j r' d Hr' Hd0 Hm)].
        subst j. same_decl Hr Hr'. exact Hopt.
      * intros H. split.
        -- intros j r' d Hr' Hd Hm.
           destruct (decide (i = j)) as [<-|Hne];
             [rewrite Hi in Hd; injection Hd as <-; discriminate Hm|].
           apply (H j r' d Hr'); [|exact Hm].
           by rewrite list_lookup_insert_ne.
        -- eapply (H i r _ Hr); [by apply list_lookup_insert_eq|reflexivity].
    + rewrite orb_true_iff, HS. split.
      * intros [(j & r' & d & Hr' & Hd & Hm & Hs)|Hs].
        -- exists j, r', d. split; [exact Hr'|]. split; [|auto].
           destruct (decide (i = j)) as [<-|Hne];
             [rewrite Hi in Hd; injection Hd as <-; discriminate Hm|].
           by rewrite list_lookup_insert_ne.
        -- exists i, r. eexists. split; [exact Hr|].
           split; [by apply list_lookup_insert_eq|]. auto.
      * intros (j & r' & d & Hr' & Hd & Hm & Hs).
        destruct (Hback _ j d Hd) as [Hji|[Hne Hd0]].
        -- right. subst j. same_decl Hr Hr'. exact Hs.
        -- left. exists j, r', d. auto.
  - intros H. split.
    + split.
      * intros Hopt j r' d Hr' Hd Hm.
        destruct (Hback _ j d Hd) as [Hji|[Hne Hd0]];
          [subst j; same_decl Hr Hr'; exact Hopt|].
        rewrite (H j d Hd0) in Hm. discriminate Hm.
      * intros H'. eapply (H' i r _ Hr);
          [by apply list_lookup_insert_eq|reflexivity].
    + split.
      * intros Hs. exists i, r. eexists. split; [exact Hr|].
        split; [by apply list_lookup_insert_eq|]. auto.
      * intros (j & r' & d & Hr' & Hd & Hm & Hs).
        destruct (Hback _ j d Hd) as [Hji|[Hne Hd0]];
          [subst j; same_decl Hr Hr'; exact Hs|].
        rewrite (H j d Hd0) in Hm. discriminate Hm.
Qed.

(** One scheduled step that leaves no caller in the dump keeps the
    registry invariant, the declarations the callers hold and the flags. *)
Lemma sched_step_flags env N rs i cs st cs' st' tr :
  Forall (fun r => Name r = N) rs →
  wf st → Forall (caller_ok st) cs → Forall2 holds rs cs →
  flags_follow N rs cs st →
  sched_step env i cs st = Returned cs' st' tr →
  Forall (fun c => dumping c = false) cs' →
  wf st' ∧ Forall (caller_ok st') cs' ∧ Forall2 holds rs cs'
  ∧ flags_follow N rs cs' st'.
Proof.
  intros Hnames Hwf Hok Hholds Hflags Hstep Hno. unfold sched_step in Hstep.
  destruct (cs !! i) as [c|] eqn:Hi;
    [|cbn in Hstep; injection Hstep as <- <- _; auto].
  rewrite bind_prepend in Hstep.
  assert (caller_ok st c) as Hc
    by (rewrite Forall_forall in Hok; apply Hok;
        by eapply list_elem_of_lookup_2).
  pose proof (caller_step_inv env c st Hwf Hc) as Hinv.
  destruct (Forall2_lookup_r _ _ _ _ _ Hholds Hi) as (r & Hr & Hrc).
  assert (Name r = N) as HN
    by (rewrite Forall_forall in Hnames; apply Hnames;
        by eapply list_elem_of_lookup_2).
  destruct (caller_step env c st) as [c' st1 tr1| | |] eqn:Hcs;
    try discriminate Hstep.
  cbn in Hstep. injection Hstep as <- <- _.
  assert (dumping c' = false) as Hnd.
  { rewrite Forall_lookup in Hno. apply (Hno i c').
    apply list_lookup_insert_eq. by eapply lookup_lt_Some. }
  assert (dumping c = false) as Hndc.
  { destruct (dumping c) eqn:Hd; [|reflexivity].
    by rewrite (caller_step_dumping _ _ _ _ _ _ Hcs Hd) in Hnd. }
  destruct Hinv as (Hwf' & Hc' & Hmono).
  split; [exact Hwf'|]. split.
  { apply Forall_insert; [|exact Hc'].
    eapply Forall_impl; [exact Hok|]. intros c0. by apply caller_ok_mono. }
  assert (∀ c2, holds r c2 → Forall2 holds rs (<[i := c2]> cs)) as Hins.
  { intros c2 H2. rewrite <- (list_insert_id rs i r Hr).
    by apply Forall2_insert. }
  destruct c as [r0|r0|r0|r0 out todo inner|r0 results|r0|r0|r0|r0 v|res|res];
    try discriminate Hndc; cbn [holds] in Hrc.
  - subst r0. cbn in Hcs. injection Hcs as <- <- _.
    split; [apply Hins; by destruct (frozen st)|].
    eapply flags_follow_same; [exact Hi| |reflexivity|exact Hflags].
    by destruct (frozen st).
  - subst r0. cbn [caller_step] in Hcs.
    rewrite (bind_Returned _ _ st (reg st !! Name r) st []) in Hcs
      by reflexivity.
    assert (st1 = st ∧ holds r c' ∧ merged c' = false) as (-> & Hh & Hm).
    { destruct (reg st !! Name r); [|destruct (Optional r)];
        cbv in Hcs; injection Hcs as <- <- _; repeat split. }
    split; [by apply Hins|].
    eapply flags_follow_same; [exact Hi|exact Hm|reflexivity|exact Hflags].
  - subst r0. rewrite step_AtMerge in Hcs. injection Hcs as <- <- _.
    split; [by apply Hins|]. by apply flags_follow_merge.
  - rewrite step_AtCacheCheck in Hcs.
    assert (st1 = st ∧ merged c' = true) as (-> & Hm)
      by (destruct (cache st !! Name r0); injection Hcs as <- <- _; auto).
    split; [apply Hins; by destruct c'|].
    eapply flags_follow_same; [exact Hi|exact Hm|reflexivity|exact Hflags].
  - rewrite step_AtLookupEnv in Hcs. injection Hcs as <- <- _.
    split; [by apply Hins|].
    eapply flags_follow_same; [exact Hi|reflexivity|reflexivity|exact Hflags].
  - rewrite step_AtValidate in Hcs. injection Hcs as <- <- _.
    split; [by apply Hins|].
    eapply flags_follow_same; [exact Hi|reflexivity|reflexivity|exact Hflags].
  - rewrite step_AtStore in Hcs. injection Hcs as <- <- _.
    split; [by apply Hins|].
    eapply flags_follow_same; [exact Hi|reflexivity|reflexivity|exact Hflags].
  - cbn in Hcs. injection Hcs as <- <- _.
    split; [by apply Hins|].
    eapply flags_follow_same; [exact Hi|reflexivity|reflexivity|exact Hflags].
Qed.

Lemma run_schedule_flags env N rs sched :
  Forall (fun r => Name r = N) rs →
  ∀ cs st cs' st' tr,
    wf st → Forall (caller_ok st) cs → Forall2 holds rs cs →
    flags_follow N rs cs st →
    run_schedule env sched cs st = Returned cs' st' tr →
    Forall (fun c => dumping c = false) cs' →
    Forall2 holds rs cs' ∧ flags_follow N rs cs' st'.
Proof.
  intros Hnames. induction sched as [|i sched IH];
    intros cs st cs' st' tr Hwf Hok Hholds Hflags Hrun Hno;
    cbn [run_schedule] in Hrun.
  - cbn in Hrun. injection Hrun as <- <- _. auto.
  - rewrite bind_prepend in Hrun.
    destruct (sched_step env i cs st) as [cs1 st1 tr1| | |] eqn:Hstep;
      try discriminate Hrun.
    destruct (run_schedule env sched cs1 st1) as [cs2 st2 tr2| | |] eqn:Hrest;
      try discriminate Hrun.
    cbn in Hrun. injection Hrun as <- <- _.
    pose proof (run_schedule_dumping _ _ _ _ _ _ _ Hrest Hno) as Hno1.
    destruct (sched_step_flags _ _ _ _ _ _ _ _ _ Hnames Hwf Hok Hholds Hflags
                Hstep Hno1) as (Hwf1 & Hok1 & Hholds1 & Hflags1).
    by eapply IH.
Qed.

(** X22. However the steps of callers declaring the same new name
    interleave, once all of them have returned the registry holds the name
    as optional exactly when every declaration was optional, and as
    sensitive exactly when some declaration was sensitive. *)
Theorem interleaved_merges_agree_on_flags :
  ∀ (env : Env) (N : string) (sched : list nat) (r : Requirement)
    (rs : list Requirement) (st st' : State) (results : list Result)
    (tr : Trace),
    reachable st →
    reg st !! N = None →
    Forall (fun r' => Name r' = N) (r :: rs) →
    run_schedule env sched (map AtGate (r :: rs)) st
    = Returned (map Done results) st' tr →
    ∃ R, reg st' !! N = Some R
         ∧ (Optional R = true ↔ ∀ r', r' ∈ r :: rs → Optional r' = true)
         ∧ (Sensitive R = true ↔ ∃ r', r' ∈ r :: rs ∧ Sensitive r' = true).
Proof.
  intros env N sched r rs st st' results tr Hreach Hnew Hnames Hrun.
  assert (Forall (caller_ok st) (map AtGate (r :: rs))) as Hok.
  { apply Forall_forall. intros c Hc.
    apply list_elem_of_fmap in Hc as (r' & -> & _). exact I. }
  assert (Forall2 holds (r :: rs) (map AtGate (r :: rs))) as Hholds0.
  { apply Forall2_fmap_r, Forall_Forall2_diag, Forall_forall.
    intros r' _. reflexivity. }
  assert (flags_follow N (r :: rs) (map AtGate (r :: rs)) st) as Hflags0.
  { unfold flags_follow. rewrite Hnew. intros i c Hc.
    apply list_lookup_fmap_Some in Hc as (r' & -> & _). reflexivity. }
  assert (Forall (fun c => dumping c = false) (map Done results)) as Hno.
  { apply Forall_forall. intros c Hc.
    apply list_elem_of_fmap in Hc as (res & -> & _). reflexivity. }
  destruct (run_schedule_flags env N (r :: rs) sched Hnames _ _ _ _ _
              (reachable_wf st Hreach) Hok Hholds0 Hflags0 Hrun Hno)
    as [Hholds Hflags].
  assert (∀ i r', (r :: rs) !! i = Some r' →
            ∃ c, map Done results !! i = Some c ∧ merged c = true) as Hall.
  { intros i r' Hi.
    destruct (Forall2_lookup_l _ _ _ _ _ Hholds Hi) as (c & Hc & _).
    exists c. split; [exact Hc|].
    apply list_lookup_fmap_Some in Hc as (res & -> & _). reflexivity. }
  unfold flags_follow in Hflags.
  destruct (reg st' !! N) as [R|].
  + exists R. split; [reflexivity|]. destruct Hflags as [HO HS]. split.
    * rewrite HO. split.
      -- intros H r' Hin. apply list_elem_of_lookup in Hin as [i Hi].
         destruct (Hall i r' Hi) as (c & Hc & Hm). by eapply H.
      -- intros H i r' c Hi _ _. apply H.
         by eapply list_elem_of_lookup_2.
    * rewrite HS. split.
      -- intros (i & r' & c & Hi & _ & _ & Hs). exists r'.
         split; [by eapply list_elem_of_lookup_2 | exact Hs].
      -- intros (r' & Hin & Hs). apply list_elem_of_lookup in Hin as [i Hi].
         destruct (Hall i r' Hi) as (c & Hc & Hm). exists i, r', c. auto.
  + exfalso. destruct (Hall 0 r eq_refl) as (c & Hc & Hm).
    rewrite (Hflags 0 c Hc) in Hm. discriminate Hm.
Qed.

Lemma interleaved_merges_agree_on_flags_witness :
  reachable init
  ∧ reg init !! "PRESENT_VAR" = None
  ∧ Forall (fun r' => Name r' = "PRESENT_VAR") [present_var; present_var_again]
  ∧ ∃ results st' tr,
      run_schedule test_env overlap
        (map AtGate [present_var; present_var_again]) init
      = Returned (map Done results) st' tr
      ∧ ∃ R, reg st' !! "PRESENT_VAR" = Some R
             ∧ (Optional R = true
                ↔ ∀ r', r' ∈ [present_var; present_var_again] →
                        Optional r' = true)
             ∧ (Sensitive R = true
                ↔ ∃ r', r' ∈ [present_var; present_var_again]
                        ∧ Sensitive r' = true).
Proof.
  assert (Forall (fun r' => Name r' = "PRESENT_VAR")
                 [present_var; present_var_again]) as Hall
    by (repeat constructor).
  split; [exact reachable_init|]. split; [reflexivity|].
  split; [exact Hall|].
  assert (∃ res0 res1 st' tr,
            run_schedule test_env overlap
              (map AtGate [present_var; present_var_again]) init
            = Returned (map Done [res0; res1]) st' tr)
    as (res0 & res1 & st' & tr & E)
    by (vm_compute; do 4 eexists; reflexivity).
  exists [res0; res1], st', tr. split; [exact E|].
  exact (interleaved_merges_agree_on_flags test_env "PRESENT_VAR" overlap
           present_var [present_var_again] init st' [res0; res1] tr
           reachable_init eq_refl Hall E).
Defined.
